(** * price-compare-pro: resilient fan-out aggregation core

    A shallow embedding of the TypeScript sources of the aggregation
    engine (provider normalisation, aggregator, circuit breaker, token
    bucket rate limiter, in-memory cache, retry helper) together with the
    properties the specification states about them.

    Conventions of the embedding:
    - a JavaScript [number] that carries a price, a quantity, a token
      count or a delay is an exact rational ([Q]); IEEE rounding, NaN and
      the infinities are not modelled;
    - [Date.now()] readings are integers in milliseconds ([Z]) and are
      passed explicitly to the operation that reads the clock;
    - a [Map<string, _>] is a [gmap string _];
    - a promise that settles is the value or the error it settles with. *)

From Stdlib Require Import ZArith QArith Qround Qminmax Qpower Lqa Lia.
From Stdlib Require Import Sorting.Sorted Sorting.Permutation.
From Stdlib Require Import Strings.Ascii DecimalString Decimal DecimalZ.
From Stdlib Require Import DecimalPos.
From stdpp Require Import base option list strings gmap.

Local Open Scope Z_scope.

(** JavaScript truthiness of a number: only zero is falsy (NaN is not
    modelled). [a || b] on numbers is [js_or a b]. *)
Definition js_or (a b : Q) : Q := if Qeq_bool a 0 then b else a.

(** [a > b] on numbers. *)
Definition Qgtb (a b : Q) : bool := negb (Qle_bool a b).

(** How a call completes: it returns a value or throws (for an async
    function: the promise is fulfilled or rejected). *)
Inductive Completion (E A : Type) : Type :=
| Returned (value : A)
| Thrown (error : E).
Arguments Returned {E A} value.
Arguments Thrown {E A} error.

(** * The built-in [parseInt], on ASCII input and without a radix

    Leading white space is skipped, a sign is read, a [0x] prefix
    switches to radix 16, and the longest run of digits is the value;
    no digit at all is NaN ([None]). *)
Module Js.

Definition isSpace (c : Ascii.ascii) : bool :=
  let n := Z.of_nat (Ascii.nat_of_ascii c) in
  (n =? 32) || ((9 <=? n) && (n <=? 13)).

Fixpoint skipSpace (s : string) : string :=
  match s with
  | String c s' => if isSpace c then skipSpace s' else s
  | EmptyString => s
  end.

Definition digitOf (radix : Z) (c : Ascii.ascii) : option Z :=
  let n := Z.of_nat (Ascii.nat_of_ascii c) in
  if (48 <=? n) && (n <=? 57) then Some (n - 48)
  else if (radix =? 16) && (97 <=? n) && (n <=? 102) then Some (n - 87)
  else if (radix =? 16) && (65 <=? n) && (n <=? 70) then Some (n - 55)
  else None.

Fixpoint digits (radix : Z) (s : string) (acc : option Z) : option Z :=
  match s with
  | String c s' =>
      match digitOf radix c with
      | Some d => digits radix s' (Some (radix * default 0 acc + d))
      | None => acc
      end
  | EmptyString => acc
  end.

Definition parseInt (s : string) : option Z :=
  let s := skipSpace s in
  let '(sign, s) :=
    match s with
    | String "-"%char s' => (-1, s')
    | String "+"%char s' => (1, s')
    | _ => (1, s)
    end in
  let '(radix, s) :=
    match s with
    | String "0"%char (String "x"%char s') => (16, s')
    | String "0"%char (String "X"%char s') => (16, s')
    | _ => (10, s)
    end in
  Z.mul sign <$> digits radix s None.

(** [s.startsWith(pattern)] *)
Fixpoint startsWith (s pattern : string) : bool :=
  match pattern, s with
  | EmptyString, _ => true
  | String c pattern', String d s' =>
      if Ascii.eqb c d then startsWith s' pattern' else false
  | String _ _, EmptyString => false
  end.

(** [s.includes(pattern)]: the pattern starts at some position. *)
Fixpoint includes (s pattern : string) : bool :=
  startsWith s pattern
  || match s with
     | String _ s' => includes s' pattern
     | EmptyString => false
     end.

(** [Math.round(x)]: the nearest integer, halves upwards. *)
Definition mathRound (x : Q) : Z := Qfloor (x + (1 # 2)).

(** An integer in a template literal: its decimal digits (as
    JavaScript prints integers below 1e21). *)
Definition numberToString (z : Z) : string :=
  NilZero.string_of_int (Z.to_int z).

(** [c.toLowerCase()] on an ASCII character. *)
Definition lowerChar (c : Ascii.ascii) : Ascii.ascii :=
  let n := Ascii.nat_of_ascii c in
  if ((65 <=? n) && (n <=? 90))%nat then Ascii.ascii_of_nat (n + 32) else c.

(** [s.toLowerCase()] on an ASCII string. *)
Fixpoint toLowerCase (s : string) : string :=
  match s with
  | String c s' => String (lowerChar c) (toLowerCase s')
  | EmptyString => EmptyString
  end.

End Js.

(** * BaseProviderService: unit normalisation *)
Module Provider.

(** [unitMap[unit]]: the own keys of the object literal built in
    [normalizeQuantity]; [None] is [undefined]. *)
Definition unitMap (quantity : Q) (unit : string) : option Q :=
  if String.eqb unit "g" then Some quantity
  else if String.eqb unit "ml" then Some quantity
  else if String.eqb unit "kg" then Some (quantity * 1000)%Q
  else if String.eqb unit "l" then Some (quantity * 1000)%Q
  else if String.eqb unit "pieces" then Some quantity
  else None.

(** [return unitMap[unit] || quantity;] *)
Definition normalizeQuantity (quantity : Q) (unit : string) : Q :=
  match unitMap quantity unit with
  | Some v => js_or v quantity
  | None => quantity
  end.

(** [['ml', 'g'].includes(unit)] *)
Definition per100 (unit : string) : bool :=
  String.eqb unit "ml" || String.eqb unit "g".

(** [calculatePricePerUnit(price, quantity, unit)] *)
Definition calculatePricePerUnit (price quantity : Q) (unit : string) : Q :=
  let baseQty := normalizeQuantity quantity unit in
  let divisor := if per100 unit then (baseQty / 100)%Q else quantity in
  if Qgtb divisor 0 then (price / divisor)%Q else 0%Q.

(** What the specification asks of a mass or volume unit: the price per
    100 base units. *)
Definition specPricePer100 (price quantity : Q) (unit : string) : Q :=
  (price / (normalizeQuantity quantity unit / 100))%Q.

End Provider.

(** * aggregatorService *)
Module Aggregator.

Inductive Badge := Cheapest | Fastest | BestValue.

(** The fields of [PriceComparison] the aggregator reads or writes, and
    the ones that identify a quote. *)
Record PriceComparison := mkPC {
  platform : string;
  productId : string;
  price : Q;
  effectivePrice : Q;
  deliveryETA : string;
  isCheapest : bool;
  isFastest : bool;
  badge : option Badge
}.

(** [x.isCheapest = true; x.badge = 'Cheapest'] *)
Definition markCheapest (x : PriceComparison) : PriceComparison :=
  mkPC (platform x) (productId x) (price x) (effectivePrice x)
       (deliveryETA x) true (isFastest x) (Some Cheapest).

(** [x.isFastest = true; x.badge = 'Fastest'] *)
Definition markFastest (x : PriceComparison) : PriceComparison :=
  mkPC (platform x) (productId x) (price x) (effectivePrice x)
       (deliveryETA x) (isCheapest x) true (Some Fastest).

(** One entry of the array [Promise.allSettled] resolves to. *)
Inductive Settled (A : Type) : Type :=
| Fulfilled (value : A)
| Rejected (reason : string).
Arguments Fulfilled {A} value.
Arguments Rejected {A} reason.

Definition isFulfilled {A} (r : Settled A) : bool :=
  match r with Fulfilled _ => true | Rejected _ => false end.

(** [r.value] of an entry (only read on fulfilled entries). *)
Definition settledValue {A} (r : Settled (list A)) : list A :=
  match r with Fulfilled v => v | Rejected _ => [] end.

(** A provider gateway: [p.search(query, lat, lng)], as the way its
    promise settles. *)
Definition ProviderGateway : Type :=
  string -> Q -> Q -> Settled (list PriceComparison).

(** [allResults.sort((a, b) => a.effectivePrice - b.effectivePrice)].
    [Array.prototype.sort] is stable, so its result is the one stable
    ascending arrangement; insertion in front of the first element that
    is not smaller computes it. *)
Fixpoint insertSorted (x : PriceComparison) (l : list PriceComparison)
  : list PriceComparison :=
  match l with
  | [] => [x]
  | y :: l' =>
      if Qle_bool (effectivePrice x) (effectivePrice y)
      then x :: y :: l'
      else y :: insertSorted x l'
  end.

Definition sortByEffectivePrice (l : list PriceComparison)
  : list PriceComparison :=
  fold_right insertSorted [] l.

(** [Array.prototype.reduce(f)] without an initial value: a [TypeError]
    ([None]) on the empty array, otherwise the fold from the first
    element over the rest. *)
Definition reduce {A} (f : A -> A -> A) (l : list A) : option A :=
  match l with
  | [] => None
  | x :: l' => Some (fold_left f l' x)
  end.

(** [a < b] where either side may be NaN ([None]). *)
Definition nan_ltb (a b : option Z) : bool :=
  match a, b with
  | Some x, Some y => x <? y
  | _, _ => false
  end.

Inductive JsError := TypeError (msg : string).

Section SearchAll.

(** The built-in [parseInt]; [None] is NaN. *)
Variable parseInt : string -> option Z.

(** The delivery time the reduce compares:
    [parseInt(x.deliveryETA)]. *)
Definition eta (x : PriceComparison) : option Z := parseInt (deliveryETA x).

(** The callback of the reduce. Elements are objects compared by
    identity afterwards, so each is carried with its index in the
    array (the provider results are taken to be distinct objects). *)
Definition pickFaster (prev current : nat * PriceComparison)
  : nat * PriceComparison :=
  if nan_ltb (parseInt (deliveryETA current.2))
             (parseInt (deliveryETA prev.2))
  then current else prev.

Definition withIndex (l : list PriceComparison)
  : list (nat * PriceComparison) :=
  imap (fun i x => (i, x)) l.

(** The merged array: the fulfilled entries, flattened. *)
Definition mergeFulfilled (results : list (Settled (list PriceComparison)))
  : list PriceComparison :=
  flat_map settledValue (List.filter isFulfilled results).

(** [searchAll(query, lat, lng, providers)] *)
Definition searchAll (query : string) (lat lng : Q)
    (providers : list ProviderGateway)
  : Completion JsError (list PriceComparison) :=
  let results := map (fun p => p query lat lng) providers in
  let allResults := sortByEffectivePrice (mergeFulfilled results) in
  let allResults :=
    if (0 <? length allResults)%nat
    then alter markCheapest 0%nat allResults
    else allResults in
  match reduce pickFaster (withIndex allResults) with
  | None => Thrown (TypeError "Reduce of empty array with no initial value")
  | Some fastest =>
      Returned (if negb (fastest.1 =? 0)%nat
                then alter markFastest fastest.1 allResults
                else allResults)
  end.

End SearchAll.

(** The raw quote under the badges the aggregator writes. *)
Definition unbadged (x : PriceComparison) : PriceComparison :=
  mkPC (platform x) (productId x) (price x) (effectivePrice x)
       (deliveryETA x) false false None.

(** The comparison example of the README: two quotes for one product,
    effective prices 245 and 255, the dearer one delivered sooner. *)
Definition blinkitButter : PriceComparison :=
  mkPC "blinkit" "amul-butter-500g" 220 245 "15-20 min" false false None.

Definition zeptoButter : PriceComparison :=
  mkPC "zepto" "amul-butter-500g" 215 255 "10-15 min" false false None.

(** Ascending effective price. *)
Definition cheaperOrEqual (a b : PriceComparison) : Prop :=
  (effectivePrice a <= effectivePrice b)%Q.

End Aggregator.

(** * BaseProviderService: [normalizePriceComparison] *)
Module ProviderService.

(** [a || d] where [a] may be absent. *)
Definition orNum (a : option Q) (d : Q) : Q :=
  match a with
  | Some x => js_or x d
  | None => d
  end.

Definition orStr (a : option string) (d : string) : string :=
  match a with
  | Some x => if String.eqb x "" then d else x
  | None => d
  end.

(** [x / y] when the result is a finite number; division by zero gives
    NaN or an infinity, both [None]. *)
Definition jsDiv (x y : Q) : option Q :=
  if Qeq_bool y 0 then None else Some (x / y)%Q.

(** The fields of the provider payload ([data: any]) that are read; an
    absent field is [None]. The quantity and the unit are taken to be
    there. *)
Module Raw.
Record Data := mkData {
  id : string;
  name : string;
  brand : option string;
  quantity : Q;
  unit : string;
  image : option string;
  url : option string;
  price : option Q;
  originalPrice : option Q;
  deliveryFee : option Q;
  platformFee : option Q;
  deliveryETA : option string;
  inStock : option bool
}.
End Raw.

Module Product.
Record t := mk {
  id : string;
  name : string;
  brand : string;
  quantity : Q;
  unit : string;
  baseQuantity : Q;
  image : string;
  platform : string;
  url : string
}.
End Product.

(** [PriceComparison] in full; [discountPercentage] is [None] when it
    is not a finite number. *)
Record PriceComparison := mkPC {
  platform : string;
  product : Product.t;
  price : Q;
  originalPrice : Q;
  discount : Q;
  discountPercentage : option Q;
  deliveryFee : Q;
  platformFee : Q;
  effectivePrice : Q;
  pricePerUnit : Q;
  deliveryETA : string;
  inStock : bool;
  isCheapest : bool;
  isFastest : bool;
  lastUpdated : Z
}.

(** [normalizePriceComparison(data)] of the service for [platform];
    [now] is the reading of [Date.now()]. *)
Definition normalizePriceComparison (platform : string) (now : Z)
    (data : Raw.Data) : PriceComparison :=
  let price := orNum (Raw.price data) 0 in
  let originalPrice := orNum (Raw.originalPrice data) price in
  let deliveryFee := orNum (Raw.deliveryFee data) 0 in
  let discount := (originalPrice - price)%Q in
  mkPC platform
    (Product.mk (Raw.id data) (Raw.name data) (orStr (Raw.brand data) "")
       (Raw.quantity data) (Raw.unit data)
       (Provider.normalizeQuantity (Raw.quantity data) (Raw.unit data))
       (orStr (Raw.image data) "") platform (orStr (Raw.url data) ""))
    price originalPrice discount
    ((fun q => q * 100)%Q <$> jsDiv discount originalPrice)
    deliveryFee (orNum (Raw.platformFee data) 0)
    (price + deliveryFee + orNum (Raw.platformFee data) 0)%Q
    (Provider.calculatePricePerUnit price (Raw.quantity data) (Raw.unit data))
    (orStr (Raw.deliveryETA data) "30 min")
    (match Raw.inStock data with Some false => false | _ => true end)
    false false now.

(** [handleError(error, context)]: the error is logged and the
    provider answers with no quote. *)
Definition handleError {Err : Type} (error : Err) (context : string)
  : list PriceComparison := [].

(** The object as the aggregator sees it (no [badge] is set). *)
Definition quote (x : PriceComparison) : Aggregator.PriceComparison :=
  Aggregator.mkPC (platform x) (Product.id (product x)) (price x)
    (effectivePrice x) (deliveryETA x) (isCheapest x) (isFastest x) None.

End ProviderService.

(** * CircuitBreaker *)
Module CircuitBreaker.

Inductive Status := CLOSED | OPEN | HALF_OPEN.

Record CircuitState := mkState {
  status : Status;
  failures : Z;
  lastFailureTime : Z;
  successCount : Z
}.

Definition failureThreshold : Z := 5.
Definition successThreshold : Z := 2.
Definition timeout : Z := 60000.

(** The state a breaker is constructed with, and [reset()] restores. *)
Definition initial : CircuitState := mkState CLOSED 0 0 0.

(** [open()]; [now] is its [Date.now()] reading. *)
Definition open (now : Z) (s : CircuitState) : CircuitState :=
  mkState OPEN (failures s) now (successCount s).

(** [halfOpen()] *)
Definition halfOpen (s : CircuitState) : CircuitState :=
  mkState HALF_OPEN (failures s) (lastFailureTime s) 0.

(** [close()] *)
Definition close (s : CircuitState) : CircuitState :=
  mkState CLOSED 0 (lastFailureTime s) 0.

(** [isOpen()]; [now] is its [Date.now()] reading (only read when the
    status is OPEN). *)
Definition isOpen (now : Z) (s : CircuitState) : bool * CircuitState :=
  match status s with
  | OPEN =>
      let timeSinceLastFailure := now - lastFailureTime s in
      if timeSinceLastFailure >? timeout then (false, halfOpen s)
      else (true, s)
  | _ => (false, s)
  end.

(** [recordSuccess()] *)
Definition recordSuccess (s : CircuitState) : CircuitState :=
  match status s with
  | HALF_OPEN =>
      let s1 := mkState (status s) (failures s) (lastFailureTime s)
                        (successCount s + 1) in
      if successCount s1 >=? successThreshold then close s1 else s1
  | CLOSED => mkState (status s) 0 (lastFailureTime s) (successCount s)
  | OPEN => s
  end.

(** [recordFailure()]; [now] is the clock reading of the method itself
    and [now'] the later one of the [open()] it may call. *)
Definition recordFailure (now now' : Z) (s : CircuitState) : CircuitState :=
  let s1 := mkState (status s) (failures s + 1) now (successCount s) in
  if failures s1 >=? failureThreshold then open now' s1 else s1.

(** [reset()] *)
Definition reset (s : CircuitState) : CircuitState := initial.

(** [execute(fn, fallback)] with [fn] and [fallback] given by the way
    their promises settle; [t_open] is the reading of [isOpen] and
    [t_fail], [t_fail'] those of [recordFailure]. *)
Definition execute {E T} (newError : string -> E)
    (fn : Completion E T) (fallback : option (Completion E T))
    (t_open t_fail t_fail' : Z) (s : CircuitState)
  : Completion E T * CircuitState :=
  let '(isopen, s) := isOpen t_open s in
  if isopen then
    match fallback with
    | Some fb => (fb, s)
    | None => (Thrown (newError "Circuit breaker is OPEN"), s)
    end
  else
    match fn with
    | Returned result => (Returned result, recordSuccess s)
    | Thrown error =>
        let s := recordFailure t_fail t_fail' s in
        match fallback with
        | Some fb => (fb, s)
        | None => (Thrown error, s)
        end
    end.

(** The calls a client can make on a breaker. *)
Inductive Op :=
| OpIsOpen (now : Z)
| OpRecordSuccess
| OpRecordFailure (now now' : Z)
| OpReset.

Definition step (s : CircuitState) (op : Op) : CircuitState :=
  match op with
  | OpIsOpen now => (isOpen now s).2
  | OpRecordSuccess => recordSuccess s
  | OpRecordFailure now now' => recordFailure now now' s
  | OpReset => reset s
  end.

(** The states a breaker can be in: [initial] and what any sequence of
    calls makes of it. *)
Inductive reachable : CircuitState -> Prop :=
| reach_initial : reachable initial
| reach_step s op : reachable s -> reachable (step s op).

(** [n] consecutive [recordFailure] calls, at the readings [ts]. *)
Definition recordFailures (ts : list (Z * Z)) (s : CircuitState)
  : CircuitState :=
  fold_left (fun s t => recordFailure t.1 t.2 s) ts s.

(** What every state a breaker can be in satisfies: it leaves CLOSED
    only with the failure threshold reached, and a half-open breaker
    has counted fewer successes than the success threshold. *)
Definition breaker_inv (s : CircuitState) : Prop :=
  match status s with
  | CLOSED => True
  | OPEN => failureThreshold <= failures s
  | HALF_OPEN =>
      failureThreshold <= failures s /\
      0 <= successCount s < successThreshold
  end.

(** [getState()]: a copy of the state. *)
Definition getState (s : CircuitState) : CircuitState :=
  mkState (status s) (failures s) (lastFailureTime s) (successCount s).

(** What holds of the counters in every state a breaker can be in. *)
Definition breaker_wf (s : CircuitState) : Prop :=
  match status s with
  | CLOSED => 0 <= failures s < failureThreshold /\ successCount s = 0
  | _ => failureThreshold <= failures s /\
         0 <= successCount s < successThreshold
  end.

(** One [execute] call of a run: the way [fn] settles if it is invoked,
    the fallback if one is passed, and the clock readings of [isOpen]
    and of [recordFailure]. *)
Record Call (E T : Type) := mkCall {
  callFn : Completion E T;
  callFallback : option (Completion E T);
  callTime : Z;
  callFailTime : Z;
  callFailTime' : Z
}.
Arguments mkCall {E T} _ _ _ _ _.
Arguments callFn {E T} _.
Arguments callFallback {E T} _.
Arguments callTime {E T} _.
Arguments callFailTime {E T} _.
Arguments callFailTime' {E T} _.

(** A run of [execute] calls on one breaker; the results come out in
    call order. *)
Fixpoint executes {E T} (newError : string -> E) (calls : list (Call E T))
    (s : CircuitState) : list (Completion E T) * CircuitState :=
  match calls with
  | [] => ([], s)
  | c :: calls' =>
      let '(r, s1) := execute newError (callFn c) (callFallback c)
                        (callTime c) (callFailTime c) (callFailTime' c) s in
      let '(rs, s2) := executes newError calls' s1 in
      (r :: rs, s2)
  end.

(** What a caller of [execute] gets when [fn] is not the one to answer:
    the fallback's result, or the error given. *)
Definition orFallback {E T} (fallback : option (Completion E T)) (error : E)
  : Completion E T :=
  match fallback with
  | Some fb => fb
  | None => Thrown error
  end.

(** Is [fn] of the call one that throws? *)
Definition failing {E T} (c : Call E T) : Prop :=
  exists e, callFn c = Thrown e.

(** What the caller of a failing [execute] gets. *)
Definition failureResult {E T} (c : Call E T) : Completion E T :=
  match callFn c with
  | Thrown e => orFallback (callFallback c) e
  | Returned v => Returned v
  end.

End CircuitBreaker.

(** * RateLimiter (token bucket) *)
Module RateLimiter.

Record BucketState := mkBucket {
  tokens : Q;
  lastRefillTime : Z
}.

Definition capacity : Q := 100.
Definition refillRate : Q := 10.
Definition refillInterval : Q := 1000.

(** [refillBucket(bucket)]; [now] is its [Date.now()] reading. *)
Definition refillBucket (now : Z) (bucket : BucketState) : BucketState :=
  let timePassed := now - lastRefillTime bucket in
  let tokensToAdd := (inject_Z timePassed / refillInterval * refillRate)%Q in
  mkBucket (Qmin capacity (tokens bucket + tokensToAdd)) now.

(** The bucket [allowRequest] works on: the stored one, or a fresh
    full one stamped with the reading [created]. *)
Definition bucketOf (clientId : string) (created : Z)
    (buckets : gmap string BucketState) : BucketState :=
  match buckets !! clientId with
  | Some bucket => bucket
  | None => mkBucket capacity created
  end.

(** [allowRequest(clientId)]. [created] is the clock reading taken when
    the bucket has to be created, [now] the one [refillBucket] takes.
    The bucket object is mutated in place, so the map holds the
    refilled (and possibly decremented) bucket afterwards. *)
Definition allowRequest (clientId : string) (created now : Z)
    (buckets : gmap string BucketState)
  : bool * gmap string BucketState :=
  let bucket := refillBucket now (bucketOf clientId created buckets) in
  if Qle_bool 1 (tokens bucket)
  then (true, <[clientId := mkBucket (tokens bucket - 1) (lastRefillTime bucket)]> buckets)
  else (false, <[clientId := bucket]> buckets).

(** [getRetryAfter(clientId)] *)
Definition getRetryAfter (clientId : string)
    (buckets : gmap string BucketState) : Z :=
  match buckets !! clientId with
  | None => 0
  | Some bucket => Qceiling ((1 - tokens bucket) / refillRate)
  end.

(** [reset(clientId)] *)
Definition reset (clientId : string) (buckets : gmap string BucketState)
  : gmap string BucketState :=
  delete clientId buckets.

(** A run of [allowRequest] calls for one client, one call per pair of
    clock readings; the answers come out in call order. *)
Fixpoint allowRequests (clientId : string) (clock : list (Z * Z))
    (buckets : gmap string BucketState)
  : list bool * gmap string BucketState :=
  match clock with
  | [] => ([], buckets)
  | t :: clock' =>
      let '(ok, buckets1) := allowRequest clientId t.1 t.2 buckets in
      let '(oks, buckets2) := allowRequests clientId clock' buckets1 in
      (ok :: oks, buckets2)
  end.

(** The clock never runs backwards over the readings of a run that
    starts at [t0]. *)
Fixpoint monotone (t0 : Z) (clock : list (Z * Z)) : Prop :=
  match clock with
  | [] => True
  | t :: clock' => t0 <= t.1 /\ t.1 <= t.2 /\ monotone t.2 clock'
  end.

(** The time one token takes to refill, in milliseconds:
    [refillInterval / refillRate]. *)
Definition tokenPeriod : Z := 100.

(** A bucket within bounds whose last refill is not ahead of the
    clock. *)
Definition bucket_ok (t : Z) (b : BucketState) : Prop :=
  (0 <= tokens b <= capacity)%Q /\ lastRefillTime b <= t.

(** The number of requests a run allowed. *)
Definition allowed (oks : list bool) : nat :=
  length (List.filter (fun ok : bool => ok) oks).

(** The last clock reading of a run that starts with the call [t]. *)
Definition lastReading (t : Z * Z) (clock : list (Z * Z)) : Z :=
  (List.last clock t).2.

End RateLimiter.

(** * The middleware stack

    [rateLimiter] and [circuitBreaker] are the instances the module
    creates once; they are the state threaded through the calls. *)
Module Middleware.

(** What a middleware does with a request: hand it on with [next()],
    or answer it with a status and, for 429, the [retryAfter] of the
    body. *)
Inductive Outcome :=
| Next
| Respond (status : Z) (retryAfter : option Z).

(** [req.ip || 'unknown'] *)
Definition clientIdOf (ip : option string) : string :=
  match ip with
  | Some a => if String.eqb a "" then "unknown" else a
  | None => "unknown"
  end.

(** [rateLimitMiddleware(req, res, next)]; [created] and [now] are the
    clock readings of [allowRequest]. *)
Definition rateLimitMiddleware (ip : option string) (created now : Z)
    (rateLimiter : gmap string RateLimiter.BucketState)
  : Outcome * gmap string RateLimiter.BucketState :=
  let clientId := clientIdOf ip in
  let '(ok, rateLimiter) :=
    RateLimiter.allowRequest clientId created now rateLimiter in
  if negb ok
  then (Respond 429 (Some (RateLimiter.getRetryAfter clientId rateLimiter)),
        rateLimiter)
  else (Next, rateLimiter).

(** [circuitBreakerMiddleware(req, res, next)]; [now] is the clock
    reading of [isOpen]. *)
Definition circuitBreakerMiddleware (now : Z)
    (circuitBreaker : CircuitBreaker.CircuitState)
  : Outcome * CircuitBreaker.CircuitState :=
  let '(isopen, circuitBreaker) := CircuitBreaker.isOpen now circuitBreaker in
  if isopen then (Respond 503 None, circuitBreaker)
  else (Next, circuitBreaker).

(** The requests of a process's lifetime through
    [circuitBreakerMiddleware], one clock reading each. *)
Fixpoint circuitBreakerRequests (clock : list Z)
    (circuitBreaker : CircuitBreaker.CircuitState)
  : list Outcome * CircuitBreaker.CircuitState :=
  match clock with
  | [] => ([], circuitBreaker)
  | now :: clock' =>
      let '(o, cb1) := circuitBreakerMiddleware now circuitBreaker in
      let '(os, cb2) := circuitBreakerRequests clock' cb1 in
      (o :: os, cb2)
  end.

End Middleware.

(** * CacheService (in-memory, lazy expiry) *)
Module Cache.

Record CacheOptions := mkOptions {
  ttl : option Q;              (* seconds *)
  namespace : option string
}.

(** [options = {}] *)
Definition noOptions : CacheOptions := mkOptions None None.

Section Store.

(** The cached values ([any] in the source) and their truthiness. *)
Variable V : Type.
Variable truthy : V -> bool.

Record Item := mkItem {
  value : V;
  expires : Q
}.

(** [options.ttl || 300] *)
Definition effectiveTtl (options : CacheOptions) : Q :=
  match ttl options with
  | Some t => js_or t 300
  | None => 300
  end.

(** [options.namespace ? `${options.namespace}:` : ''] (the empty
    string is falsy). *)
Definition nsPrefix (options : CacheOptions) : string :=
  match namespace options with
  | Some ns => if String.eqb ns "" then "" else ns +:+ ":"
  | None => ""
  end.

(** [`${ns}${key}`] *)
Definition finalKey (key : string) (options : CacheOptions) : string :=
  nsPrefix options +:+ key.

(** [get(key)] at the clock reading [now]; [None] is [null]. *)
Definition get (key : string) (now : Z) (cache : gmap string Item)
  : option V * gmap string Item :=
  match cache !! key with
  | None => (None, cache)
  | Some item =>
      if Qgtb (inject_Z now) (expires item)
      then (None, delete key cache)
      else (Some (value item), cache)
  end.

(** [set(key, value, options)] at the clock reading [now]. *)
Definition set (key : string) (v : V) (options : CacheOptions) (now : Z)
    (cache : gmap string Item) : gmap string Item :=
  let ttl := effectiveTtl options in
  <[finalKey key options := mkItem v (inject_Z now + ttl * 1000)%Q]> cache.

(** What a [getOrSet] call did: the value it resolved to, whether it
    invoked [fn], and the cache it left. *)
Record GetOrSet := mkGetOrSet {
  resolved : V;
  invoked : bool;
  cacheAfter : gmap string Item
}.

(** [getOrSet(key, fn, options)]; [fn] is given by the value its promise
    resolves to, [now] is the reading of the [get] and [now'] the one of
    the [set]. *)
Definition getOrSet (key : string) (fn : V) (options : CacheOptions)
    (now now' : Z) (cache : gmap string Item) : GetOrSet :=
  let '(cached, cache1) := get key now cache in
  match cached with
  | Some c =>
      if truthy c then mkGetOrSet c false cache1
      else mkGetOrSet fn true (set key fn options now' cache1)
  | None => mkGetOrSet fn true (set key fn options now' cache1)
  end.

(** A run of [getOrSet] calls on one key with one set of options; the
    [invoked] flags come out in call order. *)
Fixpoint getOrSets (key : string) (options : CacheOptions)
    (calls : list (V * Z * Z)) (cache : gmap string Item)
  : list bool * gmap string Item :=
  match calls with
  | [] => ([], cache)
  | (fn, now, now') :: calls' =>
      let r := getOrSet key fn options now now' cache in
      let '(flags, cache') := getOrSets key options calls' (cacheAfter r) in
      (invoked r :: flags, cache')
  end.

(** [invalidate(pattern)]: without a pattern (or with the empty one,
    which is falsy) the map is cleared; otherwise every key that
    includes the pattern is deleted (deleting while iterating over a
    [Map] still visits every key). *)
Definition invalidate (pattern : option string) (cache : gmap string Item)
  : gmap string Item :=
  match pattern with
  | None => ∅
  | Some p =>
      if String.eqb p "" then ∅
      else filter (fun kv => Js.includes kv.1 p = false) cache
  end.

End Store.

Arguments value {V} _.
Arguments expires {V} _.
Arguments mkItem {V} _ _.
Arguments get {V} key now cache.
Arguments set {V} key v options now cache.
Arguments resolved {V} _.
Arguments invoked {V} _.
Arguments cacheAfter {V} _.
Arguments invalidate {V} pattern cache.

End Cache.

(** * cacheService (Redis) and the search route *)
Module RedisCache.

(** [getCacheKey(query, lat, lng)]:
    [`search:${query}:${Math.round(lat)}:${Math.round(lng)}`] *)
Definition getCacheKey (query : string) (lat lng : Q) : string :=
  "search:" +:+ query +:+ ":" +:+ Js.numberToString (Js.mathRound lat)
    +:+ ":" +:+ Js.numberToString (Js.mathRound lng).

Section Redis.

(** The values cached (objects, so truthy, that survive the JSON round
    trip). The Redis server is the map of the live keys, each with the
    time in milliseconds at which it expires. *)
Variable V : Type.

(** [get(key)]; [up] tells whether the Redis command succeeds (an
    error is logged and read as a miss). *)
Definition get (up : bool) (key : string) (now : Z)
    (redis : gmap string (V * Z)) : option V :=
  if up then
    match redis !! key with
    | Some (v, expires) => if now <? expires then Some v else None
    | None => None
    end
  else None.

(** [set(key, value, ttl = 600)] through [SETEX]; an error is logged
    and nothing is stored. *)
Definition set (up : bool) (key : string) (value : V) (ttl : option Z)
    (now : Z) (redis : gmap string (V * Z)) : gmap string (V * Z) :=
  if up then <[key := (value, now + default 600 ttl * 1000)]> redis
  else redis.

(** [delete(key)] *)
Definition delete (up : bool) (key : string) (redis : gmap string (V * Z))
  : gmap string (V * Z) :=
  if up then base.delete key redis else redis.

End Redis.

Arguments get {V} up key now redis.
Arguments set {V} up key value ttl now redis.
Arguments delete {V} up key redis.

End RedisCache.

Module SearchRoute.

(** What [searchSchema.parse] returns. *)
Record Params := mkParams {
  q : string;
  lat : Q;
  lng : Q;
  pincode : option string
}.

(** What reading and validating a request can throw: the [ZodError] of
    [searchSchema.parse], or anything else. *)
Inductive RequestError := ZodError | OtherError.

(** The [data] of a successful answer. *)
Record SearchResults := mkResults {
  query : string;
  location : Q * Q * option string;
  results : list Aggregator.PriceComparison;
  timestamp : Z;
  cacheHit : bool
}.

(** The body of an answer. *)
Inductive Body :=
| Success (data : SearchResults)
| InvalidParameters
| InternalServerError.

Record Response := mkResponse {
  status : Z;
  body : Body
}.

(** [{ ...cached, cacheHit: true }] *)
Definition markHit (cached : SearchResults) : SearchResults :=
  mkResults (query cached) (location cached) (results cached)
            (timestamp cached) true.

Section Handlers.

Variable parseInt : string -> option Z.

(** The body of the [try] of both handlers once the parameters are
    validated; [up] and [up'] tell whether the Redis commands of the
    [get] and of the [set] succeed. *)
Definition search (validationData : Params) (up up' : bool) (now : Z)
    (redis : gmap string (SearchResults * Z))
  : Completion Aggregator.JsError Response * gmap string (SearchResults * Z) :=
  let cacheKey :=
    RedisCache.getCacheKey (q validationData) (lat validationData)
      (lng validationData) in
  match RedisCache.get up cacheKey now redis with
  | Some cached => (Returned (mkResponse 200 (Success (markHit cached))), redis)
  | None =>
      let providers : list Aggregator.ProviderGateway := [] in
      match Aggregator.searchAll parseInt (q validationData)
              (lat validationData) (lng validationData) providers with
      | Thrown e => (Thrown e, redis)
      | Returned results =>
          let response :=
            mkResults (q validationData)
              (lat validationData, lng validationData,
               pincode validationData)
              results now false in
          (Returned (mkResponse 200 (Success response)),
           RedisCache.set up' cacheKey response (Some 600) now redis)
      end
  end.

(** [GET(request)]; [request] is the way reading the URL and
    [searchSchema.parse] go. A [ZodError] is answered with 400, any
    other error with 500. *)
Definition GET (request : Completion RequestError Params) (up up' : bool)
    (now : Z) (redis : gmap string (SearchResults * Z))
  : Response * gmap string (SearchResults * Z) :=
  match request with
  | Thrown ZodError => (mkResponse 400 InvalidParameters, redis)
  | Thrown OtherError => (mkResponse 500 InternalServerError, redis)
  | Returned validationData =>
      match search validationData up up' now redis with
      | (Returned response, redis) => (response, redis)
      | (Thrown _, redis) => (mkResponse 500 InternalServerError, redis)
      end
  end.

(** [POST(request)]; [request] is the way [request.json()] and
    [searchSchema.parse] go. Its [catch] answers every error with
    500. *)
Definition POST (request : Completion RequestError Params) (up up' : bool)
    (now : Z) (redis : gmap string (SearchResults * Z))
  : Response * gmap string (SearchResults * Z) :=
  match request with
  | Thrown _ => (mkResponse 500 InternalServerError, redis)
  | Returned validationData =>
      match search validationData up up' now redis with
      | (Returned response, redis) => (response, redis)
      | (Thrown _, redis) => (mkResponse 500 InternalServerError, redis)
      end
  end.

(** One request of a run: the method, then the arguments of the
    handler. *)
Inductive Method := MGet | MPost.

Definition handle (r : Method * Completion RequestError Params * bool * bool * Z)
    (redis : gmap string (SearchResults * Z))
  : Response * gmap string (SearchResults * Z) :=
  let '(m, request, up, up', now) := r in
  match m with
  | MGet => GET request up up' now redis
  | MPost => POST request up up' now redis
  end.

(** The requests of a run, served one after the other. *)
Fixpoint serve
    (rs : list (Method * Completion RequestError Params * bool * bool * Z))
    (redis : gmap string (SearchResults * Z))
  : list Response * gmap string (SearchResults * Z) :=
  match rs with
  | [] => ([], redis)
  | r :: rs' =>
      let '(resp, redis1) := handle r redis in
      let '(resps, redis2) := serve rs' redis1 in
      (resp :: resps, redis2)
  end.

End Handlers.

(** The answer to a request that is not served from the cache: 400 for
    a [GET] whose validation throws a [ZodError], 500 otherwise. *)
Definition coldAnswer (m : Method) (request : Completion RequestError Params)
  : Response :=
  match m, request with
  | MGet, Thrown ZodError => mkResponse 400 InvalidParameters
  | _, _ => mkResponse 500 InternalServerError
  end.

End SearchRoute.

(** * DataTransformer

    Plain data, as JSON has it. An object is the list of its own
    enumerable properties in enumeration order, each key once; its
    prototype is [Object.prototype], whose properties are not
    enumerable: a loop over the keys passes them by, a property read
    ([prop]) finds them. *)
Module DataTransformer.

Local Unset Elimination Schemes.
Inductive Json :=
| JNull
| JBool (b : bool)
| JNum (n : Q)
| JStr (s : string)
| JArr (items : list Json)
| JObj (props : list (string * Json)).
Local Set Elimination Schemes.

(** [typeof v === 'object' && v !== null] *)
Definition isObject (v : Json) : bool :=
  match v with
  | JArr _ | JObj _ => true
  | _ => false
  end.

(** [acc[key] = value] on the properties of an object: an existing key
    keeps its place and takes the value, a new one goes last. *)
Fixpoint assign (key : string) (value : Json) (props : list (string * Json))
  : list (string * Json) :=
  match props with
  | [] => [(key, value)]
  | (k, v) :: props' =>
      if String.eqb k key then (k, value) :: props'
      else (k, v) :: assign key value props'
  end.

(** The own property of an object under a key, if it has one. *)
Fixpoint ownProp (key : string) (props : list (string * Json)) : option Json :=
  match props with
  | [] => None
  | (k, v) :: props' => if String.eqb k key then Some v else ownProp key props'
  end.

(** The properties every plain object inherits from [Object.prototype],
    the accessor [__proto__] apart. *)
Definition inheritedNames : list string :=
  ["constructor"; "hasOwnProperty"; "isPrototypeOf"; "propertyIsEnumerable";
   "toLocaleString"; "toString"; "valueOf";
   "__defineGetter__"; "__defineSetter__";
   "__lookupGetter__"; "__lookupSetter__"].

(** What reading a property of a plain object gives: the value of an
    own property, the member of [Object.prototype] of that name,
    [Object.prototype] itself (from the getter of [__proto__]), or
    [undefined]. *)
Inductive Value :=
| Undefined
| Own (v : Json)
| Inherited (name : string)
| ObjectPrototype.

(** [data[key]] on a plain object (own data properties over
    [Object.prototype]): the own property first, then the prototype. *)
Definition prop (key : string) (props : list (string * Json)) : Value :=
  match ownProp key props with
  | Some v => Own v
  | None =>
      if String.eqb key "__proto__" then ObjectPrototype
      else if bool_decide (key ∈ inheritedNames) then Inherited key
      else Undefined
  end.

(** [normalize(data)]. Every lower-cased key is taken to become a
    property of the result; the assignment in the code makes none for
    a key that lower-cases to [__proto__]. *)
Fixpoint normalize (data : Json) : Json :=
  match data with
  | JArr items => JArr (map normalize items)
  | JObj props =>
      JObj (fold_left
              (fun acc kv => assign (Js.toLowerCase kv.1) (normalize kv.2) acc)
              props [])
  | _ => data
  end.

(** The prototype of the object [pick] builds: [Object.prototype] as
    for every object literal, until an assignment to [__proto__] makes
    it an object or array of the data, or null. *)
Inductive Proto :=
| ProtoObject
| ProtoData (v : Json)
| ProtoNull.

(** The object [pick] builds: its own properties and its prototype. *)
Record Picked := mkPicked {
  own : gmap string Value;
  proto : Proto
}.

(** Does an assignment to [__proto__], on an object with this prototype
    and no own property of that name, reach the setter of
    [Object.prototype]? Not past an object of the data that has a
    property of that name itself, and not past a null prototype. *)
Definition reachesSetter (p : Proto) : bool :=
  match p with
  | ProtoObject => true
  | ProtoData (JObj props) =>
      match ownProp "__proto__" props with Some _ => false | None => true end
  | ProtoData _ => true
  | ProtoNull => false
  end.

(** [acc[field] = data[field]]. Under any name but [__proto__] the
    assignment makes or overwrites an own property of [acc]. Under
    [__proto__] it does so only when [acc] has such an own property
    already or the setter is out of reach; otherwise the setter runs:
    it makes an object, an array or null the prototype of [acc] and
    ignores any other value, and no own property is made. *)
Definition assignField (data : list (string * Json)) (acc : Picked)
    (field : string) : Picked :=
  if negb (String.eqb field "__proto__")
  then mkPicked (<[field := prop field data]> (own acc)) (proto acc)
  else
    match own acc !! field with
    | Some _ => mkPicked (<[field := prop field data]> (own acc)) (proto acc)
    | None =>
        if reachesSetter (proto acc)
        then
          match ownProp field data with
          | None => mkPicked (own acc) ProtoObject
          | Some (JObj props) => mkPicked (own acc) (ProtoData (JObj props))
          | Some (JArr items) => mkPicked (own acc) (ProtoData (JArr items))
          | Some JNull => mkPicked (own acc) ProtoNull
          | Some _ => acc
          end
        else mkPicked (<[field := prop field data]> (own acc)) (proto acc)
    end.

(** [pick(data, fields)] on a plain object: the reduce over [fields]
    from [{}]. *)
Definition pick (data : list (string * Json)) (fields : list string)
  : Picked :=
  fold_left (assignField data) fields (mkPicked ∅ ProtoObject).

(** [omit(data, fields)] on a plain object: a copy of the own
    properties with the fields deleted; the copy is an object literal,
    so it inherits from [Object.prototype] as the data does. *)
Definition omit (data : list (string * Json)) (fields : list string)
  : list (string * Json) :=
  fold_left (fun result field =>
               List.filter (fun kv => negb (String.eqb kv.1 field)) result)
            fields data.

(** [prefix ? `${prefix}.${key}` : key] *)
Definition newKey (prefix key : string) : string :=
  if String.eqb prefix "" then key else prefix +:+ "." +:+ key.

(** [flatten(data, prefix)]. [for (const key in data)] runs over the
    properties of an object, the indices of an array and the indices of
    a string, and over nothing for other data; [Object.assign] and the
    assignment both overwrite what the result holds under a key. *)
Fixpoint flatten (data : Json) (prefix : string) : gmap string Json :=
  match data with
  | JObj props =>
      (fix each (props : list (string * Json)) (result : gmap string Json) :=
         match props with
         | [] => result
         | (key, v) :: props' =>
             each props'
               (if isObject v then flatten v (newKey prefix key) ∪ result
                else <[newKey prefix key := v]> result)
         end) props ∅
  | JArr items =>
      (fix each (items : list Json) (i : nat) (result : gmap string Json) :=
         match items with
         | [] => result
         | v :: items' =>
             each items' (S i)
               (if isObject v
                then flatten v (newKey prefix (Js.numberToString (Z.of_nat i)))
                       ∪ result
                else <[newKey prefix (Js.numberToString (Z.of_nat i)) := v]>
                       result)
         end) items 0%nat ∅
  | JStr s =>
      (fix each (s : string) (i : nat) (result : gmap string Json) :=
         match s with
         | EmptyString => result
         | String c s' =>
             each s' (S i)
               (<[newKey prefix (Js.numberToString (Z.of_nat i))
                  := JStr (String c "")]> result)
         end) s 0%nat ∅
  | _ => ∅
  end.

(** The three loops of [flatten], with the recursive call as a
    parameter. *)
Section FlattenLoops.
Variable rec : Json -> string -> gmap string Json.
Variable prefix : string.

Fixpoint eachProp (props : list (string * Json)) (result : gmap string Json)
  : gmap string Json :=
  match props with
  | [] => result
  | (key, v) :: props' =>
      eachProp props'
        (if isObject v then rec v (newKey prefix key) ∪ result
         else <[newKey prefix key := v]> result)
  end.

Fixpoint eachItem (items : list Json) (i : nat) (result : gmap string Json)
  : gmap string Json :=
  match items with
  | [] => result
  | v :: items' =>
      eachItem items' (S i)
        (if isObject v
         then rec v (newKey prefix (Js.numberToString (Z.of_nat i))) ∪ result
         else <[newKey prefix (Js.numberToString (Z.of_nat i)) := v]> result)
  end.

Fixpoint eachChar (s : string) (i : nat) (result : gmap string Json)
  : gmap string Json :=
  match s with
  | EmptyString => result
  | String c s' =>
      eachChar s' (S i)
        (<[newKey prefix (Js.numberToString (Z.of_nat i))
           := JStr (String c "")]> result)
  end.

End FlattenLoops.

(** A flat result under [prefix]: no value is an object or an array,
    and every key starts with the prefix and a dot when there is a
    prefix. *)
Definition flatUnder (prefix : string) (m : gmap string Json) : Prop :=
  map_Forall
    (fun k v => isObject v = false /\
                (prefix <> "" -> exists rest, k = prefix +:+ "." +:+ rest))
    m.

(** The keys of an object that is the result of [normalize]: lower
    case, each once, over values that [normalize] leaves alone. *)
Definition normalProps (props : list (string * Json)) : Prop :=
  NoDup (map fst props) /\
  Forall (fun kv => Js.toLowerCase kv.1 = kv.1 /\ normalize kv.2 = kv.2) props.

End DataTransformer.

(** * EventEmitter

    Handlers are functions and are compared by identity: [Fn id] is a
    function of a client, [Wrapper w id] the closure that the [w]-th
    call of [once] builds around the client's function [id]. A client's
    function is taken to return normally and not to call the emitter,
    and an [emit] runs to its end before the next call on the emitter. *)
Module EventEmitter.

Inductive Handler :=
| Fn (id : nat)
| Wrapper (w : nat) (inner : nat).

#[export] Instance Handler_eq_dec : EqDecision Handler.
Proof. solve_decision. Defined.

(** The emitter: its [listeners] map, and the number of wrappers built
    so far (the identity of the next one). *)
Record Emitter := mkEmitter {
  listeners : gmap string (list Handler);
  wrappers : nat
}.

Definition empty : Emitter := mkEmitter ∅ 0.

(** The array [emit] and [off] work on: [this.listeners.get(event)],
    or nothing. *)
Definition handlersOf (event : string) (e : Emitter) : list Handler :=
  default [] (listeners e !! event).

(** [on(event, handler)] *)
Definition on (event : string) (handler : Handler) (e : Emitter) : Emitter :=
  mkEmitter (<[event := handlersOf event e ++ [handler]]> (listeners e))
            (wrappers e).

(** [handlers.indexOf(handler)] followed by [handlers.splice(index, 1)]
    when the index is not -1. *)
Fixpoint removeFirst (handler : Handler) (handlers : list Handler)
  : list Handler :=
  match handlers with
  | [] => []
  | h :: handlers' =>
      if decide (h = handler) then handlers'
      else h :: removeFirst handler handlers'
  end.

(** [off(event, handler)] *)
Definition off (event : string) (handler : Handler) (e : Emitter) : Emitter :=
  match listeners e !! event with
  | Some handlers =>
      mkEmitter (<[event := removeFirst handler handlers]> (listeners e))
                (wrappers e)
  | None => e
  end.

(** [once(event, handler)] *)
Definition once (event : string) (handler : nat) (e : Emitter) : Emitter :=
  on event (Wrapper (wrappers e) handler)
     (mkEmitter (listeners e) (S (wrappers e))).

(** The [for ... of] loop of [emit] from the index [i] on, over the
    array as it is at each step; [calls] collects the functions of the
    clients in the order they are called. A wrapper calls its function
    and then takes itself off. [fuel] bounds the number of steps. *)
Fixpoint emitLoop (fuel : nat) (event : string) (i : nat) (e : Emitter)
    (calls : list nat) : Emitter * list nat :=
  match fuel with
  | O => (e, calls)
  | S fuel' =>
      match handlersOf event e !! i with
      | None => (e, calls)
      | Some (Fn id) => emitLoop fuel' event (S i) e (calls ++ [id])
      | Some (Wrapper w id) =>
          emitLoop fuel' event (S i) (off event (Wrapper w id) e)
                   (calls ++ [id])
      end
  end.

(** [emit(event, ...args)]; the array never grows, so its length at the
    start is fuel enough. *)
Definition emit (event : string) (e : Emitter) : Emitter * list nat :=
  emitLoop (length (handlersOf event e)) event 0 e [].

(** What one [emit] makes of an array of handlers: the functions it
    calls, and the handlers it leaves. A wrapper is called and removed,
    and the handler that follows it is passed over: it is not called
    and stays. *)
Fixpoint called (handlers : list Handler) : list nat :=
  match handlers with
  | [] => []
  | Fn id :: handlers' => id :: called handlers'
  | Wrapper _ id :: handlers' =>
      id :: match handlers' with
            | [] => []
            | _ :: handlers'' => called handlers''
            end
  end.

Fixpoint kept (handlers : list Handler) : list Handler :=
  match handlers with
  | [] => []
  | Fn id :: handlers' => Fn id :: kept handlers'
  | Wrapper _ _ :: handlers' =>
      match handlers' with
      | [] => []
      | h :: handlers'' => h :: kept handlers''
      end
  end.

(** The identities of the wrappers in an array. *)
Definition wrapperIds (handlers : list Handler) : list nat :=
  omap (fun h => match h with Wrapper w _ => Some w | Fn _ => None end)
       handlers.

(** The calls a client can make. *)
Inductive Op :=
| OpOn (event : string) (handler : nat)
| OpOff (event : string) (handler : nat)
| OpOnce (event : string) (handler : nat)
| OpEmit (event : string).

Definition step (e : Emitter) (op : Op) : Emitter :=
  match op with
  | OpOn event handler => on event (Fn handler) e
  | OpOff event handler => off event (Fn handler) e
  | OpOnce event handler => once event handler e
  | OpEmit event => (emit event e).1
  end.

(** The emitters a client can build. *)
Inductive reachable : Emitter -> Prop :=
| reach_empty : reachable empty
| reach_step e op : reachable e -> reachable (step e op).

(** The emitter with the array of [event] replaced. *)
Definition setHandlers (event : string) (handlers : list Handler)
    (e : Emitter) : Emitter :=
  mkEmitter (<[event := handlers]> (listeners e)) (wrappers e).

(** The functions of an array of client handlers. *)
Definition plain (ids : list nat) : list Handler := map Fn ids.

(** No array holds a wrapper twice, and every wrapper in an array was
    built already. *)
Definition wrappersOnce (e : Emitter) : Prop :=
  forall event handlers, listeners e !! event = Some handlers ->
    NoDup (wrapperIds handlers) /\
    Forall (fun w => (w < wrappers e)%nat) (wrapperIds handlers).

End EventEmitter.

(** * retry *)
Module Retry.

Section Retry.

(** The world the operation acts on, its results, and the values it
    throws: the source casts what it catches to [Error], but any value
    can be thrown. *)
Variables (W T E : Type).

(** [new Error(msg)] *)
Variable newError : string -> E.

(** Is a thrown value truthy? An [Error] object is; [undefined],
    [null], [''] and [0] are not. *)
Variable truthy : E -> bool.

(** [fn]: one invocation, from the world before to the way it settles
    and the world after. *)
Variable fn : W -> Completion E T * W.

(** [maxAttempts] is a count and is kept in [nat]. *)
Record RetryOptions := mkOptions {
  maxAttempts : option nat;
  delay : option Q;            (* milliseconds *)
  backoff : option Q;
  onRetry : bool               (* is an observer supplied *)
}.

(** What a [retry] call does, in order: invocations of [fn], calls of
    the [onRetry] observer (taken to return normally) and sleeps. *)
Inductive Event :=
| Invoke (attempt : nat)
| OnRetry (attempt : nat) (error : E)
| Sleep (ms : Q).

(** [options.maxAttempts || 3] *)
Definition effectiveMaxAttempts (o : RetryOptions) : nat :=
  match maxAttempts o with
  | Some (S n) => S n
  | _ => 3%nat
  end.

(** [options.delay || 1000] *)
Definition effectiveDelay (o : RetryOptions) : Q :=
  match delay o with Some d => js_or d 1000 | None => 1000 end.

(** [options.backoff || 1] *)
Definition effectiveBackoff (o : RetryOptions) : Q :=
  match backoff o with Some b => js_or b 1 | None => 1 end.

(** [delay * Math.pow(backoff, attempt - 1)] *)
Definition sleepTime (o : RetryOptions) (attempt : nat) : Q :=
  (effectiveDelay o * effectiveBackoff o ^ (Z.of_nat attempt - 1))%Q.

(** [options.onRetry?.(attempt, lastError)] *)
Definition notify (o : RetryOptions) (attempt : nat) (error : E)
  : list Event :=
  if onRetry o then [OnRetry attempt error] else [].

(** [throw lastError || new Error('Max retries exceeded')];
    [lastError] is [null] ([None]) until an attempt has failed, and a
    falsy value caught from an attempt gives way to the new error as
    [null] does. *)
Definition throwLast (lastError : option E) : Completion E T :=
  match lastError with
  | Some error =>
      if truthy error then Thrown error
      else Thrown (newError "Max retries exceeded")
  | None => Thrown (newError "Max retries exceeded")
  end.

(** The [for] loop from the iteration numbered [attempt] on, followed
    by the final [throw]; [remaining] is the number of iterations the
    loop condition [attempt <= maxAttempts] still admits. *)
Fixpoint loop (o : RetryOptions) (remaining attempt : nat)
    (lastError : option E) (w : W)
  : Completion E T * W * list Event :=
  match remaining with
  | O => (throwLast lastError, w, [])
  | S remaining' =>
      match fn w with
      | (Returned v, w') => (Returned v, w', [Invoke attempt])
      | (Thrown error, w') =>
          if (attempt =? effectiveMaxAttempts o)%nat
          then (throwLast (Some error), w', [Invoke attempt])
          else
            let '(r, w'', events) :=
              loop o remaining' (S attempt) (Some error) w' in
            (r, w'',
             Invoke attempt :: notify o attempt error
               ++ Sleep (sleepTime o attempt) :: events)
      end
  end.

(** [retry(fn, options)] *)
Definition retry (o : RetryOptions) (w : W)
  : Completion E T * W * list Event :=
  loop o (effectiveMaxAttempts o) 1%nat None w.

(** The number of times [fn] was invoked. *)
Definition invocations (events : list Event) : nat :=
  length (List.filter (fun e => match e with Invoke _ => true | _ => false end)
                      events).

(** The world before the invocation numbered [k + 1], were the first
    [k] all to be made. *)
Fixpoint worldAt (k : nat) (w : W) : W :=
  match k with
  | O => w
  | S k' => (fn (worldAt k' w)).2
  end.

(** The invocation numbered [k] (from 1) throws [e]. *)
Definition failsWith (w : W) (k : nat) (e : E) : Prop :=
  (fn (worldAt (k - 1) w)).1 = Thrown e.

(** What a run of failed attempts leaves in the trace: each is
    invoked, reported to the observer if there is one, and slept
    after. *)
Fixpoint failedRounds (o : RetryOptions) (errs : list E) (attempt : nat)
  : list Event :=
  match errs with
  | [] => []
  | e :: errs' =>
      Invoke attempt :: notify o attempt e
        ++ Sleep (sleepTime o attempt) :: failedRounds o errs' (S attempt)
  end.

End Retry.

Arguments Invoke {E} attempt.
Arguments OnRetry {E} attempt error.
Arguments Sleep {E} ms.

End Retry.

(** * Properties *)

(** ** Comparisons on rationals *)

Lemma Qgtb_true (a b : Q) : Qgtb a b = true <-> (b < a)%Q.
Proof.
  unfold Qgtb. rewrite negb_true_iff.
  destruct (Qle_bool a b) eqn:E.
  - apply Qle_bool_iff in E. split; [discriminate | intros H; lra].
  - split; [intros _ | reflexivity].
    destruct (Qlt_le_dec b a) as [|H]; [assumption|].
    apply Qle_bool_iff in H. congruence.
Qed.

Lemma Qgtb_false (a b : Q) : Qgtb a b = false <-> (a <= b)%Q.
Proof.
  unfold Qgtb. rewrite negb_false_iff. apply Qle_bool_iff.
Qed.

Lemma Qle_bool_false (a b : Q) : Qle_bool a b = false <-> (b < a)%Q.
Proof.
  rewrite <- Qgtb_true. unfold Qgtb. now rewrite negb_true_iff.
Qed.

Lemma js_or_nonzero (a b : Q) : ~ (a == 0)%Q -> js_or a b = a.
Proof.
  intros H. unfold js_or. destruct (Qeq_bool a 0) eqn:E; [|reflexivity].
  apply Qeq_bool_iff in E. contradiction.
Qed.

Lemma js_or_zero (a b : Q) : (a == 0)%Q -> js_or a b = b.
Proof.
  intros H. unfold js_or. apply Qeq_bool_iff in H. now rewrite H.
Qed.

(** ** BaseProviderService *)
Section ProviderFacts.
Import Provider.
Local Open Scope Q_scope.

(** The base quantity of a known unit: grams and millilitres as they
    are, kilograms and litres a thousandfold. *)
Lemma normalizeQuantity_spec (q : Q) (u : string) :
  normalizeQuantity q u ==
    if (String.eqb u "kg" || String.eqb u "l")%bool then q * 1000 else q.
Proof.
  unfold normalizeQuantity, unitMap.
  assert (Hk : forall x : Q, x == q * 1000 -> js_or x q == q * 1000).
  { intros x Hx. unfold js_or. destruct (Qeq_bool x 0) eqn:E; [|exact Hx].
    apply Qeq_bool_iff in E. lra. }
  assert (Hq : js_or q q == q) by (unfold js_or; destruct Qeq_bool; reflexivity).
  destruct (String.eqb_spec u "g") as [->|]; [exact Hq|].
  destruct (String.eqb_spec u "ml") as [->|]; [exact Hq|].
  destruct (String.eqb_spec u "kg") as [->|]; [now apply Hk|].
  destruct (String.eqb_spec u "l") as [->|]; [now apply Hk|].
  destruct (String.eqb u "pieces"); [exact Hq|reflexivity].
Qed.

Example normalize_500_g : normalizeQuantity 500 "g" == 500.
Proof. reflexivity. Qed.

Example normalize_1_kg : normalizeQuantity 1 "kg" == 1000.
Proof. reflexivity. Qed.

Example price_100_for_500_g : calculatePricePerUnit 100 500 "g" == 20.
Proof. reflexivity. Qed.

(** X2: for a positive quantity in grams or millilitres the price per
    unit is the price per 100 base units. *)
Lemma calculatePricePerUnit_g_ml (p q : Q) (u : string) :
  per100 u = true -> 0 < q ->
  calculatePricePerUnit p q u == specPricePer100 p q u.
Proof.
  intros Hu Hq. unfold calculatePricePerUnit, specPricePer100. rewrite Hu.
  assert (Hn : normalizeQuantity q u == q).
  { rewrite normalizeQuantity_spec. unfold per100 in Hu.
    destruct (String.eqb_spec u "ml") as [Hml|Hml]; [subst u; reflexivity|].
    destruct (String.eqb_spec u "g") as [Hg|Hg]; [subst u; reflexivity|].
    discriminate. }
  destruct (Qgtb (normalizeQuantity q u / 100) 0) eqn:E; [reflexivity|].
  apply Qgtb_false in E. rewrite Hn in E.
  assert (q / 100 == q * (1 # 100)) by (unfold Qdiv; reflexivity). lra.
Qed.

(** Every other unit, kilograms and litres included, is priced per
    unit of the quantity as given. *)
Lemma calculatePricePerUnit_other (p q : Q) (u : string) :
  per100 u = false -> 0 < q -> calculatePricePerUnit p q u == p / q.
Proof.
  intros Hu Hq. unfold calculatePricePerUnit. rewrite Hu.
  destruct (Qgtb q 0) eqn:E; [reflexivity|].
  apply Qgtb_false in E. lra.
Qed.

(** A divisor that is not positive gives 0. *)
Lemma calculatePricePerUnit_nonpositive (p q : Q) (u : string) :
  q <= 0 -> calculatePricePerUnit p q u == 0.
Proof.
  intros Hq. unfold calculatePricePerUnit.
  assert (Hn : normalizeQuantity q u / 100 <= 0).
  { rewrite normalizeQuantity_spec.
    assert (H1 : q * 1000 / 100 == q * 10) by field.
    assert (H2 : q / 100 == q * (1 # 100)) by (unfold Qdiv; reflexivity).
    destruct (_ || _)%bool; lra. }
  destruct (per100 u).
  - destruct (Qgtb _ 0) eqn:E; [|reflexivity]. apply Qgtb_true in E. lra.
  - destruct (Qgtb _ 0) eqn:E; [|reflexivity]. apply Qgtb_true in E. lra.
Qed.

(** C3 (the code departs from it): one kilogram at 100 has base quantity
    1000, so its price per 100 base units is 10, but
    [calculatePricePerUnit] divides by the quantity as given and
    reports 100; the same holds for litres. *)
Theorem calculatePricePerUnit_kg_l_not_per_100 :
  normalizeQuantity 1 "kg" == 1000 /\
  specPricePer100 100 1 "kg" == 10 /\
  calculatePricePerUnit 100 1 "kg" == 100 /\
  specPricePer100 100 1 "l" == 10 /\
  calculatePricePerUnit 100 1 "l" == 100.
Proof. repeat split. Qed.

End ProviderFacts.

Lemma calculatePricePerUnit_g_ml_witness :
  Provider.per100 "g" = true /\ (0 < 500)%Q /\
  (Provider.calculatePricePerUnit 100 500 "g"
   == Provider.specPricePer100 100 500 "g")%Q.
Proof.
  assert (Hu : Provider.per100 "g" = true) by reflexivity.
  assert (Hq : (0 < 500)%Q) by reflexivity.
  split; [exact Hu|]. split; [exact Hq|].
  exact (calculatePricePerUnit_g_ml 100 500 "g" Hu Hq).
Defined.

(** ** aggregatorService.searchAll *)
Section AggregatorFacts.
Import Aggregator.

Variable parseInt : string -> option Z.

Lemma insertSorted_perm (x : PriceComparison) (l : list PriceComparison) :
  Permutation (insertSorted x l) (x :: l).
Proof.
  induction l as [|y l IH]; simpl; [reflexivity|].
  destruct (Qle_bool _ _); [reflexivity|].
  rewrite IH. apply perm_swap.
Qed.

Lemma sortByEffectivePrice_perm (l : list PriceComparison) :
  Permutation (sortByEffectivePrice l) l.
Proof.
  induction l as [|x l IH]; simpl; [reflexivity|].
  rewrite insertSorted_perm. now rewrite IH.
Qed.

Lemma insertSorted_sorted (x : PriceComparison) (l : list PriceComparison) :
  StronglySorted cheaperOrEqual l ->
  StronglySorted cheaperOrEqual (insertSorted x l).
Proof.
  induction 1 as [|y l Hs IH Hy]; simpl.
  - repeat constructor.
  - destruct (Qle_bool (effectivePrice x) (effectivePrice y)) eqn:E.
    + apply Qle_bool_iff in E. constructor; [now constructor|].
      constructor; [exact E|].
      eapply Forall_impl; [exact Hy|].
      intros z Hz. unfold cheaperOrEqual in *. lra.
    + apply Qle_bool_false in E. constructor; [exact IH|].
      rewrite insertSorted_perm. constructor; [|exact Hy].
      unfold cheaperOrEqual. lra.
Qed.

Lemma sortByEffectivePrice_sorted (l : list PriceComparison) :
  StronglySorted cheaperOrEqual (sortByEffectivePrice l).
Proof.
  induction l as [|x l IH]; simpl; [constructor|].
  now apply insertSorted_sorted.
Qed.

(** The sort is stable: quotes of equal effective price keep the order
    they were merged in. *)
Lemma insertSorted_stable (x : PriceComparison) (l : list PriceComparison)
    (c : Q) :
  List.filter (fun y => Qeq_bool (effectivePrice y) c) (insertSorted x l) =
  List.filter (fun y => Qeq_bool (effectivePrice y) c) (x :: l).
Proof.
  induction l as [|y l IH]; [reflexivity|].
  cbn [insertSorted].
  destruct (Qle_bool (effectivePrice x) (effectivePrice y)) eqn:E;
    [reflexivity|].
  apply Qle_bool_false in E.
  cbn [List.filter] in *. rewrite IH.
  destruct (Qeq_bool (effectivePrice x) c) eqn:Ex;
    destruct (Qeq_bool (effectivePrice y) c) eqn:Ey; try reflexivity.
  apply Qeq_bool_iff in Ex, Ey. lra.
Qed.

Lemma sortByEffectivePrice_stable (l : list PriceComparison) (c : Q) :
  List.filter (fun y => Qeq_bool (effectivePrice y) c)
              (sortByEffectivePrice l) =
  List.filter (fun y => Qeq_bool (effectivePrice y) c) l.
Proof.
  induction l as [|x l IH]; [reflexivity|].
  cbn [sortByEffectivePrice fold_right].
  rewrite insertSorted_stable. cbn [List.filter].
  fold (sortByEffectivePrice l). now rewrite IH.
Qed.

Lemma sortByEffectivePrice_nil (l : list PriceComparison) :
  sortByEffectivePrice l = [] <-> l = [].
Proof.
  split; [|intros ->; reflexivity].
  intros H. apply Permutation_nil.
  rewrite <- H. apply sortByEffectivePrice_perm.
Qed.

Lemma unbadged_markCheapest (x : PriceComparison) :
  unbadged (markCheapest x) = unbadged x.
Proof. reflexivity. Qed.

Lemma unbadged_markFastest (x : PriceComparison) :
  unbadged (markFastest x) = unbadged x.
Proof. reflexivity. Qed.

Lemma unbadged_alter (f : PriceComparison -> PriceComparison) (i : nat)
    (l : list PriceComparison) :
  (forall x, unbadged (f x) = unbadged x) ->
  unbadged <$> alter f i l = unbadged <$> l.
Proof.
  intros Hf. revert i.
  induction l as [|x l IH]; intros [|i]; simpl; try reflexivity.
  - now rewrite Hf.
  - f_equal. apply IH.
Qed.

(** With an empty merged array the reduce throws. *)
Lemma searchAll_empty_throws (query : string) (lat lng : Q)
    (providers : list ProviderGateway) :
  mergeFulfilled (map (fun p => p query lat lng) providers) = [] ->
  searchAll parseInt query lat lng providers =
    Thrown (TypeError "Reduce of empty array with no initial value").
Proof.
  intros H. unfold searchAll. rewrite H. reflexivity.
Qed.

Lemma filter_price_unbadged (l : list PriceComparison) (c : Q) :
  List.filter (fun y => Qeq_bool (effectivePrice y) c) (unbadged <$> l)
  = unbadged <$> List.filter (fun y => Qeq_bool (effectivePrice y) c) l.
Proof.
  induction l as [|x l IH]; [reflexivity|].
  cbn [fmap list_fmap List.filter] in *.
  change (effectivePrice (unbadged x)) with (effectivePrice x).
  destruct (Qeq_bool (effectivePrice x) c); cbn [fmap list_fmap];
    now rewrite IH.
Qed.


Example parseInt_eta :
  Js.parseInt "15-20 min" = Some 15 /\ Js.parseInt "30 min" = Some 30 /\
  Js.parseInt "soon" = None /\ Js.parseInt " -7" = Some (-7) /\
  Js.parseInt "0x1f" = Some 31.
Proof. repeat split. Qed.

(** C1 (the code departs from it): when every provider fails, or the
    only provider that succeeds has no quote, the merged array is empty
    and [searchAll] throws a [TypeError] where the specification asks
    for an empty list. *)
Theorem searchAll_all_fail_throws (query : string) (lat lng : Q)
    (reason : string) :
  searchAll parseInt query lat lng [fun _ _ _ => Rejected reason] =
    Thrown (TypeError "Reduce of empty array with no initial value") /\
  searchAll parseInt query lat lng
    [fun _ _ _ => Rejected reason; fun _ _ _ => Fulfilled []] =
    Thrown (TypeError "Reduce of empty array with no initial value").
Proof. split; reflexivity. Qed.

(** C2 (the code departs from it): whenever the merged result set is
    empty the selection of the fastest quote is still attempted, as a
    reduce without initial value over the empty array, and [searchAll]
    fails with a [TypeError] instead of returning the empty list. *)
Theorem searchAll_empty_not_guarded (query : string) (lat lng : Q)
    (providers : list ProviderGateway) :
  mergeFulfilled (map (fun p => p query lat lng) providers) = [] ->
  reduce (pickFaster parseInt) (withIndex []) = None /\
  searchAll parseInt query lat lng providers =
    Thrown (TypeError "Reduce of empty array with no initial value") /\
  searchAll parseInt query lat lng providers <> Returned [].
Proof.
  intros H. rewrite (searchAll_empty_throws _ _ _ _ H).
  repeat split. discriminate.
Qed.

End AggregatorFacts.

(** The route handlers call [searchAll] with [providers = []]. *)
Lemma searchAll_empty_not_guarded_witness :
  Aggregator.mergeFulfilled (map (fun p => p "butter" 28%Q 77%Q) []) = [] /\
  Aggregator.searchAll (fun _ => None) "butter" 28 77 [] =
    Thrown (Aggregator.TypeError "Reduce of empty array with no initial value").
Proof.
  split; [reflexivity|].
  apply (searchAll_empty_not_guarded (fun _ => None) "butter" 28 77 []).
  reflexivity.
Defined.

(** The end-to-end case, with a third provider that fails: ordered
    [245, 255], the first marked cheapest, the second fastest. *)
Example searchAll_butter :
  Aggregator.searchAll Js.parseInt "Amul Butter 500g" 28 77
    [ (fun _ _ _ => Aggregator.Fulfilled [Aggregator.zeptoButter]);
      (fun _ _ _ => Aggregator.Rejected "timeout");
      (fun _ _ _ => Aggregator.Fulfilled [Aggregator.blinkitButter]) ]
  = Returned [ Aggregator.markCheapest Aggregator.blinkitButter;
               Aggregator.markFastest Aggregator.zeptoButter ].
Proof. reflexivity. Qed.


(** ** CircuitBreaker *)
Section BreakerFacts.
Import CircuitBreaker.

Ltac breaker_unfold :=
  unfold step, isOpen, recordSuccess, recordFailure, open, halfOpen, close, reset,
    initial, failureThreshold, successThreshold, timeout in *;
  simpl in *.

Lemma breaker_inv_step (s : CircuitState) (op : Op) :
  breaker_inv s -> breaker_inv (step s op).
Proof.
  unfold breaker_inv. destruct s as [st f t c], op as [now| |now now'|];
    breaker_unfold; intros H.
  - destruct st; simpl; try exact H.
    destruct (now - t >? 60000); simpl; lia.
  - destruct st; simpl; try exact H.
    destruct (Z.geb_spec (c + 1) 2); simpl; lia.
  - destruct (Z.geb_spec (f + 1) 5); simpl; [lia|].
    destruct st; simpl; lia.
  - exact I.
Qed.

Lemma reachable_inv (s : CircuitState) : reachable s -> breaker_inv s.
Proof.
  induction 1 as [|s op _ IH]; [exact I|].
  now apply breaker_inv_step.
Qed.

(** Fewer failures than the threshold leave a closed breaker closed,
    and count. *)
Lemma recordFailures_below (ts : list (Z * Z)) (s : CircuitState) :
  status s = CLOSED ->
  failures s + Z.of_nat (length ts) < failureThreshold ->
  status (recordFailures ts s) = CLOSED /\
  failures (recordFailures ts s) = failures s + Z.of_nat (length ts).
Proof.
  revert s. induction ts as [|t ts IH]; intros s Hs Hf.
  - simpl. split; [exact Hs|lia].
  - cbn [recordFailures fold_left]. fold (recordFailures ts (recordFailure t.1 t.2 s)).
    cbn [length] in Hf. rewrite Nat2Z.inj_succ in Hf.
    assert (H1 : status (recordFailure t.1 t.2 s) = CLOSED /\
                 failures (recordFailure t.1 t.2 s) = failures s + 1).
    { destruct s as [st f lt c]. breaker_unfold.
      destruct (Z.geb_spec (f + 1) 5); simpl; [exfalso; lia|]. now split. }
    destruct H1 as [H1 H2].
    destruct (IH (recordFailure t.1 t.2 s) H1) as [H3 H4];
      [rewrite H2; unfold failureThreshold in *; lia|].
    split; [exact H3|]. rewrite H4, H2. cbn [length].
    rewrite Nat2Z.inj_succ. lia.
Qed.

Lemma recordFailures_snoc (ts : list (Z * Z)) (t : Z * Z) (s : CircuitState) :
  recordFailures (ts ++ [t]) s = recordFailure t.1 t.2 (recordFailures ts s).
Proof. unfold recordFailures. now rewrite fold_left_app. Qed.

(** The failure that reaches the threshold opens the breaker and stamps
    it with the reading taken by [open()]. *)
Lemma recordFailures_threshold (ts : list (Z * Z)) (t : Z * Z)
    (s : CircuitState) :
  status s = CLOSED -> failures s = 0 ->
  Z.of_nat (length ts) = failureThreshold - 1 ->
  recordFailures (ts ++ [t]) s =
    mkState OPEN failureThreshold t.2 (successCount s).
Proof.
  intros Hs Hf Hl. rewrite recordFailures_snoc.
  destruct (recordFailures_below ts s Hs) as [H1 H2].
  { rewrite Hf, Hl. unfold failureThreshold. lia. }
  assert (H3 : successCount (recordFailures ts s) = successCount s).
  { clear. revert s. induction ts as [|a ts IH]; intros s; [reflexivity|].
    cbn [recordFailures fold_left]. fold (recordFailures ts (recordFailure a.1 a.2 s)).
    rewrite IH. destruct s as [st f lt c]. breaker_unfold.
    now destruct (f + 1 >=? 5). }
  destruct (recordFailures ts s) as [st f lt c]. simpl in *. subst.
  unfold recordFailure, open. simpl. rewrite Hf, Hl. reflexivity.
Qed.

Lemma isOpen_within_timeout (now : Z) (s : CircuitState) :
  status s = OPEN -> now - lastFailureTime s <= timeout ->
  isOpen now s = (true, s).
Proof.
  intros Hs Ht. unfold isOpen. rewrite Hs.
  destruct (Z.gtb_spec (now - lastFailureTime s) timeout); [lia|reflexivity].
Qed.

Lemma isOpen_after_timeout (now : Z) (s : CircuitState) :
  status s = OPEN -> timeout < now - lastFailureTime s ->
  isOpen now s = (false, halfOpen s).
Proof.
  intros Hs Ht. unfold isOpen. rewrite Hs.
  destruct (Z.gtb_spec (now - lastFailureTime s) timeout); [reflexivity|lia].
Qed.

Lemma isOpen_not_open (now : Z) (s : CircuitState) :
  status s <> OPEN -> isOpen now s = (false, s).
Proof. intros Hs. unfold isOpen. now destruct (status s). Qed.

(** Two successes close a breaker that has just gone half-open; one is
    not enough. *)
Lemma halfOpen_two_successes (s : CircuitState) :
  status s = HALF_OPEN -> successCount s = 0 ->
  status (recordSuccess s) = HALF_OPEN /\
  recordSuccess (recordSuccess s) = mkState CLOSED 0 (lastFailureTime s) 0.
Proof.
  destruct s as [st f lt c]. simpl. intros -> ->. now breaker_unfold.
Qed.

(** A failure reopens any half-open breaker that can arise. *)
Lemma halfOpen_failure_opens (now now' : Z) (s : CircuitState) :
  reachable s -> status s = HALF_OPEN ->
  recordFailure now now' s =
    mkState OPEN (failures s + 1) now' (successCount s).
Proof.
  intros Hr Hs. apply reachable_inv in Hr. unfold breaker_inv in Hr.
  rewrite Hs in Hr. destruct Hr as [Hf _].
  destruct s as [st f lt c]. breaker_unfold.
  destruct (Z.geb_spec (f + 1) 5); [reflexivity|lia].
Qed.

(** C4: from a closed breaker with no failure counted, fewer than five
    consecutive failures leave it closed and [isOpen] false, the fifth
    opens it and [isOpen] is true while no more than the timeout has
    passed since the last failure; the first [isOpen] more than 60 s
    after it answers false and leaves the breaker half-open; there two
    successes in a row close it (one does not) and a single failure
    opens it again. *)
Theorem breaker_lifecycle (s0 : CircuitState) (ts : list (Z * Z))
    (t5 : Z * Z) (now : Z) :
  reachable s0 -> status s0 = CLOSED -> failures s0 = 0 ->
  length ts = 4%nat ->
  let s4 := recordFailures ts s0 in
  let s5 := recordFailures (ts ++ [t5]) s0 in
  (forall k t, (k <= 4)%nat ->
     isOpen t (recordFailures (take k ts) s0) =
       (false, recordFailures (take k ts) s0)) /\
  status s4 = CLOSED /\
  status s5 = OPEN /\ lastFailureTime s5 = t5.2 /\
  (now - lastFailureTime s5 <= timeout -> isOpen now s5 = (true, s5)) /\
  (timeout < now - lastFailureTime s5 ->
     let h := (isOpen now s5).2 in
     (isOpen now s5).1 = false /\
     status h = HALF_OPEN /\
     status (recordSuccess h) = HALF_OPEN /\
     status (recordSuccess (recordSuccess h)) = CLOSED /\
     forall t t', status (recordFailure t t' h) = OPEN).
Proof.
  intros Hr Hs Hf Hl s4 s5.
  assert (E5 : s5 = mkState OPEN failureThreshold t5.2 (successCount s0)).
  { apply recordFailures_threshold; try assumption. rewrite Hl. reflexivity. }
  assert (R5 : reachable s5).
  { subst s5. clear -Hr. unfold recordFailures. rewrite fold_left_app. simpl.
    apply (reach_step _ (OpRecordFailure t5.1 t5.2)).
    revert s0 Hr. induction ts as [|a l IH]; intros s0 Hr; [exact Hr|].
    simpl. apply IH. apply (reach_step _ (OpRecordFailure a.1 a.2)), Hr. }
  split; [|split; [|split; [|split; [|split]]]].
  - intros k t Hk. apply isOpen_not_open.
    destruct (recordFailures_below (take k ts) s0 Hs) as [H1 _].
    + rewrite Hf, length_take. unfold failureThreshold. lia.
    + rewrite H1. discriminate.
  - apply recordFailures_below; [exact Hs|].
    rewrite Hf, Hl. unfold failureThreshold. lia.
  - now rewrite E5.
  - now rewrite E5.
  - intros Ht. apply isOpen_within_timeout; [now rewrite E5|exact Ht].
  - intros Ht h. subst h.
    rewrite (isOpen_after_timeout now s5) by (try exact Ht; now rewrite E5).
    cbn [fst snd].
    assert (Rh : reachable (halfOpen s5)).
    { replace (halfOpen s5) with (step s5 (OpIsOpen now)).
      - now apply reach_step.
      - simpl. rewrite isOpen_after_timeout; [reflexivity| |exact Ht].
        now rewrite E5. }
    destruct (halfOpen_two_successes (halfOpen s5)) as [H1 H2];
      [reflexivity|reflexivity|].
    split; [reflexivity|]. split; [reflexivity|]. split; [exact H1|].
    split; [now rewrite H2|].
    intros t t'. now rewrite halfOpen_failure_opens.
Qed.

(** X4: whatever calls led there, a single failure opens a half-open
    breaker and two successes close it. *)
Lemma halfOpen_exits (s : CircuitState) :
  reachable s -> status s = HALF_OPEN ->
  (forall t t', status (recordFailure t t' s) = OPEN) /\
  status (recordSuccess (recordSuccess s)) = CLOSED.
Proof.
  intros Hr Hs. split.
  - intros t t'. now rewrite halfOpen_failure_opens.
  - apply reachable_inv in Hr. unfold breaker_inv in Hr. rewrite Hs in Hr.
    destruct s as [st f lt c]. breaker_unfold. subst st.
    destruct (Z.geb_spec (c + 1) 2); simpl; [reflexivity|].
    destruct (Z.geb_spec (c + 1 + 1) 2); simpl; [reflexivity|lia].
Qed.

End BreakerFacts.

Lemma halfOpen_exits_witness :
  CircuitBreaker.status
    (CircuitBreaker.recordFailure 70000 70000
       (CircuitBreaker.mkState CircuitBreaker.HALF_OPEN 5 5 0))
    = CircuitBreaker.OPEN /\
  CircuitBreaker.status
    (CircuitBreaker.recordSuccess
       (CircuitBreaker.recordSuccess
          (CircuitBreaker.mkState CircuitBreaker.HALF_OPEN 5 5 0)))
    = CircuitBreaker.CLOSED.
Proof.
  assert (Hr : CircuitBreaker.reachable
                 (CircuitBreaker.mkState CircuitBreaker.HALF_OPEN 5 5 0)).
  { exact (CircuitBreaker.reach_step _ (CircuitBreaker.OpIsOpen 60006)
            (CircuitBreaker.reach_step _ (CircuitBreaker.OpRecordFailure 5 5)
            (CircuitBreaker.reach_step _ (CircuitBreaker.OpRecordFailure 4 4)
            (CircuitBreaker.reach_step _ (CircuitBreaker.OpRecordFailure 3 3)
            (CircuitBreaker.reach_step _ (CircuitBreaker.OpRecordFailure 2 2)
            (CircuitBreaker.reach_step _ (CircuitBreaker.OpRecordFailure 1 1)
               CircuitBreaker.reach_initial)))))). }
  destruct (halfOpen_exits _ Hr eq_refl) as [Hf Hs].
  split; [apply Hf|exact Hs].
Defined.

Lemma breaker_lifecycle_witness :
  CircuitBreaker.status
    (CircuitBreaker.recordFailures
       [(1, 1); (2, 2); (3, 3); (4, 4); (5, 5)] CircuitBreaker.initial)
    = CircuitBreaker.OPEN /\
  CircuitBreaker.isOpen 60005
    (CircuitBreaker.recordFailures
       [(1, 1); (2, 2); (3, 3); (4, 4); (5, 5)] CircuitBreaker.initial)
    = (true, CircuitBreaker.mkState CircuitBreaker.OPEN 5 5 0) /\
  CircuitBreaker.isOpen 60006
    (CircuitBreaker.recordFailures
       [(1, 1); (2, 2); (3, 3); (4, 4); (5, 5)] CircuitBreaker.initial)
    = (false, CircuitBreaker.mkState CircuitBreaker.HALF_OPEN 5 5 0).
Proof.
  pose proof (breaker_lifecycle CircuitBreaker.initial
                [(1, 1); (2, 2); (3, 3); (4, 4)] (5, 5) 60005
                CircuitBreaker.reach_initial eq_refl eq_refl eq_refl) as H.
  cbv zeta in H. destruct H as (_ & _ & H3 & _ & H5 & _).
  split; [exact H3|]. split; [apply H5; vm_compute; discriminate|reflexivity].
Defined.

(** ** RateLimiter *)
Section LimiterFacts.
Import RateLimiter.
Local Open Scope Q_scope.

Lemma tokensToAdd_nonneg (dt : Z) :
  (0 <= dt)%Z -> 0 <= inject_Z dt / refillInterval * refillRate.
Proof.
  intros H. unfold refillInterval, refillRate.
  assert (E : inject_Z dt / 1000 * 10 == inject_Z dt * (1 # 100)) by field.
  rewrite E. rewrite Zle_Qle in H. change (inject_Z 0) with 0 in H. lra.
Qed.

Lemma tokensToAdd_zero : inject_Z 0 / refillInterval * refillRate == 0.
Proof. reflexivity. Qed.

(** The refill is the clamped sum of the specification. *)
Lemma refillBucket_spec (now : Z) (b : BucketState) :
  tokens (refillBucket now b) =
    Qmin capacity
      (tokens b
       + inject_Z (now - lastRefillTime b) / refillInterval * refillRate) /\
  lastRefillTime (refillBucket now b) = now.
Proof. split; reflexivity. Qed.

Lemma refillBucket_le_capacity (now : Z) (b : BucketState) :
  tokens (refillBucket now b) <= capacity.
Proof. simpl. apply Q.le_min_l. Qed.

(** With no time passed a bucket within capacity keeps its tokens. *)
Lemma refillBucket_no_time (b : BucketState) :
  tokens b <= capacity ->
  tokens (refillBucket (lastRefillTime b) b) == tokens b.
Proof.
  intros H. simpl. rewrite Z.sub_diag, tokensToAdd_zero, Qplus_0_r.
  now apply Q.min_r.
Qed.

(** With the clock not behind the last refill, a refill does not take
    tokens away. *)
Lemma refillBucket_nonneg (now : Z) (b : BucketState) :
  (lastRefillTime b <= now)%Z -> 0 <= tokens b ->
  0 <= tokens (refillBucket now b).
Proof.
  intros Ht Hb. simpl.
  pose proof (tokensToAdd_nonneg (now - lastRefillTime b) ltac:(lia)) as Ha.
  apply Q.min_glb; [unfold capacity; lra | lra].
Qed.

(** [allowRequest] by cases on the refilled bucket. *)
Lemma allowRequest_spec (clientId : string) (created now : Z)
    (buckets : gmap string BucketState) :
  let b := refillBucket now (bucketOf clientId created buckets) in
  (1 <= tokens b ->
     allowRequest clientId created now buckets =
       (true, <[clientId := mkBucket (tokens b - 1) now]> buckets)) /\
  (tokens b < 1 ->
     allowRequest clientId created now buckets =
       (false, <[clientId := b]> buckets)).
Proof.
  intros b. unfold allowRequest. fold b. split; intros H.
  - apply Qle_bool_iff in H. now rewrite H.
  - apply Qle_bool_false in H. now rewrite H.
Qed.

Lemma bucketOf_insert (clientId : string) (created : Z) (b : BucketState)
    (buckets : gmap string BucketState) :
  bucketOf clientId created (<[clientId := b]> buckets) = b.
Proof. unfold bucketOf. now rewrite lookup_insert_eq. Qed.

(** [n] calls with no time passing, on a bucket that holds [m >= n]
    whole tokens: all allowed, [m - n] left. *)
Lemma allowRequests_immediate (clientId : string) (t : Z) (n : nat) :
  forall (m : Z) (buckets : gmap string BucketState),
  lastRefillTime (bucketOf clientId t buckets) = t ->
  tokens (bucketOf clientId t buckets) == inject_Z m ->
  (Z.of_nat n <= m <= 100)%Z ->
  let r := allowRequests clientId (replicate n (t, t)) buckets in
  r.1 = replicate n true /\
  lastRefillTime (bucketOf clientId t r.2) = t /\
  tokens (bucketOf clientId t r.2) == inject_Z (m - Z.of_nat n).
Proof.
  induction n as [|n IH]; intros m buckets Ht Hm Hn.
  - simpl. split; [reflexivity|]. split; [exact Ht|].
    now rewrite Z.sub_0_r.
  - cbn [replicate allowRequests fst snd].
    set (b := refillBucket t (bucketOf clientId t buckets)).
    assert (Hb : tokens b == inject_Z m).
    { subst b. rewrite <- Ht at 1. rewrite refillBucket_no_time; [exact Hm|].
      rewrite Hm. unfold capacity. change 100 with (inject_Z 100).
      rewrite <- Zle_Qle. lia. }
    assert (H1 : 1 <= tokens b).
    { rewrite Hb. change 1 with (inject_Z 1). rewrite <- Zle_Qle. lia. }
    destruct (allowRequest_spec clientId t t buckets) as [Hok _].
    fold b in Hok. rewrite (Hok H1).
    specialize (IH (m - 1)%Z
                  (<[clientId := mkBucket (tokens b - 1) t]> buckets)).
    rewrite bucketOf_insert in IH. cbn [tokens lastRefillTime] in IH.
    destruct IH as (I1 & I2 & I3); [reflexivity| |lia|].
    { rewrite Hb. unfold Zminus. rewrite inject_Z_plus. reflexivity. }
    destruct (allowRequests clientId (replicate n (t, t)) _) as [oks bs].
    cbn [fst snd] in *. split; [now rewrite I1|]. split; [exact I2|].
    rewrite I3. now replace (m - 1 - Z.of_nat n)%Z with (m - Z.of_nat (S n))%Z by lia.
Qed.

Lemma allowRequests_app (clientId : string) (c1 c2 : list (Z * Z))
    (buckets : gmap string BucketState) :
  allowRequests clientId (c1 ++ c2) buckets =
    let r1 := allowRequests clientId c1 buckets in
    let r2 := allowRequests clientId c2 r1.2 in
    (r1.1 ++ r2.1, r2.2).
Proof.
  revert buckets. induction c1 as [|t c1 IH]; intros buckets.
  - simpl. now destruct (allowRequests clientId c2 buckets).
  - cbn [app allowRequests].
    destruct (allowRequest clientId t.1 t.2 buckets) as [ok b1].
    rewrite IH. cbn zeta.
    destruct (allowRequests clientId c1 b1) as [oks1 b2]. cbn [fst snd].
    now destruct (allowRequests clientId c2 b2).
Qed.


(** One call, by the value of the refilled count. *)
Lemma allowRequest_exact (clientId : string) (created now : Z)
    (buckets : gmap string BucketState) (m : Q) :
  tokens (refillBucket now (bucketOf clientId created buckets)) == m ->
  let r := allowRequest clientId created now buckets in
  forall created',
  lastRefillTime (bucketOf clientId created' r.2) = now /\
  (1 <= m -> r.1 = true /\ tokens (bucketOf clientId created' r.2) == m - 1) /\
  (m < 1 -> r.1 = false /\ tokens (bucketOf clientId created' r.2) == m).
Proof.
  intros Hm r created'. subst r.
  destruct (allowRequest_spec clientId created now buckets) as [Hok Hdeny].
  destruct (Qlt_le_dec (tokens (refillBucket now
              (bucketOf clientId created buckets))) 1) as [Hlt|Hle].
  - rewrite (Hdeny Hlt). cbn [fst snd]. rewrite bucketOf_insert.
    split; [reflexivity|]. split; intros H; [lra|]. now split.
  - rewrite (Hok Hle). cbn [fst snd]. rewrite bucketOf_insert.
    split; [reflexivity|]. split; intros H; [|lra].
    split; [reflexivity|]. cbn [tokens]. now rewrite Hm.
Qed.

(** X3: once a fresh client has used its 100 tokens and been denied,
    waiting [refillInterval / refillRate] = 100 ms buys exactly one more
    call: the next one is allowed and the one after it denied. *)
Lemma allowRequest_after_token_period (clientId : string) (t : Z)
    (buckets : gmap string BucketState) :
  buckets !! clientId = None ->
  (allowRequests clientId
     (replicate 101 (t, t)
        ++ [(t + tokenPeriod, t + tokenPeriod)%Z;
            (t + tokenPeriod, t + tokenPeriod)%Z]) buckets).1
    = replicate 100 true ++ [false; true; false].
Proof.
  intros Hfresh.
  change (replicate 101 (t, t)) with (replicate 100 (t, t) ++ [(t, t)]).
  rewrite <- app_assoc, allowRequests_app. cbn zeta. cbn [fst snd].
  assert (Hb : bucketOf clientId t buckets = mkBucket capacity t)
    by (unfold bucketOf; now rewrite Hfresh).
  destruct (allowRequests_immediate clientId t 100 100 buckets)
    as (H1 & H2 & H3); [now rewrite Hb|now rewrite Hb|lia|].
  rewrite H1. f_equal.
  set (bs0 := (allowRequests clientId (replicate 100 (t, t)) buckets).2) in *.
  cbn [app allowRequests fst snd].
  (* the 101st call, at the same reading *)
  assert (E1 : tokens (refillBucket t (bucketOf clientId t bs0)) == 0).
  { rewrite <- H2 at 1. rewrite refillBucket_no_time; rewrite H3;
      [reflexivity|vm_compute; discriminate]. }
  destruct (allowRequest_exact clientId t t bs0 0 E1 (t + tokenPeriod)%Z)
    as (L1 & _ & D1). destruct D1 as [D1 T1]; [reflexivity|].
  destruct (allowRequest clientId t t bs0) as [ok1 bs1]. cbn [fst snd] in *.
  subst ok1.
  (* the call one token period later *)
  assert (E2 : tokens (refillBucket (t + tokenPeriod)
                         (bucketOf clientId (t + tokenPeriod) bs1)) == 1).
  { cbn [refillBucket tokens]. rewrite L1, T1.
    replace (t + tokenPeriod - t)%Z with tokenPeriod by lia. reflexivity. }
  destruct (allowRequest_exact clientId _ _ bs1 1 E2 (t + tokenPeriod)%Z)
    as (L2 & A2 & _). destruct A2 as [A2 T2]; [apply Qle_refl|].
  destruct (allowRequest clientId _ _ bs1) as [ok2 bs2]. cbn [fst snd] in *.
  subst ok2.
  (* and the one right after it *)
  assert (E3 : tokens (refillBucket (t + tokenPeriod)
                         (bucketOf clientId (t + tokenPeriod) bs2)) == 0).
  { rewrite <- L2 at 1. rewrite refillBucket_no_time; rewrite T2;
      [reflexivity|vm_compute; discriminate]. }
  destruct (allowRequest_exact clientId _ _ bs2 0 E3 t) as (_ & _ & D3).
  destruct D3 as [D3 _]; [reflexivity|].
  destruct (allowRequest clientId _ _ bs2) as [ok3 bs3]. cbn [fst snd] in *.
  now subst ok3.
Qed.

Lemma allowRequest_keeps_ok (clientId : string) (t0 created now : Z)
    (buckets : gmap string BucketState) :
  (forall b, buckets !! clientId = Some b -> bucket_ok t0 b) ->
  (t0 <= created)%Z -> (created <= now)%Z ->
  exists b', (allowRequest clientId created now buckets).2 !! clientId
               = Some b' /\ bucket_ok now b'.
Proof.
  intros Hinv H0 H1.
  set (old := bucketOf clientId created buckets).
  assert (Hold : bucket_ok created old).
  { subst old. unfold bucketOf. destruct (buckets !! clientId) as [b|] eqn:E.
    - destruct (Hinv b eq_refl) as [Hb Ht]. split; [exact Hb|lia].
    - split; [cbn; unfold capacity; lra|cbn; lia]. }
  destruct Hold as [[Hlo Hhi] Ht].
  pose proof (refillBucket_nonneg now old ltac:(lia) Hlo) as Hn.
  pose proof (refillBucket_le_capacity now old) as Hc.
  destruct (allowRequest_spec clientId created now buckets) as [Hok Hdeny].
  fold old in Hok, Hdeny.
  destruct (Qlt_le_dec (tokens (refillBucket now old)) 1) as [Hlt|Hle].
  - rewrite (Hdeny Hlt). cbn [snd]. rewrite lookup_insert_eq.
    eexists. split; [reflexivity|]. split; [now split|cbn; lia].
  - rewrite (Hok Hle). cbn [snd]. rewrite lookup_insert_eq.
    eexists. split; [reflexivity|].
    split; [cbn [tokens]; split; lra|cbn; lia].
Qed.

Lemma allowRequests_keep_ok (clientId : string) (clock : list (Z * Z)) :
  forall (t0 : Z) (buckets : gmap string BucketState),
  (forall b, buckets !! clientId = Some b -> bucket_ok t0 b) ->
  monotone t0 clock ->
  forall b, (allowRequests clientId clock buckets).2 !! clientId = Some b ->
  0 <= tokens b <= capacity.
Proof.
  induction clock as [|t clock IH]; intros t0 buckets Hinv Hm b Hb.
  - simpl in Hb. now destruct (Hinv b Hb).
  - cbn [monotone] in Hm. destruct Hm as (H0 & H1 & Hm).
    cbn [allowRequests] in Hb.
    destruct (allowRequest_keeps_ok clientId t0 t.1 t.2 buckets Hinv H0 H1)
      as (b' & Hb' & Hok).
    destruct (allowRequest clientId t.1 t.2 buckets) as [ok bs1].
    cbn [snd] in Hb'.
    specialize (IH t.2 bs1).
    destruct (allowRequests clientId clock bs1) as [oks bs2].
    cbn [snd] in *. apply IH; [|exact Hm|exact Hb].
    intros b0 Hb0. rewrite Hb' in Hb0. now injection Hb0 as <-.
Qed.

Lemma monotone_take (n : nat) (clock : list (Z * Z)) :
  forall t0, monotone t0 clock -> monotone t0 (take n clock).
Proof.
  revert n. induction clock as [|t clock IH]; intros [|n] t0 H;
    simpl in *; try exact I.
  destruct H as (H0 & H1 & H). repeat split; try assumption. now apply IH.
Qed.

(** Whatever the clock reads, a call leaves no more than the capacity
    in the client's bucket. *)
Lemma allowRequest_le_capacity (clientId : string) (created now : Z)
    (buckets : gmap string BucketState) :
  exists b', (allowRequest clientId created now buckets).2 !! clientId
               = Some b' /\ tokens b' <= capacity.
Proof.
  pose proof (refillBucket_le_capacity now (bucketOf clientId created buckets))
    as Hc.
  unfold allowRequest. destruct (Qle_bool 1 _); cbn [snd];
    rewrite lookup_insert_eq; eexists; (split; [reflexivity|]);
    cbn [tokens]; lra.
Qed.

Lemma allowRequests_le_capacity (clientId : string) (clock : list (Z * Z)) :
  forall buckets : gmap string BucketState,
  (forall b, buckets !! clientId = Some b -> tokens b <= capacity) ->
  forall b, (allowRequests clientId clock buckets).2 !! clientId = Some b ->
  tokens b <= capacity.
Proof.
  induction clock as [|t clock IH]; intros buckets Hinv b Hb.
  - now apply Hinv.
  - cbn [allowRequests] in Hb.
    destruct (allowRequest_le_capacity clientId t.1 t.2 buckets)
      as (b' & Hb' & Hle).
    destruct (allowRequest clientId t.1 t.2 buckets) as [ok bs1].
    cbn [snd] in Hb'. specialize (IH bs1).
    destruct (allowRequests clientId clock bs1) as [oks bs2].
    cbn [snd] in *. apply IH; [|exact Hb].
    intros b0 Hb0. rewrite Hb' in Hb0. now injection Hb0 as <-.
Qed.

(** C10, as the code has it: a fresh bucket starts at exactly the
    capacity; over every run of [allowRequest] calls for a client whose
    clock readings do not run backwards, the token count of the
    client's bucket stays within [0 <= tokens <= capacity] after every
    call; and whatever the clock reads, the count never exceeds the
    capacity. *)
Theorem tokens_within_bounds (clientId : string) (t0 : Z)
    (clock : list (Z * Z)) (buckets : gmap string BucketState) :
  (forall b, buckets !! clientId = Some b -> bucket_ok t0 b) ->
  monotone t0 clock ->
  (forall created, buckets !! clientId = None ->
     tokens (bucketOf clientId created buckets) = capacity) /\
  (forall (n : nat) (b : BucketState),
     (allowRequests clientId (take n clock) buckets).2 !! clientId = Some b ->
     0 <= tokens b <= capacity) /\
  (forall (times : list (Z * Z)) (b : BucketState),
     (allowRequests clientId times buckets).2 !! clientId = Some b ->
     tokens b <= capacity).
Proof.
  intros Hinv Hm. split; [|split].
  - intros created Hnone. unfold bucketOf. now rewrite Hnone.
  - intros n b. apply (allowRequests_keep_ok clientId (take n clock) t0);
      [exact Hinv|]. now apply monotone_take.
  - intros times. apply allowRequests_le_capacity.
    intros b Hb. now destruct (Hinv b Hb) as [[_ Hle] _].
Qed.

End LimiterFacts.


Lemma allowRequest_after_token_period_witness :
  (∅ : gmap string RateLimiter.BucketState) !! "10.0.0.7" = None /\
  (RateLimiter.allowRequests "10.0.0.7"
     (replicate 101 (0, 0) ++ [(100, 100); (100, 100)]) ∅).1
    = replicate 100 true ++ [false; true; false].
Proof.
  split; [apply lookup_empty|].
  apply (allowRequest_after_token_period "10.0.0.7" 0 ∅). apply lookup_empty.
Defined.

(** C10, where the sentence fails: the times of the calls are the
    readings of [Date.now()], and when a reading lies before the
    bucket's last refill the refill is negative. A first call at
    1 000 000 ms leaves 99 tokens; a second one that reads 0 ms is
    denied and leaves 99 - 10 000 = -9901 tokens. *)
Lemma tokens_negative_when_clock_steps_back :
  (RateLimiter.allowRequests "10.0.0.7" [(1000000, 1000000); (0, 0)] ∅).1
    = [true; false] /\
  exists b : RateLimiter.BucketState,
    (RateLimiter.allowRequests "10.0.0.7" [(1000000, 1000000); (0, 0)] ∅).2
      !! "10.0.0.7" = Some b /\
    (RateLimiter.tokens b == -9901)%Q /\ (RateLimiter.tokens b < 0)%Q.
Proof.
  split; [vm_compute; reflexivity|].
  eexists. split; [vm_compute; reflexivity|].
  split; vm_compute; reflexivity.
Qed.

Lemma tokens_within_bounds_witness :
  RateLimiter.monotone 0 [(0, 0); (50, 50); (20000, 20001)] /\
  forall b : RateLimiter.BucketState,
    (RateLimiter.allowRequests "10.0.0.7"
       (take 3 [(0, 0); (50, 50); (20000, 20001)]) ∅).2 !! "10.0.0.7"
      = Some b ->
    (0 <= RateLimiter.tokens b <= RateLimiter.capacity)%Q.
Proof.
  assert (Hm : RateLimiter.monotone 0 [(0, 0); (50, 50); (20000, 20001)])
    by (simpl; lia).
  split; [exact Hm|].
  destruct (tokens_within_bounds "10.0.0.7" 0
              [(0, 0); (50, 50); (20000, 20001)] ∅) as (_ & H & _);
    [|exact Hm|exact (H 3%nat)].
  intros b Hb. rewrite lookup_empty in Hb. discriminate.
Defined.

Section RetryAfterFacts.
Import RateLimiter.
Local Open Scope Q_scope.

(** The ceiling of a rational that lies in [(c - 1, c]]. *)
Lemma Qceiling_between (x : Q) (c : Z) :
  inject_Z (c - 1) < x -> x <= inject_Z c -> Qceiling x = c.
Proof.
  intros Hlo Hhi.
  pose proof (Qle_ceiling x) as H1. pose proof (Qceiling_lt x) as H2.
  assert (A : inject_Z (c - 1) < inject_Z (Qceiling x)) by lra.
  assert (B : inject_Z (Qceiling x - 1) < inject_Z c) by lra.
  rewrite <- Zlt_Qlt in A, B. lia.
Qed.

Lemma deficit_scaled (b : BucketState) :
  (1 - tokens b) / refillRate == (1 - tokens b) * (1 # 10).
Proof. unfold refillRate. field. Qed.

(** C6 as the code has it: 0 for an unknown key, otherwise the ceiling
    of the deficit [1 - tokens] over the refill rate, with nothing
    keeping it from going below zero: it is 1 second while less than one
    token is held, 0 from one token up to fewer than eleven, and
    negative from eleven tokens on. *)
Theorem getRetryAfter_deficit_ceiling (clientId : string)
    (buckets : gmap string BucketState) :
  (buckets !! clientId = None -> getRetryAfter clientId buckets = 0%Z) /\
  forall b : BucketState, buckets !! clientId = Some b ->
    getRetryAfter clientId buckets
      = Qceiling ((1 - tokens b) / refillRate) /\
    (0 <= tokens b < 1 -> getRetryAfter clientId buckets = 1%Z) /\
    (1 <= tokens b < 11 -> getRetryAfter clientId buckets = 0%Z) /\
    (11 <= tokens b -> (getRetryAfter clientId buckets < 0)%Z).
Proof.
  split; [intros H; unfold getRetryAfter; now rewrite H|].
  intros b Hb. unfold getRetryAfter. rewrite Hb.
  pose proof (deficit_scaled b) as E.
  split; [reflexivity|]. split; [|split].
  - intros [H0 H1]. apply Qceiling_between; rewrite E.
    + change (inject_Z (1 - 1)) with 0. lra.
    + change (inject_Z 1) with 1. lra.
  - intros [H0 H1]. apply Qceiling_between; rewrite E.
    + change (inject_Z (0 - 1)) with (-1 # 1). lra.
    + change (inject_Z 0) with 0. lra.
  - intros H. apply Z.le_lt_trans with (Qceiling (inject_Z (-1))).
    + apply Qceiling_resp_le. rewrite E.
      change (inject_Z (-1)) with (-1 # 1). lra.
    + rewrite Qceiling_Z. lia.
Qed.

End RetryAfterFacts.

(** C6, where the sentence fails: after its first allowed request a
    client holds 99 tokens, and the retry-after reported for it is -9
    rather than 0. *)
Lemma getRetryAfter_negative_when_available :
  (RateLimiter.allowRequest "10.0.0.7" 0 0 ∅).1 = true /\
  RateLimiter.tokens <$>
    ((RateLimiter.allowRequest "10.0.0.7" 0 0 ∅).2 !! "10.0.0.7")
    = Some 99%Q /\
  RateLimiter.getRetryAfter "10.0.0.7"
    (RateLimiter.allowRequest "10.0.0.7" 0 0 ∅).2 = (-9)%Z.
Proof.
  assert (E : RateLimiter.allowRequest "10.0.0.7" 0 0 ∅ =
              (true, {["10.0.0.7" := RateLimiter.mkBucket 99 0]})).
  { unfold RateLimiter.allowRequest, RateLimiter.bucketOf.
    rewrite lookup_empty. cbn. rewrite insert_empty. reflexivity. }
  rewrite E. cbn [fst snd].
  unfold RateLimiter.getRetryAfter. rewrite lookup_singleton_eq.
  repeat split.
Qed.

Lemma getRetryAfter_deficit_ceiling_witness :
  RateLimiter.getRetryAfter "10.0.0.7"
    {["10.0.0.7" := RateLimiter.mkBucket (1 # 2) 0]} = 1%Z /\
  RateLimiter.getRetryAfter "10.0.0.7"
    {["10.0.0.7" := RateLimiter.mkBucket 5 0]} = 0%Z /\
  RateLimiter.getRetryAfter "10.0.0.7" ∅ = 0%Z.
Proof.
  split; [|split].
  - destruct (getRetryAfter_deficit_ceiling "10.0.0.7"
                {["10.0.0.7" := RateLimiter.mkBucket (1 # 2) 0]}) as [_ H].
    destruct (H _ (lookup_singleton_eq _ _)) as (_ & H1 & _).
    apply H1. cbn. lra.
  - destruct (getRetryAfter_deficit_ceiling "10.0.0.7"
                {["10.0.0.7" := RateLimiter.mkBucket 5 0]}) as [_ H].
    destruct (H _ (lookup_singleton_eq _ _)) as (_ & _ & H2 & _).
    apply H2. cbn. lra.
  - apply (getRetryAfter_deficit_ceiling "10.0.0.7" ∅). apply lookup_empty.
Defined.

(** ** CacheService *)
Section CacheFacts.
Import Cache.

Variable V : Type.
Variable truthy : V -> bool.

Implicit Types (cache : gmap string (Item V)) (key ns : string) (v : V).

Lemma string_length_append (a b : string) :
  String.length (a +:+ b) = (String.length a + String.length b)%nat.
Proof.
  induction a as [|c a IH]; [reflexivity|].
  change (S (String.length (a +:+ b))
          = S (String.length a + String.length b)).
  now rewrite IH.
Qed.

(** A key under a non-empty namespace is never the bare key. *)
Lemma finalKey_namespaced key ns (t : option Q) :
  ns <> "" ->
  finalKey key (mkOptions t (Some ns)) = ns +:+ ":" +:+ key /\
  finalKey key (mkOptions t (Some ns)) <> key.
Proof.
  intros Hns. unfold finalKey, nsPrefix. cbn [namespace].
  destruct (String.eqb_spec ns "") as [E|_]; [contradiction|].
  assert (Ha : (ns +:+ ":") +:+ key = ns +:+ ":" +:+ key).
  { clear. induction ns as [|c ns IH]; [reflexivity|].
    change (String c ((ns +:+ ":") +:+ key) = String c (ns +:+ ":" +:+ key)).
    now rewrite IH. }
  split; [exact Ha|].
  intros E. apply (f_equal String.length) in E.
  rewrite !string_length_append in E. simpl in E. lia.
Qed.

Lemma finalKey_bare key (t : option Q) :
  finalKey key (mkOptions t None) = key.
Proof. reflexivity. Qed.

Lemma effectiveTtl_positive (t : Q) (ns : option string) :
  (0 < t)%Q -> effectiveTtl (mkOptions (Some t) ns) = t.
Proof.
  intros H. unfold effectiveTtl. cbn [ttl]. apply js_or_nonzero. lra.
Qed.

(** A read no later than the expiry is a hit and leaves the cache
    alone. *)
Lemma get_live key (now : Z) cache (item : Item V) :
  cache !! key = Some item -> (inject_Z now <= expires item)%Q ->
  get key now cache = (Some (value item), cache).
Proof.
  intros Hk Hn. unfold get. rewrite Hk.
  apply Qgtb_false in Hn. now rewrite Hn.
Qed.

(** A read past the expiry is a miss and deletes the entry. *)
Lemma get_expired key (now : Z) cache (item : Item V) :
  cache !! key = Some item -> (expires item < inject_Z now)%Q ->
  get key now cache = (None, delete key cache).
Proof.
  intros Hk Hn. unfold get. rewrite Hk.
  apply Qgtb_true in Hn. now rewrite Hn.
Qed.

Lemma get_absent key (now : Z) cache :
  cache !! key = None -> get key now cache = (None, cache).
Proof. intros Hk. unfold get. now rewrite Hk. Qed.

(** C7 as the code has it: with a positive [ttl] of [t] seconds and no
    namespace, a [get] at the time of the [set] (or any time up to [t]
    seconds later) returns the value stored, and a [get] more than [t]
    seconds after the [set] is a miss that deletes the entry. *)
Theorem set_get_ttl key v (t : Q) (now later : Z) cache :
  (0 < t)%Q ->
  let cache' := set key v (mkOptions (Some t) None) now cache in
  get key now cache' = (Some v, cache') /\
  ((inject_Z later <= inject_Z now + t * 1000)%Q ->
     get key later cache' = (Some v, cache')) /\
  ((inject_Z now + t * 1000 < inject_Z later)%Q ->
     get key later cache' = (None, delete key cache') /\
     delete key cache' !! key = None).
Proof.
  intros Ht cache'.
  assert (Hk : cache' !! key = Some (mkItem v (inject_Z now + t * 1000)%Q)).
  { subst cache'. unfold set. rewrite finalKey_bare, effectiveTtl_positive
      by exact Ht. apply lookup_insert_eq. }
  split; [|split].
  - apply (get_live _ _ _ _ Hk). cbn [expires]. lra.
  - intros Hl. now apply (get_live _ _ _ _ Hk).
  - intros Hl. split; [now apply (get_expired _ _ _ _ Hk)|].
    apply lookup_delete_eq.
Qed.

(** Writing under a namespace does not change what the bare key
    holds. *)
Lemma set_namespaced_lookup key ns v (t : option Q) (now : Z) cache :
  ns <> "" ->
  set key v (mkOptions t (Some ns)) now cache !! key = cache !! key.
Proof.
  intros Hns. unfold set.
  destruct (finalKey_namespaced key ns t Hns) as [_ Hne].
  now rewrite lookup_insert_ne.
Qed.

(** What [getOrSet] takes from the cache: the live entry under the
    key it reads, when that entry is truthy. *)
Lemma getOrSet_invoked key (fn : V) options (now now' : Z) cache :
  invoked (getOrSet V truthy key fn options now now' cache)
  = negb (from_option truthy false (get key now cache).1).
Proof.
  unfold getOrSet.
  destruct (get key now cache) as [[c|] cache1]; cbn [fst from_option].
  - now destruct (truthy c).
  - reflexivity.
Qed.

(** Under a namespace a [getOrSet] leaves the bare key as its [get]
    left it. *)
Lemma getOrSet_namespaced key ns (fn : V) (t : option Q) (now now' : Z) cache :
  ns <> "" ->
  cacheAfter (getOrSet V truthy key fn (mkOptions t (Some ns)) now now' cache)
    !! key
  = (get key now cache).2 !! key.
Proof.
  intros Hns. unfold getOrSet.
  destruct (get key now cache) as [[c|] cache1]; cbn [snd].
  - destruct (truthy c); cbn [cacheAfter]; [reflexivity|].
    now apply set_namespaced_lookup.
  - cbn [cacheAfter]. now apply set_namespaced_lookup.
Qed.

(** A [get] changes what a key holds only by deleting it. *)
Lemma get_keeps_or_deletes key (now : Z) cache :
  (get key now cache).2 !! key = cache !! key \/
  (get key now cache).2 !! key = None.
Proof.
  unfold get. destruct (cache !! key) as [item|] eqn:Ek; [|now left].
  destruct (Qgtb _ _); cbn [snd]; [right; apply lookup_delete_eq|now left].
Qed.

Lemma getOrSets_namespaced key ns (t : option Q) (calls : list (V * Z * Z)) :
  ns <> "" ->
  forall cache,
  (forall item, cache !! key = Some item -> truthy (value item) = false) ->
  (getOrSets V truthy key (mkOptions t (Some ns)) calls cache).1
  = replicate (length calls) true.
Proof.
  intros Hns. induction calls as [|[[fn now] now'] calls IH]; intros cache Hk;
    [reflexivity|].
  cbn [getOrSets length replicate]. cbv zeta.
  pose proof (getOrSet_invoked key fn (mkOptions t (Some ns)) now now' cache)
    as Hi.
  pose proof (getOrSet_namespaced key ns fn t now now' cache Hns) as Hc.
  assert (Hfalse : from_option truthy false (get key now cache).1 = false).
  { unfold get. destruct (cache !! key) as [item|] eqn:Ek; [|reflexivity].
    destruct (Qgtb _ _); cbn [fst from_option]; [reflexivity|].
    now apply Hk. }
  rewrite Hfalse in Hi. cbn [negb] in Hi.
  specialize (IH (cacheAfter (getOrSet V truthy key fn (mkOptions t (Some ns))
                                now now' cache))).
  destruct (getOrSets V truthy key _ calls _) as [flags cache'].
  cbn [fst] in *. rewrite Hi. f_equal. apply IH.
  intros item Hitem. rewrite Hc in Hitem.
  destruct (get_keeps_or_deletes key now cache) as [E|E];
    rewrite E in Hitem; [now apply Hk|discriminate].
Qed.

(** C9, as the code has it: under a non-empty namespace [set] writes
    the key [ns + ":" + key], which is not [key], and leaves what the
    bare key holds as it was; [get(key)] reads the bare key, so after
    the [set] it answers exactly as it would have before it: null when
    the cache held nothing live under the bare key, and otherwise the
    value that was already there, never the value just written. A
    [getOrSet] under the namespace invokes its compute function unless
    a live truthy entry sits under the bare key, and it never puts one
    there: when the bare key holds nothing, or a falsy value, every
    [getOrSet] of a run invokes its compute function. Without a
    namespace the value written is the one read back until it
    expires. *)
Theorem namespaced_set_invisible_to_get key ns v (t : option Q)
    (now later : Z) (calls : list (V * Z * Z)) cache :
  ns <> "" ->
  let options := mkOptions t (Some ns) in
  set key v options now cache =
    <[ns +:+ ":" +:+ key :=
        mkItem v (inject_Z now + effectiveTtl options * 1000)%Q]> cache /\
  ns +:+ ":" +:+ key <> key /\
  set key v options now cache !! key = cache !! key /\
  (get key later (set key v options now cache)).1 = (get key later cache).1 /\
  (cache !! key = None ->
     get key later (set key v options now cache)
       = (None, set key v options now cache)) /\
  (forall (fn : V) (t1 t2 : Z),
     invoked (getOrSet V truthy key fn options t1 t2 cache)
     = negb (from_option truthy false (get key t1 cache).1)) /\
  ((forall item, cache !! key = Some item -> truthy (value item) = false) ->
     (getOrSets V truthy key options calls cache).1
       = replicate (length calls) true) /\
  get key later (set key v (mkOptions t None) now cache)
    = (if Qgtb (inject_Z later) (inject_Z now + effectiveTtl options * 1000)
       then None else Some v,
       if Qgtb (inject_Z later) (inject_Z now + effectiveTtl options * 1000)
       then delete key (set key v (mkOptions t None) now cache)
       else set key v (mkOptions t None) now cache).
Proof.
  intros Hns options.
  destruct (finalKey_namespaced key ns t Hns) as [Hf Hne].
  assert (Hk : set key v options now cache !! key = cache !! key)
    by (subst options; now apply set_namespaced_lookup).
  split; [|split; [|split; [|split; [|split; [|split; [|split]]]]]].
  - subst options. unfold set. now rewrite Hf.
  - now rewrite <- Hf.
  - exact Hk.
  - unfold get. rewrite Hk. destruct (cache !! key) as [item|]; [|reflexivity].
    now destruct (Qgtb _ _).
  - intros Hnone. apply get_absent. now rewrite Hk.
  - intros fn t1 t2. apply getOrSet_invoked.
  - now apply getOrSets_namespaced.
  - unfold get, set. rewrite finalKey_bare, lookup_insert_eq.
    cbn [expires value]. change (effectiveTtl (mkOptions t None))
      with (effectiveTtl options).
    now destruct (Qgtb _ _).
Qed.

End CacheFacts.

(** C7, where the sentence fails: a [ttl] of 0 is falsy and replaced by
    the default of 300 s, so the entry is still returned one second
    (more than 0 s) after the [set]; it expires at 300 000 ms. *)
Lemma set_ttl_zero_outlives :
  (Cache.get "k" 1000
     (Cache.set "k" "v" (Cache.mkOptions (Some 0%Q) None) 0 ∅)).1
    = Some "v" /\
  Cache.expires <$>
    (Cache.set "k" "v" (Cache.mkOptions (Some 0%Q) None) 0 ∅ !! "k")
    = Some (0 + 300 * 1000)%Q.
Proof.
  unfold Cache.get, Cache.set.
  change (Cache.finalKey "k" _) with "k".
  rewrite !lookup_insert_eq. split; reflexivity.
Qed.

Lemma set_get_ttl_witness :
  (0 < 1)%Q /\
  Cache.get "k" 0 (Cache.set "k" "v" (Cache.mkOptions (Some 1%Q) None) 0 ∅)
    = (Some "v",
       Cache.set "k" "v" (Cache.mkOptions (Some 1%Q) None) 0 ∅) /\
  (Cache.get "k" 1001
     (Cache.set "k" "v" (Cache.mkOptions (Some 1%Q) None) 0 ∅)).1 = None.
Proof.
  assert (H : (0 < 1)%Q) by reflexivity.
  destruct (set_get_ttl string "k" "v" 1 0 1001 ∅ H) as (H1 & _ & H3).
  split; [exact H|]. split; [exact H1|].
  destruct H3 as [H3 _]; [reflexivity|]. now rewrite H3.
Defined.

(** C9, where the sentence fails: a [get] of the bare key after a
    namespaced [set] returns the value that was under the bare key
    before, not null; and a [getOrSet] whose key is the prefixed key of
    an earlier one under the same namespace is served from the cache
    without invoking its compute function. *)
Lemma namespaced_get_sees_bare_entry :
  (Cache.get "butter" 1
     (Cache.set "butter" "new" (Cache.mkOptions None (Some "search")) 0
        {[ "butter" := Cache.mkItem "old"%string 300000%Q ]})).1
    = Some "old"%string /\
  Cache.invoked
    (Cache.getOrSet string (fun s => negb (String.eqb s "")) "search:butter" "w"
       (Cache.mkOptions None (Some "search")) 1 1
       (Cache.cacheAfter
          (Cache.getOrSet string (fun s => negb (String.eqb s "")) "butter" "v"
             (Cache.mkOptions None (Some "search")) 0 0 ∅)))
    = false.
Proof. split; vm_compute; reflexivity. Qed.

Lemma namespaced_set_invisible_to_get_witness :
  "search" <> "" /\
  (Cache.get "butter" 1
     (Cache.set "butter" "v" (Cache.mkOptions None (Some "search")) 0 ∅)).1
    = (Cache.get "butter" 1 (∅ : gmap string (Cache.Item string))).1 /\
  Cache.get "butter" 1
    (Cache.set "butter" "v" (Cache.mkOptions None (Some "search")) 0 ∅)
    = (None,
       Cache.set "butter" "v" (Cache.mkOptions None (Some "search")) 0 ∅) /\
  (Cache.getOrSets string (fun s => negb (String.eqb s "")) "butter"
     (Cache.mkOptions None (Some "search"))
     [("a", 0, 0); ("b", 1, 1); ("c", 2, 2)] ∅).1 = [true; true; true].
Proof.
  assert (Hns : "search" <> "") by discriminate.
  destruct (namespaced_set_invisible_to_get string
              (fun s => negb (String.eqb s "")) "butter" "search" "v" None
              0 1 [("a", 0, 0); ("b", 1, 1); ("c", 2, 2)] ∅ Hns)
    as (_ & _ & _ & H4 & H5 & _ & H7 & _).
  split; [exact Hns|]. split; [exact H4|]. split; [apply H5, lookup_empty|].
  apply H7. intros item H. rewrite lookup_empty in H. discriminate.
Defined.

(** ** retry *)
Section RetryFacts.
Import Retry.
Local Open Scope nat_scope.

Variables (W T E : Type).
Variable newError : string -> E.
Variable truthy : E -> bool.
Variable fn : W -> Completion E T * W.

Abbreviation Options := Retry.RetryOptions.
Abbreviation run := (retry W T E newError truthy fn).
Abbreviation rethrown :=
  (fun e : E => if truthy e then e else newError "Max retries exceeded").
Abbreviation fails := (failsWith W T E fn).
Abbreviation world := (worldAt W T E fn).
Abbreviation failedRounds := (Retry.failedRounds E).

Lemma effectiveMaxAttempts_pos (o : Options) : 1 <= effectiveMaxAttempts o.
Proof. unfold effectiveMaxAttempts. destruct (maxAttempts o) as [[|n]|]; lia. Qed.

Lemma effectiveMaxAttempts_default :
  effectiveMaxAttempts (mkOptions None None None false) = 3.
Proof. reflexivity. Qed.

Lemma invocations_app (l1 l2 : list (Event E)) :
  invocations E (l1 ++ l2) = invocations E l1 + invocations E l2.
Proof. unfold invocations. now rewrite List.filter_app, length_app. Qed.

Lemma invocations_notify (o : Options) (a : nat) (e : E) :
  invocations E (notify E o a e) = 0.
Proof. unfold notify. now destruct (onRetry o). Qed.

Lemma invocations_failedRounds (o : Options) (errs : list E) (a : nat) :
  invocations E (failedRounds o errs a) = length errs.
Proof.
  revert a. induction errs as [|e errs IH]; intros a; [reflexivity|].
  cbn [failedRounds].
  change (Invoke a :: ?l) with ([Invoke a] ++ l).
  rewrite invocations_app, invocations_app, invocations_notify.
  change (Sleep ?q :: ?l) with ([Sleep (E:=E) q] ++ l).
  rewrite invocations_app, IH. reflexivity.
Qed.

(** The loop, from any iteration on: some attempts fail and are
    retried, then one either succeeds or is the last one allowed. *)
Lemma loop_spec (o : Options) (w0 : W) (remaining : nat) :
  forall (attempt : nat) (lastError : option E),
  1 <= attempt -> 1 <= remaining ->
  remaining + attempt = S (effectiveMaxAttempts o) ->
  let res := loop W T E newError truthy fn o remaining attempt lastError
                  (world (attempt - 1) w0) in
  exists errs : list E,
    attempt + length errs <= effectiveMaxAttempts o /\
    res.2 = failedRounds o errs attempt ++ [Invoke (attempt + length errs)] /\
    (forall i e, errs !! i = Some e -> fails w0 (attempt + i) e) /\
    ((exists v, res.1.1 = Returned v /\
                (fn (world (attempt + length errs - 1) w0)).1 = Returned v) \/
     (attempt + length errs = effectiveMaxAttempts o /\
      exists e, fails w0 (effectiveMaxAttempts o) e /\
                res.1.1 = Thrown (rethrown e))).
Proof.
  induction remaining as [|r IH]; intros attempt lastError Ha Hr Hsum; [lia|].
  cbn [loop]. cbv zeta.
  destruct (fn (world (attempt - 1) w0)) as [[v|e] w'] eqn:Efn.
  - exists []. cbn [length failedRounds app fst snd].
    rewrite Nat.add_0_r. split; [lia|]. split; [reflexivity|].
    split; [intros i e0 Hi; discriminate|].
    left. exists v. now rewrite Efn.
  - destruct (Nat.eqb_spec attempt (effectiveMaxAttempts o)) as [Heq|Hne].
    + exists []. cbn [length failedRounds app fst snd].
      rewrite Nat.add_0_r. split; [lia|]. split; [reflexivity|].
      split; [intros i e0 Hi; discriminate|].
      right. split; [exact Heq|]. exists e. split.
      * unfold failsWith. rewrite <- Heq, Efn. reflexivity.
      * unfold throwLast. now destruct (truthy e).
    + assert (Hw : w' = world (S attempt - 1) w0).
      { replace (S attempt - 1) with (S (attempt - 1)) by lia.
        cbn [worldAt]. now rewrite Efn. }
      rewrite Hw.
      destruct (IH (S attempt) (Some e)) as (errs & H1 & H2 & H3 & H4);
        [lia|lia|lia|].
      destruct (loop W T E newError truthy fn o r (S attempt) (Some e) _)
        as [[res w''] events].
      cbn [fst snd] in *. exists (e :: errs). cbn [length failedRounds].
      replace (attempt + S (length errs)) with (S attempt + length errs) by lia.
      split; [exact H1|]. split.
      { rewrite H2. cbn [app]. f_equal. now rewrite <- app_assoc. }
      split.
      { intros [|i] e0 Hi.
        - injection Hi as <-. unfold failsWith. rewrite Nat.add_0_r, Efn.
          reflexivity.
        - replace (attempt + S i) with (S attempt + i) by lia.
          now apply H3. }
      exact H4.
Qed.

Lemma failedRounds_segment (o : Options) (errs : list E) :
  forall (a k : nat) (e : E), errs !! k = Some e ->
  exists pre post,
    failedRounds o errs a ++ [Invoke (a + length errs)] =
      pre ++ Invoke (a + k) :: notify E o (a + k) e
          ++ Sleep (sleepTime o (a + k)) :: Invoke (S (a + k)) :: post.
Proof.
  induction errs as [|e0 errs IH]; intros a k e Hk; [discriminate|].
  destruct k as [|k].
  - injection Hk as <-. exists []. rewrite Nat.add_0_r. cbn [failedRounds app length].
    destruct errs as [|e1 errs].
    + exists []. cbn [failedRounds app length].
      replace (a + 1)%nat with (S a) by lia.
      f_equal. rewrite <- app_assoc. reflexivity.
    + eexists. cbn [failedRounds]. rewrite <- !app_assoc. cbn [app].
      reflexivity.
  - destruct (IH (S a) k e Hk) as (pre & post & Heq).
    exists (Invoke a :: notify E o a e0 ++ Sleep (sleepTime o a) :: pre), post.
    cbn [failedRounds length].
    replace (a + S (length errs)) with (S a + length errs) by lia.
    replace (a + S k) with (S a + k) by lia.
    cbn [app]. f_equal. rewrite <- !app_assoc. f_equal. cbn [app]. f_equal.
    exact Heq.
Qed.

Local Open Scope Q_scope.

Lemma effectiveBackoff_nonzero (o : Options) : ~ effectiveBackoff o == 0.
Proof.
  unfold effectiveBackoff, js_or. destruct (backoff o) as [b|]; [|discriminate].
  destruct (Qeq_bool b 0) eqn:Eb; [discriminate|].
  intros H. apply Qeq_bool_iff in H. congruence.
Qed.

(** Each delay is the one before times the multiplier. *)
Lemma sleepTime_succ (o : Options) (k : nat) :
  (1 <= k)%nat ->
  sleepTime o (S k) == effectiveBackoff o * sleepTime o k.
Proof.
  intros Hk. unfold sleepTime.
  replace (Z.of_nat (S k) - 1)%Z with ((Z.of_nat k - 1) + 1)%Z by lia.
  rewrite Qpower_plus by apply effectiveBackoff_nonzero.
  rewrite Qpower_1_r. ring.
Qed.

Lemma sleepTime_constant (o : Options) (k : nat) :
  effectiveBackoff o == 1 -> sleepTime o k == effectiveDelay o.
Proof.
  intros Hb. unfold sleepTime. rewrite Hb, Qpower_1. ring.
Qed.

Lemma sleepTime_positive (o : Options) (k : nat) :
  0 < effectiveDelay o -> 0 < effectiveBackoff o -> 0 < sleepTime o k.
Proof.
  intros Hd Hb. unfold sleepTime.
  apply Qmult_lt_0_compat; [exact Hd|]. now apply Qpower_0_lt.
Qed.

Lemma sleepTime_growing (o : Options) (k : nat) :
  (1 <= k)%nat -> 0 < effectiveDelay o -> 1 < effectiveBackoff o ->
  sleepTime o k < sleepTime o (S k).
Proof.
  intros Hk Hd Hb. rewrite sleepTime_succ by exact Hk.
  pose proof (sleepTime_positive o k Hd ltac:(lra)) as Hs.
  nra.
Qed.


End RetryFacts.



(** * Further properties of the code *)

(** ** CircuitBreaker: counters, [execute], the middleware *)
Section BreakerUse.
Import CircuitBreaker.

Ltac breaker_cases :=
  unfold step, isOpen, recordSuccess, recordFailure, open, halfOpen, close,
    reset, initial, failureThreshold, successThreshold, timeout in *;
  cbn [status failures lastFailureTime successCount fst snd] in *.

Lemma breaker_wf_step (s : CircuitState) (op : Op) :
  breaker_wf s -> breaker_wf (step s op).
Proof.
  unfold breaker_wf. destruct s as [st f t c], op as [now| |now now'|];
    breaker_cases; intros H.
  - destruct st; cbn in *; try exact H.
    destruct (now - t >? 60000); cbn; lia.
  - destruct st; cbn in *; try exact H; [lia|].
    destruct (Z.geb_spec (c + 1) 2); cbn; lia.
  - destruct (Z.geb_spec (f + 1) 5); cbn; [destruct st; cbn in *; lia|].
    destruct st; cbn in *; lia.
  - cbn. lia.
Qed.

(** X5: in every state a breaker can reach, the status is CLOSED
    exactly when fewer than five failures are counted, the failure
    count is never negative and the success count is 0 or 1. *)
Lemma reachable_counters (s : CircuitState) :
  reachable s ->
  (status s = CLOSED <-> failures s < failureThreshold) /\
  0 <= failures s /\
  0 <= successCount s < successThreshold.
Proof.
  intros Hr.
  assert (H : breaker_wf s).
  { induction Hr as [|s op _ IH]; [cbn; unfold failureThreshold; lia|].
    now apply breaker_wf_step. }
  unfold breaker_wf, failureThreshold, successThreshold in *.
  destruct (status s); (split; [split|lia]).
  - intros _. lia.
  - reflexivity.
  - discriminate.
  - intros Hlt. exfalso. lia.
  - discriminate.
  - intros Hlt. exfalso. lia.
Qed.

Section Execute.
Variables (E T : Type).
Variable newError : string -> E.

Implicit Types (fn : Completion E T) (fallback : option (Completion E T)).

(** With the circuit not open, [execute] answers with what [fn] gives
    and records it. *)
Lemma execute_runs fn fallback (t t1 t2 : Z) (s : CircuitState) :
  status s <> OPEN ->
  execute newError fn fallback t t1 t2 s =
    match fn with
    | Returned v => (Returned v, recordSuccess s)
    | Thrown e => (orFallback fallback e, recordFailure t1 t2 s)
    end.
Proof.
  intros Hs. unfold execute. rewrite isOpen_not_open by exact Hs.
  destruct fn, fallback; reflexivity.
Qed.

(** With the circuit open and the cool-down not over, [fn] plays no
    part. *)
Lemma execute_fails_fast fn fallback (t t1 t2 : Z) (s : CircuitState) :
  status s = OPEN -> t - lastFailureTime s <= timeout ->
  execute newError fn fallback t t1 t2 s =
    (orFallback fallback (newError "Circuit breaker is OPEN"), s).
Proof.
  intros Hs Ht. unfold execute.
  rewrite isOpen_within_timeout by assumption.
  destruct fallback; reflexivity.
Qed.

Lemma executes_failing (calls : list (Call E T)) :
  forall s : CircuitState,
  status s = CLOSED ->
  failures s + Z.of_nat (length calls) <= failureThreshold ->
  Forall failing calls ->
  executes newError calls s =
    (map failureResult calls,
     recordFailures (map (fun c => (callFailTime c, callFailTime' c)) calls) s).
Proof.
  induction calls as [|c calls IH]; intros s Hs Hf Hall; [reflexivity|].
  inversion Hall as [|? ? [e He] Hall']; subst.
  cbn [executes map recordFailures fold_left length] in *.
  rewrite Nat2Z.inj_succ in Hf.
  rewrite execute_runs by (rewrite Hs; discriminate).
  unfold failureResult at 1. rewrite He.
  fold (recordFailures (map (fun c => (callFailTime c, callFailTime' c)) calls)
          (recordFailure (callFailTime c) (callFailTime' c) s)).
  destruct calls as [|c' calls'].
  - reflexivity.
  - assert (H1 : status (recordFailure (callFailTime c) (callFailTime' c) s)
                 = CLOSED /\
                 failures (recordFailure (callFailTime c) (callFailTime' c) s)
                 = failures s + 1).
    { cbn [length] in Hf. rewrite Nat2Z.inj_succ in Hf.
      destruct s as [st f lt sc]. breaker_cases.
      destruct (Z.geb_spec (f + 1) 5); cbn; [exfalso; lia|now split]. }
    destruct H1 as [H1 H2].
    rewrite IH; [reflexivity|exact H1|rewrite H2; lia|exact Hall'].
Qed.

(** X6: five failing [execute] calls in a row on a closed breaker with
    no failure counted each hand the caller the error of [fn] (or the
    fallback's result, which does not hide the failure from the
    breaker) and leave the circuit open; from then until 60 s have
    passed since the last failure, [execute] does not depend on [fn]:
    it answers with the fallback's result or the error "Circuit breaker
    is OPEN" and changes nothing. *)
Lemma execute_opens_then_fails_fast (calls : list (Call E T))
    (s0 : CircuitState) (next : Call E T) :
  status s0 = CLOSED -> failures s0 = 0 ->
  length calls = 5%nat -> Forall failing calls ->
  let r := executes newError calls s0 in
  r.1 = map failureResult calls /\
  status r.2 = OPEN /\
  (callTime next - lastFailureTime r.2 <= timeout ->
     execute newError (callFn next) (callFallback next) (callTime next)
       (callFailTime next) (callFailTime' next) r.2
     = (orFallback (callFallback next) (newError "Circuit breaker is OPEN"),
        r.2)).
Proof.
  intros Hs Hf Hl Hall r. subst r.
  rewrite executes_failing; try assumption;
    [|rewrite Hf, Hl; unfold failureThreshold; lia].
  cbn [fst snd].
  destruct calls as [|c1 [|c2 [|c3 [|c4 [|c5 [|]]]]]]; try discriminate.
  assert (Ho : recordFailures
                 (map (fun c => (callFailTime c, callFailTime' c))
                    [c1; c2; c3; c4; c5]) s0
               = mkState OPEN failureThreshold (callFailTime' c5)
                   (successCount s0)).
  { apply (recordFailures_threshold
             (map (fun c => (callFailTime c, callFailTime' c)) [c1; c2; c3; c4])
             (callFailTime c5, callFailTime' c5)); [assumption..|reflexivity]. }
  rewrite Ho. split; [reflexivity|]. split; [reflexivity|].
  intros Ht. now apply execute_fails_fast.
Qed.

(** X7: on an open breaker whose cool-down is over, [execute] runs
    [fn] again. A call that succeeds leaves the breaker half-open and a
    second success closes it with the failure count back at 0; a call
    that fails opens it again at once, stamped with the time of that
    failure. *)
Lemma execute_probe fn fn' fallback fallback' (t t1 t2 t' t1' t2' : Z)
    (s : CircuitState) :
  reachable s -> status s = OPEN ->
  timeout < t - lastFailureTime s ->
  (forall v v', fn = Returned v -> fn' = Returned v' ->
     let r1 := execute newError fn fallback t t1 t2 s in
     let r2 := execute newError fn' fallback' t' t1' t2' r1.2 in
     r1.1 = Returned v /\ status r1.2 = HALF_OPEN /\
     r2.1 = Returned v' /\ status r2.2 = CLOSED /\ failures r2.2 = 0) /\
  (forall e, fn = Thrown e ->
     let r1 := execute newError fn fallback t t1 t2 s in
     r1.1 = orFallback fallback e /\
     status r1.2 = OPEN /\ lastFailureTime r1.2 = t2).
Proof.
  intros Hr Hs Ht.
  pose proof (reachable_inv s Hr) as Hi. unfold breaker_inv in Hi.
  rewrite Hs in Hi.
  assert (E1 : isOpen t s = (false, halfOpen s))
    by now apply isOpen_after_timeout.
  split.
  - intros v v' -> ->. cbv zeta.
    assert (R1 : execute newError (Returned v) fallback t t1 t2 s
                 = (Returned v, recordSuccess (halfOpen s)))
      by (unfold execute; now rewrite E1).
    rewrite R1. cbn [fst snd].
    destruct (halfOpen_two_successes (halfOpen s)) as [H1 H2];
      [reflexivity|reflexivity|].
    rewrite execute_runs by (rewrite H1; discriminate).
    cbn [fst snd]. rewrite H2. now repeat split.
  - intros e ->. cbv zeta. unfold execute. rewrite E1. cbn [fst snd].
    destruct s as [st f lt sc]. breaker_cases.
    destruct (Z.geb_spec (f + 1) 5); [|exfalso; lia].
    destruct fallback; repeat split.
Qed.

End Execute.

(** X8: the breaker of the middleware stack is only ever asked
    [isOpen()]; it stays closed, and [circuitBreakerMiddleware] hands
    every request on: it never answers 503. *)
Lemma circuitBreakerMiddleware_never_503 (clock : list Z) :
  Middleware.circuitBreakerRequests clock initial =
    (replicate (length clock) Middleware.Next, initial).
Proof.
  induction clock as [|now clock IH]; [reflexivity|].
  cbn [Middleware.circuitBreakerRequests length replicate].
  unfold Middleware.circuitBreakerMiddleware.
  rewrite isOpen_not_open by discriminate. now rewrite IH.
Qed.

End BreakerUse.

(** ** RateLimiter: isolation, reset, the rate it enforces *)
Section LimiterUse.
Import RateLimiter.
Local Open Scope Q_scope.

Implicit Types (buckets : gmap string BucketState) (clock : list (Z * Z)).

Lemma allowRequest_other (c c' : string) (created now : Z) buckets :
  c <> c' ->
  (allowRequest c created now buckets).2 !! c' = buckets !! c'.
Proof.
  intros Hne. unfold allowRequest.
  destruct (Qle_bool 1 _); cbn [snd]; now rewrite lookup_insert_ne.
Qed.

Lemma allowRequests_other (c c' : string) clock :
  c <> c' ->
  forall buckets, (allowRequests c clock buckets).2 !! c' = buckets !! c'.
Proof.
  intros Hne. induction clock as [|t clock IH]; intros buckets; [reflexivity|].
  cbn [allowRequests].
  pose proof (allowRequest_other c c' t.1 t.2 buckets Hne) as H1.
  destruct (allowRequest c t.1 t.2 buckets) as [ok b1]. cbn [snd] in H1.
  specialize (IH b1). destruct (allowRequests c clock b1) as [oks b2].
  cbn [snd] in *. now rewrite IH.
Qed.

(** What a call answers, and the bucket it leaves, depend on the
    client's own bucket only. *)
Lemma allowRequest_local (c : string) (created now : Z) buckets buckets' :
  buckets !! c = buckets' !! c ->
  (allowRequest c created now buckets).1
    = (allowRequest c created now buckets').1 /\
  (allowRequest c created now buckets).2 !! c
    = (allowRequest c created now buckets').2 !! c.
Proof.
  intros H. unfold allowRequest, bucketOf. rewrite H.
  destruct (Qle_bool 1 _); cbn [fst snd]; now rewrite !lookup_insert_eq.
Qed.

Lemma allowRequests_local (c : string) clock :
  forall buckets buckets', buckets !! c = buckets' !! c ->
  (allowRequests c clock buckets).1 = (allowRequests c clock buckets').1 /\
  (allowRequests c clock buckets).2 !! c
    = (allowRequests c clock buckets').2 !! c.
Proof.
  induction clock as [|t clock IH]; intros buckets buckets' H; [now split|].
  cbn [allowRequests].
  destruct (allowRequest_local c t.1 t.2 buckets buckets' H) as [H1 H2].
  destruct (allowRequest c t.1 t.2 buckets) as [ok b1].
  destruct (allowRequest c t.1 t.2 buckets') as [ok' b1'].
  cbn [fst snd] in *. subst ok'.
  destruct (IH b1 b1' H2) as [H3 H4].
  destruct (allowRequests c clock b1) as [oks b2].
  destruct (allowRequests c clock b1') as [oks' b2'].
  cbn [fst snd] in *. now subst.
Qed.

(** X9: clients do not interfere: whatever requests another client made
    before, and however many were allowed or denied, a client's own run
    of requests gets the same answers and ends with the same bucket. *)
Lemma allowRequests_isolated (c c' : string) clock clock' buckets :
  c <> c' ->
  (allowRequests c' clock' (allowRequests c clock buckets).2).1
    = (allowRequests c' clock' buckets).1 /\
  (allowRequests c' clock' (allowRequests c clock buckets).2).2 !! c'
    = (allowRequests c' clock' buckets).2 !! c'.
Proof.
  intros Hne. apply allowRequests_local. now apply allowRequests_other.
Qed.

(** X10: [reset] forgets a client: whatever its bucket held, the next
    request (with a clock that did not step back between its two
    readings) is allowed and leaves a full bucket less one token. *)
Lemma reset_then_allowRequest (c : string) (created now : Z) buckets :
  (created <= now)%Z ->
  let r := allowRequest c created now (reset c buckets) in
  r.1 = true /\
  exists b, r.2 !! c = Some b /\
            tokens b == capacity - 1 /\ lastRefillTime b = now.
Proof.
  intros Ht r. subst r.
  assert (Hb : bucketOf c created (reset c buckets) = mkBucket capacity created)
    by (unfold bucketOf, reset; now rewrite lookup_delete_eq).
  assert (E : tokens (refillBucket now (bucketOf c created (reset c buckets)))
              == capacity).
  { rewrite Hb. cbn [refillBucket tokens lastRefillTime].
    apply Q.min_l.
    pose proof (tokensToAdd_nonneg (now - created) ltac:(lia)). lra. }
  destruct (allowRequest_spec c created now (reset c buckets)) as [Hok _].
  rewrite Hok by (rewrite E; vm_compute; discriminate).
  cbn [fst snd]. split; [reflexivity|].
  eexists. rewrite lookup_insert_eq. split; [reflexivity|].
  cbn [tokens lastRefillTime]. split; [now rewrite E|reflexivity].
Qed.

Lemma tokensToAdd_scaled (d : Z) :
  inject_Z d / refillInterval * refillRate == inject_Z d * (1 # 100).
Proof. unfold refillInterval, refillRate. field. Qed.

Lemma allowed_cons (ok : bool) (oks : list bool) :
  allowed (ok :: oks) = ((if ok then 1 else 0) + allowed oks)%nat.
Proof. unfold allowed. cbn [List.filter]. now destruct ok. Qed.

(** One call never hands out more than the bucket held plus what the
    elapsed time refilled. *)
Lemma allowRequest_budget (c : string) (created now : Z) buckets :
  let b0 := bucketOf c created buckets in
  0 <= tokens b0 -> (lastRefillTime b0 <= now)%Z ->
  let r := allowRequest c created now buckets in
  exists b', r.2 !! c = Some b' /\ lastRefillTime b' = now /\
    0 <= tokens b' /\
    inject_Z (Z.of_nat (allowed [r.1])) + tokens b' <=
      tokens b0 + inject_Z (now - lastRefillTime b0)
                  / refillInterval * refillRate.
Proof.
  intros b0 H0 Ht r. subst r.
  pose proof (refillBucket_nonneg now b0 Ht H0) as Hn.
  assert (Hle : tokens (refillBucket now b0) <=
                tokens b0 + inject_Z (now - lastRefillTime b0)
                            / refillInterval * refillRate)
    by (cbn [refillBucket tokens]; apply Q.le_min_r).
  destruct (allowRequest_spec c created now buckets) as [Hok Hdeny].
  fold b0 in Hok, Hdeny.
  destruct (Qlt_le_dec (tokens (refillBucket now b0)) 1) as [Hlt|Hge].
  - rewrite (Hdeny Hlt). cbn [fst snd]. rewrite lookup_insert_eq.
    eexists. split; [reflexivity|]. split; [reflexivity|].
    split; [exact Hn|]. change (inject_Z (Z.of_nat (allowed [false]))) with 0.
    lra.
  - rewrite (Hok Hge). cbn [fst snd]. rewrite lookup_insert_eq.
    eexists. split; [reflexivity|]. split; [reflexivity|].
    cbn [tokens]. split; [lra|].
    change (inject_Z (Z.of_nat (allowed [true]))) with 1. lra.
Qed.

Lemma lastReading_cons (t t' : Z * Z) clock :
  lastReading t (t' :: clock) = lastReading t' clock.
Proof.
  unfold lastReading. f_equal. revert t'.
  induction clock as [|a clock IH]; intros t'; [reflexivity|].
  cbn [List.last] in *. destruct clock; [reflexivity|]. apply IH.
Qed.

Lemma allowRequests_budget clock :
  forall (c : string) (t : Z * Z) buckets,
  let b0 := bucketOf c t.1 buckets in
  0 <= tokens b0 -> (lastRefillTime b0 <= t.2)%Z ->
  monotone t.2 clock ->
  let r := allowRequests c (t :: clock) buckets in
  exists b', r.2 !! c = Some b' /\
    lastRefillTime b' = lastReading t clock /\
    0 <= tokens b' /\
    inject_Z (Z.of_nat (allowed r.1)) + tokens b' <=
      tokens b0 + inject_Z (lastReading t clock - lastRefillTime b0)
                  / refillInterval * refillRate.
Proof.
  induction clock as [|t' clock IH]; intros c t buckets b0 H0 Ht Hm r; subst r.
  - cbn [allowRequests].
    destruct (allowRequest_budget c t.1 t.2 buckets H0 Ht)
      as (b' & Hb' & Hl & Hn & Hsum).
    destruct (allowRequest c t.1 t.2 buckets) as [ok b1]. cbn [fst snd] in *.
    exists b'. unfold lastReading. cbn [List.last snd]. now repeat split.
  - cbn [monotone] in Hm. destruct Hm as (Hm1 & Hm2 & Hm).
    change (allowRequests c (t :: t' :: clock) buckets)
      with (let '(ok, buckets1) := allowRequest c t.1 t.2 buckets in
            let '(oks, buckets2) := allowRequests c (t' :: clock) buckets1 in
            (ok :: oks, buckets2)).
    destruct (allowRequest_budget c t.1 t.2 buckets H0 Ht)
      as (b1 & Hb1 & Hl1 & Hn1 & Hsum1).
    destruct (allowRequest c t.1 t.2 buckets) as [ok bs1]. cbn [fst snd] in *.
    assert (E1 : bucketOf c t'.1 bs1 = b1) by (unfold bucketOf; now rewrite Hb1).
    destruct (IH c t' bs1) as (b' & Hb' & Hl & Hn & Hsum);
      [rewrite E1; exact Hn1|rewrite E1, Hl1; lia|exact Hm|].
    rewrite E1 in Hsum.
    destruct (allowRequests c (t' :: clock) bs1) as [oks bs2].
    cbn [fst snd] in *.
    exists b'. rewrite lastReading_cons. split; [exact Hb'|].
    split; [exact Hl|]. split; [exact Hn|].
    rewrite allowed_cons, Nat2Z.inj_add, inject_Z_plus.
    rewrite allowed_cons in Hsum1. change (allowed []) with 0%nat in Hsum1.
    rewrite Nat.add_0_r in Hsum1.
    rewrite tokensToAdd_scaled in *. rewrite Hl1 in Hsum.
    subst b0. set (L := lastReading t' clock) in *.
    set (k := inject_Z (Z.of_nat (if ok then 1 else 0))) in *.
    unfold Zminus in *. rewrite !inject_Z_plus, !inject_Z_opp in *. lra.
Qed.

(** X11: the rate the limiter enforces. Over any run of requests of one
    client on a clock that does not step back, the number of requests
    allowed is at most the tokens the client held when the run began
    plus 10 per second elapsed since its last refill; for a client
    without a bucket that is at most 100 plus 10 per second. *)
Lemma allowRequests_rate_bound (c : string) (t : Z * Z) clock buckets :
  let b0 := bucketOf c t.1 buckets in
  0 <= tokens b0 -> (lastRefillTime b0 <= t.2)%Z ->
  monotone t.2 clock ->
  let n := allowed (allowRequests c (t :: clock) buckets).1 in
  inject_Z (Z.of_nat n) <=
    tokens b0 + inject_Z (lastReading t clock - lastRefillTime b0)
                / refillInterval * refillRate /\
  (buckets !! c = None ->
   inject_Z (Z.of_nat n) <=
     capacity + inject_Z (lastReading t clock - t.1)
                / refillInterval * refillRate).
Proof.
  intros b0 H0 Ht Hm n.
  destruct (allowRequests_budget clock c t buckets H0 Ht Hm)
    as (b' & _ & _ & Hn & Hsum).
  fold b0 in Hsum. fold n in Hsum.
  assert (H1 : inject_Z (Z.of_nat n) <=
               tokens b0 + inject_Z (lastReading t clock - lastRefillTime b0)
                           / refillInterval * refillRate) by lra.
  split; [exact H1|].
  intros Hnone. subst b0. unfold bucketOf in H1. rewrite Hnone in H1.
  exact H1.
Qed.

(** X12: a 429 of [rateLimitMiddleware] always tells the client to
    retry after 1 second: when the request is denied on a clock that
    did not step back, the refilled bucket holds less than one token,
    and the deficit over the refill rate rounds up to 1. *)
Lemma rateLimitMiddleware_retryAfter (ip : option string)
    (t0 created now : Z) buckets (status : Z) (retryAfter : option Z)
    buckets' :
  (forall b, buckets !! Middleware.clientIdOf ip = Some b -> bucket_ok t0 b) ->
  (t0 <= created)%Z -> (created <= now)%Z ->
  Middleware.rateLimitMiddleware ip created now buckets
    = (Middleware.Respond status retryAfter, buckets') ->
  status = 429%Z /\ retryAfter = Some 1%Z /\
  (allowRequest (Middleware.clientIdOf ip) created now buckets).1 = false.
Proof.
  intros Hinv H0 H1 Hres. unfold Middleware.rateLimitMiddleware in Hres.
  set (c := Middleware.clientIdOf ip) in *.
  set (old := bucketOf c created buckets).
  assert (Hold : 0 <= tokens old /\ (lastRefillTime old <= now)%Z).
  { subst old. unfold bucketOf. destruct (buckets !! c) as [b|] eqn:E.
    - destruct (Hinv b eq_refl) as [[Hb _] Hl]. split; [exact Hb|lia].
    - cbn. split; [unfold capacity; lra|lia]. }
  destruct Hold as [Hlo Hl].
  pose proof (refillBucket_nonneg now old Hl Hlo) as Hn.
  destruct (allowRequest_spec c created now buckets) as [Hok Hdeny].
  fold old in Hok, Hdeny.
  destruct (Qlt_le_dec (tokens (refillBucket now old)) 1) as [Hlt|Hge].
  - rewrite (Hdeny Hlt) in *. cbn [negb fst] in *.
    injection Hres as <- <- <-. split; [reflexivity|]. split; [|reflexivity].
    f_equal. unfold getRetryAfter. rewrite lookup_insert_eq.
    apply Qceiling_between; rewrite deficit_scaled.
    + change (inject_Z (1 - 1)) with 0. lra.
    + change (inject_Z 1) with 1. lra.
  - rewrite (Hok Hge) in Hres. cbn [negb] in Hres. discriminate.
Qed.

End LimiterUse.

(** ** CacheService: [invalidate] and [getOrSet] *)
Section CacheUse.
Import Cache.

Variable V : Type.
Variable truthy : V -> bool.

Implicit Types (cache : gmap string (Item V)) (key ns p : string) (v : V).

Lemma string_app_assoc (a b c : string) :
  (a +:+ b) +:+ c = a +:+ b +:+ c.
Proof.
  induction a as [|x a IH]; [reflexivity|].
  change (String x ((a +:+ b) +:+ c) = String x (a +:+ b +:+ c)).
  now rewrite IH.
Qed.

Lemma startsWith_spec (s p : string) :
  Js.startsWith s p = true <-> exists b, s = p +:+ b.
Proof.
  revert s. induction p as [|c p IH]; intros s.
  - split; [intros _; now exists s|intros _; now destruct s].
  - destruct s as [|d s]; cbn [Js.startsWith].
    + split; [discriminate|intros [b Hb]; discriminate].
    + destruct (Ascii.eqb_spec c d) as [->|Hne].
      * rewrite IH. split; intros [b Hb]; exists b.
        -- now rewrite Hb.
        -- change (String d s = String d (p +:+ b)) in Hb. now injection Hb.
      * split; [discriminate|]. intros [b Hb].
        change (String d s = String c (p +:+ b)) in Hb. injection Hb as Hc _.
        now subst.
Qed.

(** [includes] finds the pattern wherever it occurs, and nowhere
    else. *)
Lemma includes_spec (s p : string) :
  Js.includes s p = true <-> exists a b, s = a +:+ p +:+ b.
Proof.
  induction s as [|d s IH]; cbn [Js.includes]; rewrite orb_true_iff.
  - rewrite startsWith_spec. split.
    + intros [[b Hb]|H]; [|discriminate]. now exists "", b.
    + intros (a & b & H). left. exists b.
      destruct a; [exact H|discriminate].
  - rewrite startsWith_spec, IH. split.
    + intros [[b Hb]|(a & b & H)].
      * now exists "", b.
      * exists (String d a), b. now rewrite H.
    + intros (a & b & H). destruct a as [|x a].
      * left. now exists b.
      * right. exists a, b.
        change (String d s = String x (a +:+ p +:+ b)) in H. now injection H.
Qed.

Lemma invalidate_contains (p key : string) cache :
  p <> "" -> (exists a b, key = a +:+ p +:+ b) ->
  invalidate (Some p) cache !! key = None.
Proof.
  intros Hp H. unfold invalidate.
  destruct (String.eqb_spec p "") as [E|_]; [contradiction|].
  apply map_lookup_filter_None. right. intros x _. cbn [fst].
  apply includes_spec in H. now rewrite H.
Qed.

Lemma invalidate_others (p key : string) cache :
  p <> "" -> (~ exists a b, key = a +:+ p +:+ b) ->
  invalidate (Some p) cache !! key = cache !! key.
Proof.
  intros Hp H. unfold invalidate.
  destruct (String.eqb_spec p "") as [E|_]; [contradiction|].
  destruct (cache !! key) as [x|] eqn:Ek.
  - apply map_lookup_filter_Some. split; [exact Ek|]. cbn [fst].
    destruct (Js.includes key p) eqn:Ei; [|reflexivity].
    apply includes_spec in Ei. contradiction.
  - apply map_lookup_filter_None. now left.
Qed.

(** X13: [invalidate(pattern)] with a non-empty pattern deletes an
    entry exactly when its key contains the pattern somewhere, and
    leaves every other entry as it was; without a pattern, or with the
    empty one, it empties the cache. *)
Lemma invalidate_spec (pattern : option string) key cache :
  (pattern = None \/ pattern = Some "" -> invalidate pattern cache = ∅) /\
  (forall p, pattern = Some p -> p <> "" ->
     ((exists a b, key = a +:+ p +:+ b) ->
        invalidate pattern cache !! key = None) /\
     ((~ exists a b, key = a +:+ p +:+ b) ->
        invalidate pattern cache !! key = cache !! key)).
Proof.
  split.
  - intros [->| ->]; reflexivity.
  - intros p -> Hp. split; intros H.
    + now apply invalidate_contains.
    + now apply invalidate_others.
Qed.

(** X14: after [invalidate(ns)] nothing written under the namespace
    [ns] is left, whatever the keys; and a [get] of such a final key
    misses. *)
Lemma invalidate_namespace key ns v (t : option Q) (now later : Z) cache :
  ns <> "" ->
  let written := set key v (mkOptions t (Some ns)) now cache in
  written !! finalKey key (mkOptions t (Some ns))
    = Some (mkItem v (inject_Z now
                      + effectiveTtl (mkOptions t (Some ns)) * 1000)%Q) /\
  invalidate (Some ns) written !! finalKey key (mkOptions t (Some ns)) = None /\
  (get (finalKey key (mkOptions t (Some ns))) later
     (invalidate (Some ns) written)).1 = None.
Proof.
  intros Hns written.
  assert (Hin : exists a b,
            finalKey key (mkOptions t (Some ns)) = a +:+ ns +:+ b).
  { exists "", (":" +:+ key). unfold finalKey, nsPrefix. cbn [namespace].
    destruct (String.eqb_spec ns "") as [E|_]; [contradiction|].
    change ("" +:+ ns +:+ ":" +:+ key) with (ns +:+ ":" +:+ key).
    apply string_app_assoc. }
  pose proof (invalidate_contains ns _ written Hns Hin) as Hdel.
  split; [apply lookup_insert_eq|]. split; [exact Hdel|].
  unfold get. now rewrite Hdel.
Qed.

(** X15: without a namespace [getOrSet] caches: on a key that is not
    in the cache the first call invokes its compute function and, when
    the value is truthy, a second call made before the entry expires
    answers with that value and does not invoke its own. *)
Lemma getOrSet_hit key (fn1 fn2 : V) (t : option Q) (now now' later later' : Z)
    cache :
  cache !! key = None -> truthy fn1 = true ->
  (inject_Z later
   <= inject_Z now' + effectiveTtl (mkOptions t None) * 1000)%Q ->
  let r1 := getOrSet V truthy key fn1 (mkOptions t None) now now' cache in
  let r2 := getOrSet V truthy key fn2 (mkOptions t None) later later'
              (cacheAfter r1) in
  invoked r1 = true /\ resolved r1 = fn1 /\
  invoked r2 = false /\ resolved r2 = fn1 /\ cacheAfter r2 = cacheAfter r1.
Proof.
  intros Hk Ht Hl r1 r2. subst r2 r1.
  assert (R1 : getOrSet V truthy key fn1 (mkOptions t None) now now' cache
               = mkGetOrSet V fn1 true
                   (set key fn1 (mkOptions t None) now' cache))
    by (unfold getOrSet; now rewrite (get_absent _ _ _ _ Hk)).
  rewrite R1. cbn [invoked resolved cacheAfter].
  unfold getOrSet.
  rewrite (get_live V key later _
             (mkItem fn1 (inject_Z now'
                          + effectiveTtl (mkOptions t None) * 1000)%Q)).
  - cbn [value]. rewrite Ht. repeat split.
  - unfold set. rewrite finalKey_bare. apply lookup_insert_eq.
  - exact Hl.
Qed.

(** X16: a falsy value is never served from the cache: in a run of
    [getOrSet] calls on one key without a namespace whose compute
    functions all give falsy values, every call invokes its compute
    function, however fresh the stored entry is. *)
Lemma getOrSet_falsy_recomputes key (t : option Q)
    (calls : list (V * Z * Z)) :
  Forall (fun call => truthy call.1.1 = false) calls ->
  forall cache,
  (forall item, cache !! key = Some item -> truthy (value item) = false) ->
  (getOrSets V truthy key (mkOptions t None) calls cache).1
    = replicate (length calls) true.
Proof.
  induction 1 as [|[[fn now] now'] calls Hfn _ IH]; intros cache Hc;
    [reflexivity|].
  cbn [getOrSets length replicate]. cbn [fst] in Hfn.
  assert (Hr : invoked (getOrSet V truthy key fn (mkOptions t None) now now' cache)
               = true /\
               forall item,
                 cacheAfter (getOrSet V truthy key fn (mkOptions t None)
                               now now' cache) !! key = Some item ->
                 truthy (value item) = false).
  { unfold getOrSet, get.
    assert (Hset : forall c0 item,
              set key fn (mkOptions t None) now' c0 !! key = Some item ->
              truthy (value item) = false).
    { intros c0 item. unfold set. rewrite finalKey_bare, lookup_insert_eq.
      intros [= <-]. exact Hfn. }
    destruct (cache !! key) as [item|] eqn:Ek.
    - destruct (Qgtb _ _); cbn [invoked cacheAfter].
      + split; [reflexivity|apply Hset].
      + rewrite (Hc item eq_refl). cbn [invoked cacheAfter].
        split; [reflexivity|apply Hset].
    - cbn [invoked cacheAfter]. split; [reflexivity|apply Hset]. }
  destruct Hr as [Hi Hc'].
  specialize (IH _ Hc').
  destruct (getOrSets V truthy key _ calls _) as [flags cache'].
  cbn [fst] in *. now rewrite Hi, IH.
Qed.

End CacheUse.

(** ** BaseProviderService: the normalised quote *)
Section NormalizeFacts.
Import ProviderService.
Local Open Scope Q_scope.

Lemma orNum_zero_default (a : option Q) :
  orNum a 0 == 0 <-> (a = None \/ exists x, a = Some x /\ x == 0).
Proof.
  unfold orNum, js_or. destruct a as [x|].
  - destruct (Qeq_bool x 0) eqn:E.
    + apply Qeq_bool_iff in E. split; [intros _; right; now exists x|reflexivity].
    + split.
      * intros H. apply Qeq_bool_iff in H. congruence.
      * intros [H|(y & [= <-] & Hy)]; [discriminate|].
        apply Qeq_bool_iff in Hy. congruence.
  - split; [now left|reflexivity].
Qed.

Lemma orNum_nonzero (a : option Q) (d : Q) :
  ~ d == 0 -> ~ orNum a d == 0.
Proof.
  intros Hd. unfold orNum, js_or. destruct a as [x|]; [|exact Hd].
  destruct (Qeq_bool x 0) eqn:E; [exact Hd|].
  intros H. apply Qeq_bool_iff in H. congruence.
Qed.


End NormalizeFacts.

(** ** aggregatorService.searchAll: the badges *)
Section BadgeFacts.
Import Aggregator.

Variable parseInt : string -> option Z.

Abbreviation eta := (Aggregator.eta parseInt).

Lemma nan_ltb_irrefl (a : option Z) : nan_ltb a a = false.
Proof. destruct a; cbn; [apply Z.ltb_irrefl|reflexivity]. Qed.

Lemma nan_ltb_asym (a b : option Z) :
  nan_ltb a b = true -> nan_ltb b a = false.
Proof.
  destruct a, b; cbn; try discriminate.
  rewrite Z.ltb_lt, Z.ltb_ge. lia.
Qed.

Lemma nan_ltb_trans (a b c : option Z) :
  nan_ltb a b = true -> nan_ltb b c = true -> nan_ltb a c = true.
Proof.
  destruct a, b, c; cbn; try discriminate.
  rewrite !Z.ltb_lt. lia.
Qed.

(** Not below something that is below: not below. *)
Lemma nan_ltb_above (y a b : option Z) :
  nan_ltb y b = false -> nan_ltb a b = true -> nan_ltb y a = false.
Proof.
  destruct y, a, b; cbn; try discriminate; try reflexivity.
  rewrite !Z.ltb_ge, Z.ltb_lt. lia.
Qed.

(** The reduce from an accumulator [acc] over the elements [l], which
    sit at the indices from [k] on: it ends on [acc] or on an element
    strictly faster than [acc], and nothing in [l] is strictly faster
    than where it ends. *)
Lemma fold_pickFaster (l : list PriceComparison) :
  forall (k : nat) (acc : nat * PriceComparison),
  let r := fold_left (pickFaster parseInt)
             (imap (fun i x => ((k + i)%nat, x)) l) acc in
  (r = acc \/
   exists i x, l !! i = Some x /\ r = ((k + i)%nat, x) /\
               nan_ltb (eta x) (eta acc.2) = true) /\
  (forall j y, l !! j = Some y -> nan_ltb (eta y) (eta r.2) = false).
Proof.
  induction l as [|y l IH]; intros k acc r; subst r.
  - cbn. split; [now left|]. intros j y Hj. discriminate.
  - rewrite imap_cons. cbn [fold_left].
    assert (Eim : imap ((fun i x => ((k + i)%nat, x)) ∘ S) l
                  = imap (fun i x => ((S k + i)%nat, x)) l).
    { apply imap_ext. intros i x _. cbn. f_equal. lia. }
    rewrite Eim.
    assert (Hp : pickFaster parseInt acc ((k + 0)%nat, y)
                 = if nan_ltb (eta y) (eta acc.2)
                   then ((k + 0)%nat, y) else acc) by reflexivity.
    rewrite Hp. destruct (nan_ltb (eta y) (eta acc.2)) eqn:Ey.
    + (* [y] replaces the accumulator *)
      destruct (IH (S k) ((k + 0)%nat, y)) as [IH1 IH2].
      set (r := fold_left _ _ _) in *. cbn [snd] in IH1.
      split.
      * right. destruct IH1 as [->|(i & x & Hi & -> & Hx)].
        -- exists 0%nat, y. now repeat split.
        -- exists (S i), x. split; [exact Hi|].
           split; [f_equal; lia|]. now apply nan_ltb_trans with (eta y).
      * intros [|j] z Hj; [|now apply (IH2 j z)].
        injection Hj as <-.
        destruct IH1 as [->|(i & x & _ & -> & Hx)];
          [apply nan_ltb_irrefl|]. cbn [snd]. now apply nan_ltb_asym.
    + (* the accumulator stays *)
      destruct (IH (S k) acc) as [IH1 IH2].
      set (r := fold_left _ _ _) in *.
      split.
      * destruct IH1 as [->|(i & x & Hi & -> & Hx)]; [now left|].
        right. exists (S i), x. split; [exact Hi|].
        split; [f_equal; lia|exact Hx].
      * intros [|j] z Hj; [|now apply (IH2 j z)].
        injection Hj as <-.
        destruct IH1 as [->|(i & x & _ & -> & Hx)]; [exact Ey|].
        cbn [snd]. now apply nan_ltb_above with (eta acc.2).
Qed.

Lemma unbadged_fixed (x : PriceComparison) :
  unbadged x = x ->
  isCheapest x = false /\ isFastest x = false /\ badge x = None.
Proof.
  intros H. rewrite <- H. now repeat split.
Qed.

(** X18: the badges. When the merged quotes carry no badge and there
    is at least one, [searchAll] returns a list whose first element,
    and no other, is marked cheapest. Either no element is marked
    fastest, and then no other quote is strictly faster than the first;
    or exactly one element after the first is, it is strictly faster
    than the first, and no quote in the list is strictly faster than
    it. "Faster" compares [parseInt(deliveryETA)], and nothing is
    faster than, or slower than, a time that does not parse. *)
Lemma searchAll_badges (query : string) (lat lng : Q)
    (providers : list ProviderGateway) :
  let merged := mergeFulfilled (map (fun p => p query lat lng) providers) in
  merged <> [] ->
  Forall (fun x => unbadged x = x) merged ->
  exists first rest,
    searchAll parseInt query lat lng providers = Returned (first :: rest) /\
    isCheapest first = true /\ badge first = Some Cheapest /\
    isFastest first = false /\
    Forall (fun x => isCheapest x = false) rest /\
    ((Forall (fun x => isFastest x = false /\ badge x = None) rest /\
      Forall (fun x => nan_ltb (eta x) (eta first) = false) rest) \/
     (exists i fastest,
        rest !! i = Some fastest /\
        isFastest fastest = true /\ badge fastest = Some Fastest /\
        (forall j x, j <> i -> rest !! j = Some x ->
           isFastest x = false /\ badge x = None) /\
        nan_ltb (eta fastest) (eta first) = true /\
        Forall (fun x => nan_ltb (eta x) (eta fastest) = false)
               (first :: rest))).
Proof.
  intros merged Hne Hun. unfold searchAll. fold merged.
  assert (Hs : Forall (fun x => unbadged x = x) (sortByEffectivePrice merged)).
  { now rewrite sortByEffectivePrice_perm. }
  destruct (sortByEffectivePrice merged) as [|x0 l] eqn:Es.
  { apply (proj1 (sortByEffectivePrice_nil _)) in Es. now apply Hne in Es. }
  change (0 <? length (x0 :: l))%nat with true. cbv iota.
  change (alter markCheapest 0%nat (x0 :: l)) with (markCheapest x0 :: l).
  inversion Hs as [|? ? Hx0 Hl]; subst.
  destruct (unbadged_fixed x0 Hx0) as (_ & Hf0 & _).
  assert (Hrest : forall x, x ∈ l ->
            isCheapest x = false /\ isFastest x = false /\ badge x = None).
  { intros x Hx. apply unbadged_fixed. rewrite Forall_forall in Hl.
    now apply Hl. }
  unfold withIndex. rewrite imap_cons. cbn [reduce].
  assert (Eim : imap ((fun i x => (i, x)) ∘ S) l
                = imap (fun i x => ((1 + i)%nat, x)) l)
    by (apply imap_ext; now intros).
  rewrite Eim.
  destruct (fold_pickFaster l 1%nat (0%nat, markCheapest x0)) as [H1 H2].
  set (r := fold_left _ _ _) in *. cbn [snd] in H1.
  destruct H1 as [Hr|(i & xf & Hi & Hr & Hx)]; rewrite Hr in *; cbn [fst snd] in *.
  - (* the first element is as fast as any *)
    exists (markCheapest x0), l. cbn [Nat.eqb negb].
    split; [reflexivity|]. split; [reflexivity|]. split; [reflexivity|].
    split; [exact Hf0|]. split.
    { apply Forall_forall. intros x Hx. now apply Hrest. }
    left. split.
    + apply Forall_forall. intros x Hx. destruct (Hrest x Hx) as (_ & ? & ?).
      now split.
    + apply Forall_forall. intros x Hx.
      apply list_elem_of_lookup in Hx. destruct Hx as [j Hj].
      now apply (H2 j).
  - (* a later element is strictly faster *)
    exists (markCheapest x0), (alter markFastest i l).
    split; [reflexivity|]. split; [reflexivity|]. split; [reflexivity|].
    split; [exact Hf0|].
    assert (Hxf : xf ∈ l) by (apply list_elem_of_lookup; now exists i).
    split.
    { apply Forall_forall. intros x Hin.
      apply list_elem_of_lookup in Hin. destruct Hin as [j Hj].
      destruct (decide (i = j)) as [<-|Hij].
      - rewrite list_lookup_alter_eq, Hi in Hj. injection Hj as <-.
        cbn. now apply Hrest.
      - rewrite list_lookup_alter_ne in Hj by exact Hij.
        apply Hrest. apply list_elem_of_lookup. now exists j. }
    right. exists i, (markFastest xf).
    split; [now rewrite list_lookup_alter_eq, Hi|].
    split; [reflexivity|]. split; [reflexivity|]. split.
    { intros j x Hji Hj. rewrite list_lookup_alter_ne in Hj by congruence.
      destruct (Hrest x) as (_ & ? & ?); [|now split].
      apply list_elem_of_lookup. now exists j. }
    split; [exact Hx|].
    constructor; [now apply nan_ltb_asym|].
    apply Forall_forall. intros x Hin.
    apply list_elem_of_lookup in Hin. destruct Hin as [j Hj].
    destruct (decide (i = j)) as [<-|Hij].
    + rewrite list_lookup_alter_eq, Hi in Hj. injection Hj as <-.
      apply nan_ltb_irrefl.
    + rewrite list_lookup_alter_ne in Hj by exact Hij. now apply (H2 j).
Qed.

End BadgeFacts.

(** ** The search route *)
Section RouteFacts.
Import SearchRoute.

Variable parseInt : string -> option Z.

Implicit Types (redis : gmap string (SearchResults * Z)).

(** Past the validation, a request is answered from the cache or not
    at all. *)
Lemma search_hit_or_throw (validationData : Params) (up up' : bool) (now : Z)
    redis :
  let key := RedisCache.getCacheKey (q validationData) (lat validationData)
               (lng validationData) in
  search parseInt validationData up up' now redis =
    match RedisCache.get up key now redis with
    | Some cached =>
        (Returned (mkResponse 200 (Success (markHit cached))), redis)
    | None =>
        (Thrown (Aggregator.TypeError
                   "Reduce of empty array with no initial value"), redis)
    end.
Proof.
  intros key. unfold search. fold key.
  destruct (RedisCache.get up key now redis); [reflexivity|].
  now rewrite searchAll_empty_throws.
Qed.

Lemma handle_keeps_redis
    (r : Method * Completion RequestError Params * bool * bool * Z) redis :
  (handle parseInt r redis).2 = redis.
Proof.
  destruct r as [[[[m request] up] up'] now]. unfold handle, GET, POST.
  destruct m, request as [validationData|[|]]; try reflexivity;
    rewrite search_hit_or_throw; cbv zeta;
    now destruct (RedisCache.get _ _ _ _).
Qed.

(** X19: the search handlers never write the cache, and with nothing
    cached they never answer a search: starting from an empty Redis,
    every request of any run is answered 500 "Internal server error",
    but for a [GET] with invalid parameters, which is answered 400 (a
    [POST] with invalid parameters gets 500 too), and Redis is still
    empty afterwards. *)
Lemma serve_cold
    (rs : list (Method * Completion RequestError Params * bool * bool * Z)) :
  serve parseInt rs ∅ =
    (map (fun r => coldAnswer r.1.1.1.1 r.1.1.1.2) rs, ∅).
Proof.
  induction rs as [|r rs IH]; [reflexivity|].
  cbn [serve map].
  pose proof (handle_keeps_redis r ∅) as Hk.
  assert (Ha : (handle parseInt r ∅).1 = coldAnswer r.1.1.1.1 r.1.1.1.2).
  { destruct r as [[[[m request] up] up'] now]. cbn [fst snd].
    unfold handle, GET, POST, coldAnswer.
    destruct m, request as [validationData|[|]]; try reflexivity;
      rewrite search_hit_or_throw; cbv zeta;
      unfold RedisCache.get; rewrite lookup_empty; now destruct up. }
  destruct (handle parseInt r ∅) as [resp redis1]. cbn [fst snd] in *.
  subst. now rewrite IH.
Qed.


End RouteFacts.

(** ** cacheService.getCacheKey *)
Section CacheKeyFacts.
Local Open Scope Q_scope.

(** Everything within half a unit below and above an integer rounds
    to it, the upper end excluded. *)
Lemma mathRound_cell (x : Q) (n : Z) :
  Js.mathRound x = n <-> inject_Z n - (1 # 2) <= x < inject_Z n + (1 # 2).
Proof.
  unfold Js.mathRound.
  pose proof (Qfloor_le (x + (1 # 2))) as H1.
  pose proof (Qlt_floor (x + (1 # 2))) as H2.
  rewrite inject_Z_plus in H2. change (inject_Z 1) with 1 in H2.
  split.
  - intros <-. lra.
  - intros [Hlo Hhi].
    assert (A : inject_Z (Qfloor (x + (1 # 2))) < inject_Z (n + 1)).
    { rewrite inject_Z_plus. change (inject_Z 1) with 1. lra. }
    assert (B : inject_Z n < inject_Z (Qfloor (x + (1 # 2)) + 1)).
    { rewrite inject_Z_plus. change (inject_Z 1) with 1. lra. }
    rewrite <- Zlt_Qlt in A, B. lia.
Qed.

Lemma numberToString_inj (a b : Z) :
  Js.numberToString a = Js.numberToString b -> a = b.
Proof.
  unfold Js.numberToString. intros H.
  assert (Hn : forall z, Z.to_int z <> Pos Nil /\ Z.to_int z <> Neg Nil).
  { intros [|p|p]; cbn; split; try discriminate;
      intros [= E]; now apply Unsigned.to_uint_nonnil in E. }
  apply to_int_inj.
  destruct (Hn a) as [Ha1 Ha2], (Hn b) as [Hb1 Hb2].
  pose proof (NilZero.isi _ Ha1 Ha2) as Ia.
  pose proof (NilZero.isi _ Hb1 Hb2) as Ib.
  rewrite H in Ia. rewrite Ia in Ib. now injection Ib.
Qed.

Lemma includes_cons (c : Ascii.ascii) (s : string) (d : Ascii.ascii) :
  Js.includes (String c s) (String d "")
  = (Ascii.eqb d c || Js.includes s (String d ""))%bool.
Proof. cbn [Js.includes Js.startsWith]. now destruct (Ascii.eqb d c), s. Qed.

Lemma string_of_uint_no_colon (d : uint) :
  Js.includes (NilEmpty.string_of_uint d) ":" = false.
Proof.
  induction d; cbn [NilEmpty.string_of_uint]; [reflexivity|..];
    rewrite includes_cons, IHd; reflexivity.
Qed.

Lemma numberToString_no_colon (z : Z) :
  Js.includes (Js.numberToString z) ":" = false.
Proof.
  unfold Js.numberToString, NilZero.string_of_int, NilZero.string_of_uint.
  destruct (Z.to_int z) as [d|d]; [|rewrite includes_cons];
    destruct d; try reflexivity;
    exact (string_of_uint_no_colon _).
Qed.

Lemma string_app_inv_head (p x y : string) : p +:+ x = p +:+ y -> x = y.
Proof.
  induction p as [|c p IH]; [trivial|].
  change (String c (p +:+ x) = String c (p +:+ y) -> x = y).
  intros [= H]. now apply IH.
Qed.

(** A string is split in one way only at its last colon. *)
Lemma split_last_colon (s1 s2 d1 d2 : string) :
  Js.includes d1 ":" = false -> Js.includes d2 ":" = false ->
  s1 +:+ ":" +:+ d1 = s2 +:+ ":" +:+ d2 -> s1 = s2 /\ d1 = d2.
Proof.
  intros H1 H2. revert s2.
  induction s1 as [|c s1 IH]; intros [|c' s2] E.
  - split; [reflexivity|]. now apply (string_app_inv_head ":").
  - exfalso. change (String ":" d1 = String c' (s2 +:+ ":" +:+ d2)) in E.
    injection E as _ E.
    assert (Hin : Js.includes d1 ":" = true)
      by (apply includes_spec; now exists s2, d2).
    congruence.
  - exfalso. change (String c (s1 +:+ ":" +:+ d1) = String ":" d2) in E.
    injection E as _ E.
    assert (Hin : Js.includes d2 ":" = true)
      by (apply includes_spec; now exists s1, d1).
    congruence.
  - change (String c (s1 +:+ ":" +:+ d1) = String c' (s2 +:+ ":" +:+ d2)) in E.
    injection E as -> E. destruct (IH _ E) as [-> ->]. now split.
Qed.

(** X21: two searches use the same cache key exactly when their
    queries are equal and their latitudes and longitudes round to the
    same integers: every position from half a degree below a whole
    degree up to, not including, half a degree above it shares the
    entry, and no two different queries ever do. *)
Lemma getCacheKey_shared (q q' : string) (lat lng lat' lng' : Q) :
  (RedisCache.getCacheKey q lat lng = RedisCache.getCacheKey q' lat' lng' <->
   q = q' /\ Js.mathRound lat = Js.mathRound lat'
          /\ Js.mathRound lng = Js.mathRound lng') /\
  (forall (x : Q) (n : Z),
     Js.mathRound x = n <-> inject_Z n - (1 # 2) <= x < inject_Z n + (1 # 2)).
Proof.
  split; [|exact mathRound_cell].
  unfold RedisCache.getCacheKey. split.
  - intros E. apply string_app_inv_head in E.
    rewrite <- !(string_app_assoc q), <- !(string_app_assoc q') in E.
    rewrite <- !(string_app_assoc (q +:+ ":")),
            <- !(string_app_assoc (q' +:+ ":")) in E.
    rewrite !string_app_assoc in E.
    rewrite <- (string_app_assoc q ":"), <- (string_app_assoc q' ":") in E.
    rewrite <- (string_app_assoc (q +:+ ":")),
            <- (string_app_assoc (q' +:+ ":")) in E.
    apply split_last_colon in E; try apply numberToString_no_colon.
    destruct E as [E Eb]. rewrite !string_app_assoc in E.
    apply split_last_colon in E; try apply numberToString_no_colon.
    destruct E as [-> Ea].
    split; [reflexivity|]. split; now apply numberToString_inj.
  - intros (-> & -> & ->). reflexivity.
Qed.

End CacheKeyFacts.

(** ** DataTransformer *)
Section TransformerFacts.
Import DataTransformer.

(** Induction on plain data, through arrays and objects. *)
Lemma Json_induction (P : Json -> Prop) :
  P JNull -> (forall b, P (JBool b)) -> (forall n, P (JNum n)) ->
  (forall s, P (JStr s)) ->
  (forall items, Forall P items -> P (JArr items)) ->
  (forall props, Forall (fun kv => P kv.2) props -> P (JObj props)) ->
  forall data, P data.
Proof.
  intros Hnull Hbool Hnum Hstr Harr Hobj.
  fix IH 1. intros [|b|n|s|items|props].
  - exact Hnull.
  - apply Hbool.
  - apply Hnum.
  - apply Hstr.
  - apply Harr. induction items as [|v items IHl]; constructor;
      [apply IH|exact IHl].
  - apply Hobj. induction props as [|[k v] props IHl]; constructor;
      [apply IH|exact IHl].
Qed.

(** An assignment under one name leaves the own properties of every
    other name alone. *)
Lemma assignField_other (data : list (string * Json)) (acc : Picked)
    (field k : string) :
  k <> field -> own (assignField data acc field) !! k = own acc !! k.
Proof.
  intros Hne. unfold assignField.
  destruct (negb (String.eqb field "__proto__")); cbn [own];
    [now rewrite lookup_insert_ne|].
  destruct (own acc !! field); cbn [own]; [now rewrite lookup_insert_ne|].
  destruct (reachesSetter (proto acc)); cbn [own];
    [|now rewrite lookup_insert_ne].
  now destruct (ownProp field data) as [[]|].
Qed.

Lemma assignField_same (data : list (string * Json)) (acc : Picked)
    (field : string) :
  field <> "__proto__" ->
  own (assignField data acc field) !! field = Some (prop field data).
Proof.
  intros Hne. unfold assignField.
  destruct (String.eqb_spec field "__proto__") as [E|_]; [contradiction|].
  cbn [negb own]. apply lookup_insert_eq.
Qed.

(** With no own [__proto__] in the data, the object being built keeps
    [Object.prototype] and gets no own [__proto__]. *)
Lemma assignField_plain (data : list (string * Json)) (acc : Picked)
    (field : string) :
  ownProp "__proto__" data = None ->
  own acc !! "__proto__" = None /\ proto acc = ProtoObject ->
  own (assignField data acc field) !! "__proto__" = None /\
  proto (assignField data acc field) = ProtoObject.
Proof.
  intros Hd [Ho Hp]. unfold assignField.
  destruct (String.eqb_spec field "__proto__") as [->|Hne]; cbn [negb].
  - rewrite Ho, Hp. cbn [reachesSetter]. rewrite Hd. now split.
  - cbn [own proto]. split; [|exact Hp].
    rewrite lookup_insert_ne by exact Hne. exact Ho.
Qed.


(** X23: [omit] on a plain object returns the data without the listed
    fields and with every other property as it was, in the same order;
    fields the data does not have are ignored. A listed field is no own
    property of the result, so reading it gives what
    [Object.prototype] has under that name ([undefined] for most
    names); reading any other field gives what the data gives. *)
Lemma omit_spec (data : list (string * Json)) (fields : list string) :
  omit data fields
  = List.filter (fun kv => negb (bool_decide (kv.1 ∈ fields))) data /\
  (forall k, ownProp k (omit data fields)
             = if decide (k ∈ fields) then None else ownProp k data) /\
  (forall k, prop k (omit data fields)
             = if decide (k ∈ fields) then prop k [] else prop k data).
Proof.
  assert (H : omit data fields
              = List.filter (fun kv => negb (bool_decide (kv.1 ∈ fields))) data).
  { unfold omit. revert data.
    induction fields as [|f fields IH]; intros data; cbn [fold_left].
    - induction data as [|kv data IHd]; [reflexivity|].
      cbn [List.filter]. rewrite bool_decide_eq_false_2 by apply not_elem_of_nil.
      cbn. now rewrite <- IHd.
    - rewrite IH. clear IH.
      induction data as [|kv data IHd]; [reflexivity|].
      cbn [List.filter].
      destruct (String.eqb_spec kv.1 f) as [E|Hne]; cbn [negb].
      + rewrite IHd. rewrite (bool_decide_eq_true_2 (kv.1 ∈ f :: fields))
          by (rewrite E; now left). reflexivity.
      + cbn [List.filter]. rewrite IHd.
        destruct (decide (kv.1 ∈ fields)) as [Hin|Hnin].
        * rewrite (bool_decide_eq_true_2 _ Hin).
          rewrite (bool_decide_eq_true_2 (kv.1 ∈ f :: fields)) by now right.
          reflexivity.
        * rewrite (bool_decide_eq_false_2 _ Hnin).
          rewrite (bool_decide_eq_false_2 (kv.1 ∈ f :: fields))
            by (intros [?|?]%elem_of_cons; contradiction).
          reflexivity. }
  assert (Hown : forall k, ownProp k (omit data fields)
                 = if decide (k ∈ fields) then None else ownProp k data).
  { intros k. rewrite H. clear H.
    induction data as [|[k0 v0] data IH]; cbn [List.filter ownProp fst].
    - now destruct (decide (k ∈ fields)).
    - destruct (decide (k0 ∈ fields)) as [Hin|Hnin].
      + rewrite (bool_decide_eq_true_2 _ Hin). cbn [negb]. rewrite IH.
        destruct (decide (k ∈ fields)) as [_|Hk]; [reflexivity|].
        destruct (String.eqb_spec k0 k) as [->|_]; [contradiction|reflexivity].
      + rewrite (bool_decide_eq_false_2 _ Hnin). cbn [negb ownProp].
        destruct (String.eqb_spec k0 k) as [->|_]; [|exact IH].
        now rewrite decide_False. }
  split; [exact H|]. split; [exact Hown|].
  intros k. unfold prop. rewrite Hown. cbn [ownProp].
  now destruct (decide (k ∈ fields)).
Qed.

Lemma lowerChar_idem (c : Ascii.ascii) :
  Js.lowerChar (Js.lowerChar c) = Js.lowerChar c.
Proof. destruct c as [[] [] [] [] [] [] [] []]; reflexivity. Qed.

Lemma toLowerCase_idem (s : string) :
  Js.toLowerCase (Js.toLowerCase s) = Js.toLowerCase s.
Proof.
  induction s as [|c s IH]; [reflexivity|].
  cbn [Js.toLowerCase]. now rewrite lowerChar_idem, IH.
Qed.

Lemma assign_new (k : string) (v : Json) (acc : list (string * Json)) :
  k ∉ map fst acc -> assign k v acc = acc ++ [(k, v)].
Proof.
  induction acc as [|[k0 v0] acc IH]; intros Hk; [reflexivity|].
  cbn [assign map fst] in *.
  destruct (String.eqb_spec k0 k) as [->|_];
    [exfalso; apply Hk; now left|].
  cbn [app]. f_equal. apply IH. intros Hin. apply Hk. now right.
Qed.

Lemma assign_keys (k : string) (v : Json) (acc : list (string * Json)) :
  k ∈ map fst acc -> map fst (assign k v acc) = map fst acc.
Proof.
  induction acc as [|[k0 v0] acc IH]; intros Hk;
    [now apply not_elem_of_nil in Hk|].
  cbn [assign map fst] in *.
  destruct (String.eqb_spec k0 k) as [->|Hne]; [reflexivity|].
  cbn [map fst]. f_equal. apply IH.
  apply elem_of_cons in Hk. destruct Hk as [->|Hk]; [contradiction|exact Hk].
Qed.

Lemma assign_Forall (P : string * Json -> Prop) (k : string) (v : Json)
    (acc : list (string * Json)) :
  P (k, v) -> Forall P acc -> Forall P (assign k v acc).
Proof.
  intros Hkv. induction 1 as [|[k0 v0] acc Hx Hacc IH]; cbn [assign].
  - now constructor.
  - destruct (String.eqb_spec k0 k) as [->|_]; now constructor.
Qed.

Lemma assign_normal (k : string) (v : Json) (acc : list (string * Json)) :
  Js.toLowerCase k = k -> normalize v = v ->
  normalProps acc -> normalProps (assign k v acc).
Proof.
  intros Hk Hv [Hnd Hall]. split.
  - destruct (decide (k ∈ map fst acc)) as [Hin|Hnin].
    + now rewrite assign_keys.
    + rewrite assign_new by exact Hnin. rewrite map_app. cbn [map fst].
      apply NoDup_app. split; [exact Hnd|]. split.
      * intros x Hx [->|Hx']%elem_of_cons; [contradiction|].
        now apply not_elem_of_nil in Hx'.
      * apply NoDup_singleton.
  - now apply assign_Forall.
Qed.

Abbreviation normalizeStep :=
  (fun (acc : list (string * Json)) (kv : string * Json) =>
     assign (Js.toLowerCase kv.1) (normalize kv.2) acc).

Lemma fold_normal (props : list (string * Json)) :
  Forall (fun kv => normalize (normalize kv.2) = normalize kv.2) props ->
  forall acc, normalProps acc ->
  normalProps (fold_left normalizeStep props acc).
Proof.
  induction 1 as [|[k v] props Hv _ IH]; intros acc Hacc; [exact Hacc|].
  cbn [fold_left]. apply IH. apply assign_normal; [|exact Hv|exact Hacc].
  apply toLowerCase_idem.
Qed.

Lemma fold_fixed (props : list (string * Json)) :
  forall acc,
  NoDup (map fst (acc ++ props)) ->
  Forall (fun kv => Js.toLowerCase kv.1 = kv.1 /\ normalize kv.2 = kv.2)
         props ->
  fold_left normalizeStep props acc = acc ++ props.
Proof.
  induction props as [|[k v] props IH]; intros acc Hnd Hall.
  - now rewrite app_nil_r.
  - inversion Hall as [|? ? [Hk Hv] Hall']; subst. cbn [fold_left fst snd] in *.
    rewrite Hk, Hv.
    assert (Hnew : k ∉ map fst acc).
    { rewrite map_app in Hnd. cbn [map fst] in Hnd.
      apply NoDup_app in Hnd. destruct Hnd as (_ & Hdis & _).
      intros Hin. apply (Hdis k Hin). now left. }
    rewrite assign_new by exact Hnew.
    rewrite IH; [now rewrite <- app_assoc| |exact Hall'].
    now rewrite <- app_assoc.
Qed.


Lemma newKey_prefixed (prefix key : string) :
  prefix <> "" -> newKey prefix key = prefix +:+ "." +:+ key /\
                  newKey prefix key <> "".
Proof.
  intros Hp. unfold newKey.
  destruct (String.eqb_spec prefix "") as [E|_]; [contradiction|].
  split; [reflexivity|]. destruct prefix; [contradiction|discriminate].
Qed.

Lemma flatUnder_insert (prefix key : string) (v : Json)
    (result : gmap string Json) :
  isObject v = false -> flatUnder prefix result ->
  flatUnder prefix (<[newKey prefix key := v]> result).
Proof.
  intros Hv Hr. apply map_Forall_insert_2; [|exact Hr].
  split; [exact Hv|]. intros Hp. exists key.
  now destruct (newKey_prefixed prefix key Hp).
Qed.

Lemma flatUnder_assign (prefix key : string) (child result : gmap string Json) :
  flatUnder (newKey prefix key) child -> flatUnder prefix result ->
  flatUnder prefix (child ∪ result).
Proof.
  intros Hc Hr k v Hk. apply lookup_union_Some_raw in Hk.
  destruct Hk as [Hk|[_ Hk]]; [|now apply Hr].
  destruct (Hc k v Hk) as [Hv Hrest]. split; [exact Hv|].
  intros Hp. destruct (newKey_prefixed prefix key Hp) as [E Hne].
  destruct (Hrest Hne) as [rest ->]. exists (key +:+ "." +:+ rest).
  rewrite E. now rewrite !string_app_assoc.
Qed.

(** X25: [flatten] returns a flat object: none of its values is an
    object or an array (so nested empty objects and arrays leave no
    trace), and with a non-empty prefix every key starts with the
    prefix and a dot. *)
Lemma flatten_flat (data : Json) (prefix : string) :
  forall k v, flatten data prefix !! k = Some v ->
  isObject v = false /\
  (prefix <> "" -> exists rest, k = prefix +:+ "." +:+ rest).
Proof.
  change (flatUnder prefix (flatten data prefix)). revert prefix.
  induction data as [| | |s|items IH|props IH] using Json_induction;
    intros prefix; try (intros k v Hk; discriminate).
  - change (flatUnder prefix (eachChar prefix s 0 ∅)).
    assert (H : forall i result, flatUnder prefix result ->
                  flatUnder prefix (eachChar prefix s i result)).
    { induction s as [|c s IHs]; intros i result Hr; [exact Hr|].
      cbn [eachChar]. apply IHs. now apply flatUnder_insert. }
    apply H. intros k v Hk. discriminate.
  - change (flatUnder prefix (eachItem flatten prefix items 0 ∅)).
    assert (H : forall i result, flatUnder prefix result ->
                  flatUnder prefix (eachItem flatten prefix items i result)).
    { induction IH as [|v items Hv _ IHl]; intros i result Hr; [exact Hr|].
      cbn [eachItem]. apply IHl. destruct (isObject v) eqn:Eo.
      - eapply flatUnder_assign; [apply Hv|exact Hr].
      - now apply flatUnder_insert. }
    apply H. intros k v Hk. discriminate.
  - change (flatUnder prefix (eachProp flatten prefix props ∅)).
    assert (H : forall result, flatUnder prefix result ->
                  flatUnder prefix (eachProp flatten prefix props result)).
    { induction IH as [|[key v] props Hv _ IHl]; intros result Hr; [exact Hr|].
      cbn [eachProp]. apply IHl. cbn [snd] in Hv.
      destruct (isObject v) eqn:Eo.
      - eapply flatUnder_assign; [apply Hv|exact Hr].
      - now apply flatUnder_insert. }
    apply H. intros k v Hk. discriminate.
Qed.

End TransformerFacts.

(** ** EventEmitter *)
Section EmitterFacts.
Import EventEmitter.

Implicit Types (e : Emitter) (event : string) (h : Handler)
  (handlers done rest : list Handler).

Lemma wrapperIds_app handlers handlers' :
  wrapperIds (handlers ++ handlers')
  = wrapperIds handlers ++ wrapperIds handlers'.
Proof. apply omap_app. Qed.

Lemma wrapper_in_ids (w a : nat) handlers :
  Wrapper w a ∈ handlers -> w ∈ wrapperIds handlers.
Proof.
  intros H. unfold wrapperIds. apply list_elem_of_omap.
  now exists (Wrapper w a).
Qed.

Lemma removeFirst_middle h done rest :
  h ∉ done -> removeFirst h (done ++ h :: rest) = done ++ rest.
Proof.
  induction done as [|x done IH]; intros Hn; cbn [removeFirst app].
  - now rewrite decide_True.
  - rewrite decide_False by (intros ->; apply Hn; now left).
    f_equal. apply IH. intros Hin. apply Hn. now right.
Qed.

Lemma removeFirst_ids (id : nat) handlers :
  wrapperIds (removeFirst (Fn id) handlers) = wrapperIds handlers.
Proof.
  induction handlers as [|x handlers IH]; [reflexivity|].
  cbn [removeFirst]. destruct (decide (x = Fn id)) as [->|Hne]; [reflexivity|].
  unfold wrapperIds in *. cbn [omap list_omap]. now rewrite IH.
Qed.

Lemma setHandlers_same event handlers e :
  listeners e !! event = Some handlers -> setHandlers event handlers e = e.
Proof.
  intros H. destruct e as [ls n]. unfold setHandlers. cbn in *.
  now rewrite insert_id.
Qed.

Lemma handlersOf_set event handlers e :
  handlersOf event (setHandlers event handlers e) = handlers.
Proof. unfold handlersOf, setHandlers. cbn. now rewrite lookup_insert_eq. Qed.

Lemma setHandlers_twice event handlers handlers' e :
  setHandlers event handlers' (setHandlers event handlers e)
  = setHandlers event handlers' e.
Proof. unfold setHandlers. cbn. now rewrite insert_insert_eq. Qed.

(** The loop, from the index after [done] on. *)
Lemma emitLoop_spec event (fuel : nat) :
  forall rest done e (calls : list nat),
  listeners e !! event = Some (done ++ rest) ->
  NoDup (wrapperIds (done ++ rest)) ->
  (length rest <= fuel)%nat ->
  emitLoop fuel event (length done) e calls
  = (setHandlers event (done ++ kept rest) e, calls ++ called rest).
Proof.
  induction fuel as [|fuel IH]; intros rest done e calls He Hnd Hlen.
  - destruct rest; [|cbn in Hlen; lia]. cbn [emitLoop kept called].
    rewrite !app_nil_r in *. now rewrite setHandlers_same.
  - cbn [emitLoop].
    assert (Hof : handlersOf event e = done ++ rest)
      by (unfold handlersOf; now rewrite He).
    rewrite Hof.
    destruct rest as [|[id|w a] rest].
    + rewrite app_nil_r in *. rewrite lookup_ge_None_2 by lia.
      cbn [kept called]. rewrite !app_nil_r. now rewrite setHandlers_same.
    + rewrite list_lookup_middle by reflexivity.
      specialize (IH rest (done ++ [Fn id]) e (calls ++ [id])).
      rewrite length_app, <- !app_assoc in IH. cbn [length app] in IH.
      replace (length done + 1)%nat with (S (length done)) in IH by lia.
      rewrite IH; [|exact He|exact Hnd|cbn in Hlen; lia].
      cbn [kept called]. reflexivity.
    + rewrite list_lookup_middle by reflexivity.
      assert (Hnot : Wrapper w a ∉ done).
      { intros Hin. apply wrapper_in_ids in Hin.
        rewrite wrapperIds_app in Hnd. apply NoDup_app in Hnd.
        destruct Hnd as (_ & Hdis & _). apply (Hdis w Hin).
        unfold wrapperIds. cbn. now left. }
      assert (Hoff : off event (Wrapper w a) e
                     = setHandlers event (done ++ rest) e).
      { unfold off. rewrite He. now rewrite removeFirst_middle. }
      rewrite Hoff.
      assert (Hnd' : NoDup (wrapperIds (done ++ rest))).
      { rewrite wrapperIds_app in *. apply NoDup_app in Hnd.
        destruct Hnd as (H1 & H2 & H3). apply NoDup_app.
        split; [exact H1|]. unfold wrapperIds in H2, H3. cbn in H2, H3.
        apply NoDup_cons in H3. destruct H3 as [_ H3].
        split; [|exact H3].
        intros x Hx Hin. apply (H2 x Hx). now right. }
      destruct rest as [|x rest].
      * cbn [kept called]. rewrite !app_nil_r in *.
        destruct fuel as [|fuel]; cbn [emitLoop]; [reflexivity|].
        rewrite handlersOf_set. now rewrite lookup_ge_None_2 by lia.
      * specialize (IH rest (done ++ [x]) (setHandlers event (done ++ x :: rest) e)
                      (calls ++ [a])).
        rewrite length_app, <- !app_assoc in IH. cbn [length app] in IH.
        replace (length done + 1)%nat with (S (length done)) in IH by lia.
        rewrite IH.
        -- rewrite setHandlers_twice. reflexivity.
        -- unfold setHandlers. cbn. apply lookup_insert_eq.
        -- exact Hnd'.
        -- cbn in Hlen. lia.
Qed.

Lemma wrapperIds_Fn (id : nat) handlers :
  wrapperIds (Fn id :: handlers) = wrapperIds handlers.
Proof. reflexivity. Qed.

Lemma wrapperIds_Wrapper (w a : nat) handlers :
  wrapperIds (Wrapper w a :: handlers) = w :: wrapperIds handlers.
Proof. reflexivity. Qed.

(** What [kept] leaves was there before. *)
Lemma kept_ids (n : nat) :
  forall handlers, (length handlers <= n)%nat ->
  forall w, w ∈ wrapperIds (kept handlers) -> w ∈ wrapperIds handlers.
Proof.
  induction n as [|n IH]; intros handlers Hlen w Hw.
  - destruct handlers; [exact Hw|cbn in Hlen; lia].
  - destruct handlers as [|[id|w0 a] handlers]; [exact Hw| |].
    + cbn [kept] in Hw. rewrite wrapperIds_Fn in *.
      apply (IH handlers); [cbn in Hlen; lia|exact Hw].
    + destruct handlers as [|x handlers];
        [now apply not_elem_of_nil in Hw|].
      cbn [kept] in Hw. rewrite wrapperIds_Wrapper. right.
      destruct x as [id|w1 b].
      * rewrite wrapperIds_Fn in *.
        apply (IH handlers); [cbn in Hlen; lia|exact Hw].
      * rewrite wrapperIds_Wrapper in *.
        apply elem_of_cons in Hw. destruct Hw as [->|Hw]; [now left|].
        right. apply (IH handlers); [cbn in Hlen; lia|exact Hw].
Qed.

Lemma kept_NoDup (n : nat) :
  forall handlers, (length handlers <= n)%nat ->
  NoDup (wrapperIds handlers) -> NoDup (wrapperIds (kept handlers)).
Proof.
  induction n as [|n IH]; intros handlers Hlen Hnd.
  - destruct handlers; [exact Hnd|cbn in Hlen; lia].
  - destruct handlers as [|[id|w0 a] handlers]; [exact Hnd| |].
    + cbn [kept]. rewrite wrapperIds_Fn in *.
      apply (IH handlers); [cbn in Hlen; lia|exact Hnd].
    + destruct handlers as [|x handlers]; [constructor|].
      cbn [kept]. rewrite wrapperIds_Wrapper in Hnd.
      apply NoDup_cons in Hnd. destruct Hnd as [_ Hnd].
      destruct x as [id|w1 b].
      * rewrite wrapperIds_Fn in *.
        apply (IH handlers); [cbn in Hlen; lia|exact Hnd].
      * rewrite wrapperIds_Wrapper in *.
        apply NoDup_cons in Hnd. destruct Hnd as [Hn1 Hnd].
        apply NoDup_cons. split.
        -- intros Hin. apply Hn1.
           apply (kept_ids (length handlers) handlers (le_n _)). exact Hin.
        -- apply (IH handlers); [cbn in Hlen; lia|exact Hnd].
Qed.

(** One [emit], on an array without a repeated wrapper. *)
Lemma emit_on_array event e handlers :
  listeners e !! event = Some handlers ->
  NoDup (wrapperIds handlers) ->
  emit event e = (setHandlers event (kept handlers) e, called handlers).
Proof.
  intros He Hnd. unfold emit.
  assert (Hof : handlersOf event e = handlers)
    by (unfold handlersOf; now rewrite He).
  rewrite Hof.
  exact (emitLoop_spec event (length handlers) handlers [] e [] He Hnd
           (le_n _)).
Qed.

Lemma emit_no_array event e :
  listeners e !! event = None -> emit event e = (e, []).
Proof.
  intros He. unfold emit, handlersOf. now rewrite He.
Qed.

Lemma wrappersOnce_step e (op : Op) :
  wrappersOnce e -> wrappersOnce (step e op).
Proof.
  intros Hinv. destruct op as [event id|event id|event id|event];
    cbn [step].
  - (* on *)
    unfold wrappersOnce, on. cbn [listeners wrappers]. intros ev hs Hev.
    destruct (decide (event = ev)) as [->|Hne].
    + rewrite lookup_insert_eq in Hev. injection Hev as <-.
      rewrite wrapperIds_app. change (wrapperIds [Fn id]) with (@nil nat).
      rewrite app_nil_r. unfold handlersOf.
      destruct (listeners e !! ev) as [l|] eqn:El; cbn [default].
      * exact (Hinv ev l El).
      * split; constructor.
    + rewrite lookup_insert_ne in Hev by exact Hne. exact (Hinv ev hs Hev).
  - (* off *)
    unfold wrappersOnce, off.
    destruct (listeners e !! event) as [l|] eqn:El; [|exact Hinv].
    cbn [listeners wrappers]. intros ev hs Hev.
    destruct (decide (event = ev)) as [->|Hne].
    + rewrite lookup_insert_eq in Hev. injection Hev as <-.
      rewrite removeFirst_ids. exact (Hinv ev l El).
    + rewrite lookup_insert_ne in Hev by exact Hne. exact (Hinv ev hs Hev).
  - (* once *)
    unfold wrappersOnce, once, on, handlersOf. cbn [listeners wrappers].
    intros ev hs Hev.
    assert (Hup : forall l, listeners e !! ev = Some l ->
              NoDup (wrapperIds l) /\
              Forall (fun w => (w < S (wrappers e))%nat) (wrapperIds l)).
    { intros l Hl. destruct (Hinv ev l Hl) as [H1 H2]. split; [exact H1|].
      eapply Forall_impl; [exact H2|]. intros w Hw. cbn in Hw. lia. }
    destruct (decide (event = ev)) as [->|Hne].
    + rewrite lookup_insert_eq in Hev. injection Hev as <-.
      rewrite wrapperIds_app.
      change (wrapperIds [Wrapper (wrappers e) id]) with [wrappers e].
      destruct (listeners e !! ev) as [l|] eqn:El; cbn [default].
      * destruct (Hinv ev l El) as [H1 H2]. split.
        -- apply NoDup_app. split; [exact H1|]. split; [|apply NoDup_singleton].
           intros w Hw Hin. apply list_elem_of_singleton in Hin. subst w.
           rewrite Forall_forall in H2. specialize (H2 _ Hw). cbn in H2. lia.
        -- apply Forall_app. split.
           ++ eapply Forall_impl; [exact H2|]. intros w Hw. cbn in Hw. lia.
           ++ constructor; [lia|constructor].
      * cbn. split; [apply NoDup_singleton|].
        constructor; [lia|constructor].
    + rewrite lookup_insert_ne in Hev by exact Hne. now apply Hup.
  - (* emit *)
    destruct (listeners e !! event) as [l|] eqn:El.
    + destruct (Hinv event l El) as [H1 H2].
      rewrite (emit_on_array event e l El H1). cbn [fst].
      unfold wrappersOnce, setHandlers. cbn [listeners wrappers].
      intros ev hs Hev.
      destruct (decide (event = ev)) as [->|Hne].
      * rewrite lookup_insert_eq in Hev. injection Hev as <-.
        split; [now apply (kept_NoDup (length l))|].
        apply Forall_forall. intros w Hw.
        apply (kept_ids (length l) l (le_n _)) in Hw.
        rewrite Forall_forall in H2. now apply H2.
      * rewrite lookup_insert_ne in Hev by exact Hne. exact (Hinv ev hs Hev).
    + now rewrite emit_no_array.
Qed.

Lemma reachable_wrappersOnce e : reachable e -> wrappersOnce e.
Proof.
  induction 1 as [|e op _ IH].
  - intros ev hs Hev. cbn in Hev. now rewrite lookup_empty in Hev.
  - now apply wrappersOnce_step.
Qed.

Lemma called_plain (ids : list nat) (handlers : list Handler) :
  called (plain ids ++ handlers) = ids ++ called handlers /\
  kept (plain ids ++ handlers) = plain ids ++ kept handlers.
Proof.
  induction ids as [|id ids [IH1 IH2]]; [now split|].
  cbn [plain map app called kept]. fold (plain ids).
  now rewrite IH1, IH2.
Qed.

(** X26: what [emit] does on any emitter a client can build. It calls
    the handlers of the event in the order they were registered, and a
    [once] handler takes itself off after its call; but taking itself
    off moves the rest of the array up under the loop, so the handler
    registered right after a [once] handler is passed over by that
    [emit]: it is not called, and it stays registered. With client
    handlers only, every one is called and nothing changes. *)
Lemma emit_spec event e handlers :
  reachable e -> listeners e !! event = Some handlers ->
  emit event e = (setHandlers event (kept handlers) e, called handlers) /\
  (forall ids, handlers = plain ids -> emit event e = (e, ids)) /\
  (forall ids w a h rest,
     handlers = plain ids ++ Wrapper w a :: h :: rest ->
     (emit event e).2 = ids ++ a :: called rest /\
     handlersOf event (emit event e).1 = plain ids ++ h :: kept rest).
Proof.
  intros Hr He.
  destruct (reachable_wrappersOnce e Hr event handlers He) as [Hnd _].
  pose proof (emit_on_array event e handlers He Hnd) as Hem.
  split; [exact Hem|]. split.
  - intros ids ->. rewrite Hem.
    destruct (called_plain ids []) as [Hc Hk]. rewrite app_nil_r in Hc, Hk.
    cbn [called kept] in Hc, Hk. rewrite app_nil_r in Hc, Hk.
    rewrite Hc, Hk. now rewrite setHandlers_same.
  - intros ids w a h rest ->. rewrite Hem. cbn [fst snd].
    destruct (called_plain ids (Wrapper w a :: h :: rest)) as [Hc Hk].
    rewrite Hc, Hk, handlersOf_set. now split.
Qed.

End EmitterFacts.

(** ** Instances

    Each property above that has a precondition, at an input that
    meets it. *)

Lemma reachable_counters_witness :
  (CircuitBreaker.status
     (CircuitBreaker.step CircuitBreaker.initial
        (CircuitBreaker.OpRecordFailure 1 1))
   = CircuitBreaker.CLOSED <->
   CircuitBreaker.failures
     (CircuitBreaker.step CircuitBreaker.initial
        (CircuitBreaker.OpRecordFailure 1 1))
   < CircuitBreaker.failureThreshold) /\
  0 <= CircuitBreaker.failures
         (CircuitBreaker.step CircuitBreaker.initial
            (CircuitBreaker.OpRecordFailure 1 1)).
Proof.
  destruct (reachable_counters _
              (CircuitBreaker.reach_step _ (CircuitBreaker.OpRecordFailure 1 1)
                 CircuitBreaker.reach_initial)) as (H1 & H2 & _).
  split; [exact H1|exact H2].
Defined.

Lemma execute_opens_then_fails_fast_witness :
  (CircuitBreaker.executes (fun m : string => m)
     (replicate 5 (CircuitBreaker.mkCall (T := nat) (Thrown "down") None 1 1 1))
     CircuitBreaker.initial).1
  = replicate 5 (Thrown "down") /\
  CircuitBreaker.execute (fun m : string => m) (Returned 7%nat) None
    60001 60001 60001
    (CircuitBreaker.executes (fun m : string => m)
       (replicate 5 (CircuitBreaker.mkCall (T := nat) (Thrown "down") None 1 1 1))
       CircuitBreaker.initial).2
  = (Thrown "Circuit breaker is OPEN",
     CircuitBreaker.mkState CircuitBreaker.OPEN 5 1 0).
Proof.
  pose proof (execute_opens_then_fails_fast string nat (fun m => m)
                (replicate 5 (CircuitBreaker.mkCall (Thrown "down") None 1 1 1))
                CircuitBreaker.initial
                (CircuitBreaker.mkCall (Returned 7%nat) None 60001 60001 60001)
                eq_refl eq_refl eq_refl) as H.
  cbv zeta in H. destruct H as (H1 & _ & H3).
  - repeat constructor; now exists "down".
  - split; [exact H1|]. apply H3. vm_compute. discriminate.
Defined.

Lemma execute_probe_witness :
  (CircuitBreaker.execute (fun m : string => m) (Returned 1%nat) None
     60006 60006 60006
     (CircuitBreaker.recordFailures
        [(1, 1); (2, 2); (3, 3); (4, 4); (5, 5)] CircuitBreaker.initial)).1
  = Returned 1%nat /\
  CircuitBreaker.status
    (CircuitBreaker.execute (fun m : string => m) (Returned 1%nat) None
       60006 60006 60006
       (CircuitBreaker.recordFailures
          [(1, 1); (2, 2); (3, 3); (4, 4); (5, 5)] CircuitBreaker.initial)).2
  = CircuitBreaker.HALF_OPEN.
Proof.
  assert (Hr : CircuitBreaker.reachable
                 (CircuitBreaker.recordFailures
                    [(1, 1); (2, 2); (3, 3); (4, 4); (5, 5)]
                    CircuitBreaker.initial)).
  { exact (CircuitBreaker.reach_step _ (CircuitBreaker.OpRecordFailure 5 5)
            (CircuitBreaker.reach_step _ (CircuitBreaker.OpRecordFailure 4 4)
            (CircuitBreaker.reach_step _ (CircuitBreaker.OpRecordFailure 3 3)
            (CircuitBreaker.reach_step _ (CircuitBreaker.OpRecordFailure 2 2)
            (CircuitBreaker.reach_step _ (CircuitBreaker.OpRecordFailure 1 1)
               CircuitBreaker.reach_initial))))). }
  destruct (execute_probe string nat (fun m => m)
              (Returned 1%nat) (Returned 2%nat) None None
              60006 60006 60006 60007 60007 60007 _ Hr eq_refl eq_refl)
    as [H _].
  specialize (H 1%nat 2%nat eq_refl eq_refl). cbv zeta in H.
  destruct H as (H1 & H2 & _). split; [exact H1|exact H2].
Defined.

Lemma allowRequests_isolated_witness :
  (RateLimiter.allowRequests "10.0.0.8" [(5, 5)]
     (RateLimiter.allowRequests "10.0.0.7" [(0, 0); (1, 1)] ∅).2).1
  = (RateLimiter.allowRequests "10.0.0.8" [(5, 5)] ∅).1.
Proof.
  destruct (allowRequests_isolated "10.0.0.7" "10.0.0.8"
              [(0, 0); (1, 1)] [(5, 5)] ∅ ltac:(discriminate)) as [H _].
  exact H.
Defined.

Lemma reset_then_allowRequest_witness :
  (RateLimiter.allowRequest "10.0.0.7" 7 7
     (RateLimiter.reset "10.0.0.7"
        {[ "10.0.0.7" := RateLimiter.mkBucket 0 7 ]})).1 = true.
Proof.
  pose proof (reset_then_allowRequest "10.0.0.7" 7 7
                {[ "10.0.0.7" := RateLimiter.mkBucket 0 7 ]}
                ltac:(lia)) as H.
  cbv zeta in H. destruct H as [H _]. exact H.
Defined.

Lemma allowRequests_rate_bound_witness :
  (inject_Z
     (Z.of_nat
        (RateLimiter.allowed
           (RateLimiter.allowRequests "10.0.0.7"
              [(0, 0); (0, 0); (1000, 1000)]%Z ∅).1))
   <= RateLimiter.capacity
      + inject_Z (RateLimiter.lastReading (0, 0)%Z [(0, 0); (1000, 1000)]%Z
                  - 0)%Z
        / RateLimiter.refillInterval * RateLimiter.refillRate)%Q.
Proof.
  pose proof (allowRequests_rate_bound "10.0.0.7" (0, 0)
                [(0, 0); (1000, 1000)] ∅) as H.
  cbv zeta in H. destruct H as [_ H].
  - vm_compute. discriminate.
  - vm_compute. discriminate.
  - cbn. lia.
  - apply H. apply lookup_empty.
Defined.

Lemma rateLimitMiddleware_retryAfter_witness :
  (Middleware.rateLimitMiddleware (Some "10.0.0.7") 0 0
     {[ "10.0.0.7" := RateLimiter.mkBucket 0 0 ]}).1
  = Middleware.Respond 429 (Some 1).
Proof.
  destruct (Middleware.rateLimitMiddleware (Some "10.0.0.7") 0 0
              {[ "10.0.0.7" := RateLimiter.mkBucket 0 0 ]})
    as [[|st ra] b'] eqn:E.
  - vm_compute in E. discriminate.
  - destruct (rateLimitMiddleware_retryAfter (Some "10.0.0.7") 0 0 0
                {[ "10.0.0.7" := RateLimiter.mkBucket 0 0 ]} st ra b')
      as (-> & -> & _); [|lia|lia|exact E|reflexivity].
    intros b Hb.
    change (Middleware.clientIdOf (Some "10.0.0.7")) with "10.0.0.7" in Hb.
    rewrite lookup_singleton_eq in Hb. injection Hb as <-.
    repeat split; vm_compute; discriminate.
Defined.

Lemma invalidate_namespace_witness :
  (Cache.get (Cache.finalKey "butter" (Cache.mkOptions None (Some "search"))) 5
     (Cache.invalidate (Some "search")
        (Cache.set "butter" "quotes"%string
           (Cache.mkOptions None (Some "search")) 0 ∅))).1 = None.
Proof.
  pose proof (invalidate_namespace string "butter" "search" "quotes"%string
                None 0 5 ∅ ltac:(discriminate)) as H.
  cbv zeta in H. destruct H as (_ & _ & H). exact H.
Defined.

Lemma getOrSet_hit_witness :
  Cache.invoked
    (Cache.getOrSet string (fun s => negb (String.eqb s "")) "k" "w"
       Cache.noOptions 1000 1000
       (Cache.cacheAfter
          (Cache.getOrSet string (fun s => negb (String.eqb s "")) "k" "v"
             Cache.noOptions 0 0 ∅)))
  = false /\
  Cache.resolved
    (Cache.getOrSet string (fun s => negb (String.eqb s "")) "k" "w"
       Cache.noOptions 1000 1000
       (Cache.cacheAfter
          (Cache.getOrSet string (fun s => negb (String.eqb s "")) "k" "v"
             Cache.noOptions 0 0 ∅)))
  = "v"%string.
Proof.
  pose proof (getOrSet_hit string (fun s => negb (String.eqb s ""))
                "k" "v"%string "w"%string None 0 0 1000 1000 ∅
                (lookup_empty _) eq_refl) as H.
  cbv zeta in H. destruct H as (_ & _ & H3 & H4 & _).
  - vm_compute. discriminate.
  - split; [exact H3|exact H4].
Defined.

Lemma getOrSet_falsy_recomputes_witness :
  (Cache.getOrSets string (fun s => negb (String.eqb s "")) "k"
     Cache.noOptions [(""%string, 0, 0); (""%string, 1, 1)] ∅).1
  = [true; true].
Proof.
  apply (getOrSet_falsy_recomputes string (fun s => negb (String.eqb s ""))
           "k" None [(""%string, 0, 0); (""%string, 1, 1)]).
  - repeat constructor.
  - intros item H. rewrite lookup_empty in H. discriminate.
Defined.

Lemma searchAll_badges_witness :
  exists first rest,
    Aggregator.searchAll Js.parseInt "Amul Butter 500g" 28 77
      [ (fun _ _ _ => Aggregator.Fulfilled [Aggregator.zeptoButter]);
        (fun _ _ _ => Aggregator.Rejected "timeout");
        (fun _ _ _ => Aggregator.Fulfilled [Aggregator.blinkitButter]) ]
      = Returned (first :: rest) /\
    Aggregator.isCheapest first = true /\
    Forall (fun x => Aggregator.isCheapest x = false) rest.
Proof.
  pose proof (searchAll_badges Js.parseInt "Amul Butter 500g" 28 77
                [ (fun _ _ _ => Aggregator.Fulfilled [Aggregator.zeptoButter]);
                  (fun _ _ _ => Aggregator.Rejected "timeout");
                  (fun _ _ _ => Aggregator.Fulfilled [Aggregator.blinkitButter]) ])
    as H.
  cbv zeta in H.
  destruct H as (first & rest & H1 & H2 & _ & _ & H5 & _).
  - discriminate.
  - repeat constructor.
  - exists first, rest. split; [exact H1|]. split; [exact H2|exact H5].
Defined.

Lemma flatten_flat_witness :
  DataTransformer.isObject (DataTransformer.JNum 1) = false /\
  exists rest, "p.a.b" = "p" +:+ "." +:+ rest.
Proof.
  destruct (flatten_flat
              (DataTransformer.JObj
                 [("a", DataTransformer.JObj [("b", DataTransformer.JNum 1)])])
              "p" "p.a.b" (DataTransformer.JNum 1)) as [H1 H2].
  - vm_compute. reflexivity.
  - split; [exact H1|]. apply H2. discriminate.
Defined.

Lemma emit_spec_witness :
  (EventEmitter.emit "price"
     (EventEmitter.step
        (EventEmitter.step
           (EventEmitter.step EventEmitter.empty (EventEmitter.OpOnce "price" 1))
           (EventEmitter.OpOn "price" 2))
        (EventEmitter.OpOn "price" 3))).2 = [1; 3]%nat /\
  EventEmitter.handlersOf "price"
    (EventEmitter.emit "price"
       (EventEmitter.step
          (EventEmitter.step
             (EventEmitter.step EventEmitter.empty
                (EventEmitter.OpOnce "price" 1))
             (EventEmitter.OpOn "price" 2))
          (EventEmitter.OpOn "price" 3))).1
  = [EventEmitter.Fn 2; EventEmitter.Fn 3].
Proof.
  destruct (emit_spec "price"
              (EventEmitter.step
                 (EventEmitter.step
                    (EventEmitter.step EventEmitter.empty
                       (EventEmitter.OpOnce "price" 1))
                    (EventEmitter.OpOn "price" 2))
                 (EventEmitter.OpOn "price" 3))
              [EventEmitter.Wrapper 0 1; EventEmitter.Fn 2; EventEmitter.Fn 3])
    as (_ & _ & H).
  - do 3 apply EventEmitter.reach_step. apply EventEmitter.reach_empty.
  - vm_compute. reflexivity.
  - exact (H [] 0%nat 1%nat (EventEmitter.Fn 2) [EventEmitter.Fn 3] eq_refl).
Defined.
